(** * Web accessibility & usability checker: the analysis engine of [script.js]

    A shallow embedding of [analyzeDocument], [computeContrastRatio],
    [parseCssColor], [relativeLuminance] and [getEffectiveBackground],
    together with the JavaScript built-ins they rely on, of the handlers of
    the page ([runAnalysis], [renderResults], [renderScoreChart] and the
    click on the Analyze button), and the properties proved over that
    embedding.

    Conventions of the model.
    - A JavaScript string is a list of UTF-16 code units ([jsstring]).
    - A JavaScript number that may be [NaN] or infinite is a [number]: an
      exact rational, [NaN], or one of the two infinities.  Arithmetic is the
      exact arithmetic of the rationals: the rounding of binary64, its
      overflow and the sign of zero are not represented.
    - Counters and lengths are [nat], integer scores are [Z]; they are
      injected into [number] where the source divides or compares them with
      a fractional literal.
    - [Math.pow] is implementation-approximated in ECMAScript: the model
      takes the approximation as a parameter ([pow_approx]) and fixes only
      the cases the language fixes. *)

From Stdlib Require Import ZArith NArith QArith Qcanon Qround List Bool Lia Lqa.
From Stdlib Require Import Strings.String Strings.Ascii DecimalString.
From Stdlib Require DecimalNat Permutation.
Import ListNotations.

Local Open Scope Z_scope.
Local Open Scope list_scope.

(* ================================================================== *)
(** * Strings *)

Module JsString.

(** A string is its sequence of code units. *)
Definition code_unit := N.
Definition jsstring := list code_unit.

(** The code units of an ASCII literal. *)
Definition str (s : string) : jsstring :=
  map N_of_ascii (list_ascii_of_string s).

(** The code unit of an ASCII character. *)
Definition ch (s : string) : code_unit :=
  match s with
  | String a _ => N_of_ascii a
  | EmptyString => 0%N
  end.

Definition eqb (s t : jsstring) : bool :=
  if list_eq_dec N.eq_dec s t then true else false.

(** [WhiteSpace] and [LineTerminator] of ECMA-262: the characters removed by
    [String.prototype.trim], skipped by [parseInt] and [parseFloat], and
    matched by [\s] in a regular expression. *)
Definition is_space (c : code_unit) : bool :=
  ((c =? 9) || (c =? 10) || (c =? 11) || (c =? 12) || (c =? 13) || (c =? 32)
   || (c =? 160) || (c =? 5760) || ((8192 <=? c) && (c <=? 8202))
   || (c =? 8232) || (c =? 8233) || (c =? 8239) || (c =? 8287)
   || (c =? 12288) || (c =? 65279))%N.

(** [\d]: the ten ASCII digits. *)
Definition is_digit (c : code_unit) : bool :=
  ((48 <=? c) && (c <=? 57))%N.

Definition digit_value (c : code_unit) : Z := Z.of_N c - 48.

(** The longest prefix of [s] whose code units satisfy [p], and the rest. *)
Fixpoint span (p : code_unit -> bool) (s : jsstring) : jsstring * jsstring :=
  match s with
  | [] => ([], [])
  | c :: s' =>
      if p c then let (run, rest) := span p s' in (c :: run, rest)
      else ([], s)
  end.

Fixpoint dropWhile (p : code_unit -> bool) (s : jsstring) : jsstring :=
  match s with
  | [] => []
  | c :: s' => if p c then dropWhile p s' else s
  end.

Definition trimStart (s : jsstring) : jsstring := dropWhile is_space s.
Definition trimEnd (s : jsstring) : jsstring := rev (dropWhile is_space (rev s)).

(** [s.trim()] *)
Definition trim (s : jsstring) : jsstring := trimEnd (trimStart s).

(** [s.slice(n)] for a non-negative [n]. *)
Definition slice (n : nat) (s : jsstring) : jsstring := skipn n s.

(** [s.toUpperCase()] on the ASCII letters; other code units are kept. *)
Definition upper_unit (c : code_unit) : code_unit :=
  if ((97 <=? c) && (c <=? 122))%N then (c - 32)%N else c.

Definition toUpperCase (s : jsstring) : jsstring := map upper_unit s.

(** [s] starts with [p]; the rest of [s] is returned. *)
Fixpoint strip_prefix (p s : jsstring) : option jsstring :=
  match p, s with
  | [], _ => Some s
  | _ :: _, [] => None
  | a :: p', c :: s' => if (a =? c)%N then strip_prefix p' s' else None
  end.

(** The decimal rendering of a counter, as a template literal inserts it. *)
Definition decimal (n : nat) : jsstring :=
  str (NilZero.string_of_uint (Nat.to_uint n)).

(** The value of a run of decimal digits, most significant first. *)
Definition digits_value (ds : jsstring) : Z :=
  fold_left (fun acc c => 10 * acc + digit_value c) ds 0.

End JsString.

Import JsString.

(* ================================================================== *)
(** * Numbers *)

Module JsNumber.

Local Open Scope Qc_scope.

Inductive number : Type :=
| NaN
| NegInf
| Num (q : Qc)
| PosInf.

Definition of_Z (z : Z) : number := Num (Q2Qc (inject_Z z)).
Definition of_nat (n : nat) : number := of_Z (Z.of_nat n).
Definition lit (q : Q) : number := Num (Q2Qc q).

Definition Qcltb (a b : Qc) : bool :=
  match a ?= b with Lt => true | _ => false end.
Definition Qcleb (a b : Qc) : bool :=
  match a ?= b with Gt => false | _ => true end.
Definition Qceqb (a b : Qc) : bool :=
  match a ?= b with Eq => true | _ => false end.

Definition isNaN (x : number) : bool :=
  match x with NaN => true | _ => false end.

(** [x < y]: false as soon as one side is [NaN]. *)
Definition lt (x y : number) : bool :=
  match x, y with
  | NaN, _ | _, NaN => false
  | _, NegInf => false
  | NegInf, _ => true
  | PosInf, _ => false
  | Num _, PosInf => true
  | Num a, Num b => Qcltb a b
  end.

(** [x > y] *)
Definition gt (x y : number) : bool := lt y x.

(** [x <= y] *)
Definition le (x y : number) : bool :=
  match x, y with
  | NaN, _ | _, NaN => false
  | NegInf, _ => true
  | _, PosInf => true
  | _, NegInf => false
  | PosInf, _ => false
  | Num a, Num b => Qcleb a b
  end.

Definition neg (x : number) : number :=
  match x with
  | NaN => NaN
  | NegInf => PosInf
  | PosInf => NegInf
  | Num a => Num (- a)
  end.

(** [x + y] *)
Definition add (x y : number) : number :=
  match x, y with
  | NaN, _ | _, NaN => NaN
  | PosInf, NegInf | NegInf, PosInf => NaN
  | PosInf, _ | _, PosInf => PosInf
  | NegInf, _ | _, NegInf => NegInf
  | Num a, Num b => Num (a + b)
  end.

(** [x - y] *)
Definition sub (x y : number) : number := add x (neg y).

(** The infinity of the sign of [a] (a zero counts as positive). *)
Definition inf_of_sign (a : Qc) : number :=
  if Qcltb a 0 then NegInf else PosInf.

(** [x * y] *)
Definition mul (x y : number) : number :=
  match x, y with
  | NaN, _ | _, NaN => NaN
  | Num a, Num b => Num (a * b)
  | PosInf, PosInf | NegInf, NegInf => PosInf
  | PosInf, NegInf | NegInf, PosInf => NegInf
  | PosInf, Num a | Num a, PosInf =>
      if Qceqb a 0 then NaN else inf_of_sign a
  | NegInf, Num a | Num a, NegInf =>
      if Qceqb a 0 then NaN else neg (inf_of_sign a)
  end.

(** [x / y] *)
Definition div (x y : number) : number :=
  match x, y with
  | NaN, _ | _, NaN => NaN
  | (PosInf | NegInf), (PosInf | NegInf) => NaN
  | PosInf, Num b => inf_of_sign b
  | NegInf, Num b => neg (inf_of_sign b)
  | Num _, (PosInf | NegInf) => Num 0
  | Num a, Num b =>
      if Qceqb b 0 then (if Qceqb a 0 then NaN else inf_of_sign a)
      else Num (a / b)
  end.

(** [Math.max(x, y)] and [Math.min(x, y)]: [NaN] if either argument is. *)
Definition Math_max (x y : number) : number :=
  match x, y with
  | NaN, _ | _, NaN => NaN
  | _, _ => if lt x y then y else x
  end.

Definition Math_min (x y : number) : number :=
  match x, y with
  | NaN, _ | _, NaN => NaN
  | _, _ => if lt y x then y else x
  end.

(** [Math.round(x)]: the nearest integer, a half rounding up. *)
Definition round_half_up (q : Qc) : Z := Qfloor (this q + (1 # 2)).

Definition Math_round (x : number) : number :=
  match x with
  | Num q => of_Z (round_half_up q)
  | _ => x
  end.

(** Ten to a signed integer power. *)
Definition pow10 (e : Z) : Qc :=
  match e with
  | Z0 => 1
  | Zpos p => Q2Qc (inject_Z (10 ^ Zpos p))
  | Zneg p => / Q2Qc (inject_Z (10 ^ Zpos p))
  end.

End JsNumber.

Import JsNumber.

(* ================================================================== *)
(** * Built-in parsers: [parseInt] and [parseFloat] *)

Module JsParse.

(** An optional sign: [true] for a minus. *)
Definition read_sign (s : jsstring) : bool * jsstring :=
  match s with
  | c :: s' =>
      if (c =? ch "-")%N then (true, s')
      else if (c =? ch "+")%N then (false, s')
      else (false, s)
  | [] => (false, s)
  end.

Definition signed (minus : bool) (q : Qc) : Qc :=
  if minus then (- q)%Qc else q.

(** [parseInt(s, 10)]: leading white space, an optional sign, then the
    longest run of decimal digits; [NaN] when that run is empty. *)
Definition parseInt (input : jsstring) : number :=
  let (minus, s) := read_sign (trimStart input) in
  let (ds, _) := span is_digit s in
  match ds with
  | [] => NaN
  | _ => Num (signed minus (Q2Qc (inject_Z (digits_value ds))))
  end.

(** [ExponentPart]: [e] or [E], an optional sign and at least one digit.
    The exponent is [0] when no exponent part can be read. *)
Definition read_exponent (s : jsstring) : Z :=
  match s with
  | c :: s' =>
      if ((c =? ch "e") || (c =? ch "E"))%N then
        let (minus, s'') := read_sign s' in
        let (ds, _) := span is_digit s'' in
        match ds with
        | [] => 0
        | _ => if minus then - digits_value ds else digits_value ds
        end
      else 0
  | [] => 0
  end.

(** The value of the longest prefix of [s] that is an unsigned decimal
    literal: digits, an optional fraction and an optional exponent, with a
    digit before or after the dot.  The value is the exact rational the
    text denotes: the built-in rounds it to the nearest binary64 (and to
    [Infinity] from about [1.8e308] upward), which is not represented, so
    the two agree on the texts whose value a binary64 holds exactly, such
    as the whole numbers up to [2^53]. *)
Definition parse_decimal (s : jsstring) : option Qc :=
  let (ip, s1) := span is_digit s in
  let (fp, s2) :=
    match s1 with
    | c :: s1' =>
        if (c =? ch ".")%N then
          let (fp, s2) := span is_digit s1' in
          match ip, fp with
          | [], [] => ([], s1)
          | _, _ => (fp, s2)
          end
        else ([], s1)
    | [] => ([], s1)
    end in
  match ip, fp with
  | [], [] => None
  | _, _ =>
      let mant := Q2Qc (inject_Z (digits_value (ip ++ fp))) in
      let e := read_exponent s2 - Z.of_nat (List.length fp) in
      Some (mant * pow10 e)%Qc
  end.

(** [parseFloat(s)]: leading white space, then the longest prefix that is a
    [StrDecimalLiteral]; [NaN] when there is none. *)
Definition parseFloat (input : jsstring) : number :=
  let (minus, s) := read_sign (trimStart input) in
  match strip_prefix (str "Infinity") s with
  | Some _ => if minus then NegInf else PosInf
  | None =>
      match parse_decimal s with
      | Some q => Num (signed minus q)
      | None => NaN
      end
  end.

End JsParse.

Import JsParse.

(* ================================================================== *)
(** * The regular expression of [parseCssColor]

    [/rgba?\(\s*([\d.]+)\s*,\s*([\d.]+)\s*,\s*([\d.]+)/i], matched
    with [String.prototype.match]: the leftmost position at which the
    pattern matches, and the three captured runs there.

    The quantified classes are matched by taking the longest run: what
    follows [\s*] is never white space and what follows a captured run is
    never a digit or a dot, so giving back a character from a run cannot
    make a failing match succeed; the last run is greedy.  The optional [a]
    is tried first with the [a] and then without it. *)

Module ColorRegex.

Definition is_digit_or_dot (c : code_unit) : bool :=
  is_digit c || (c =? ch ".")%N.

(** A pattern letter under the [i] flag: the input code unit matches when
    its upper case is the upper-case letter. *)
Definition ci (letter : string) (c : code_unit) : bool :=
  (upper_unit c =? ch letter)%N.

(** [\s*([\d.]+)]: the captured run and the rest of the input. *)
Definition ws_run (s : jsstring) : option (jsstring * jsstring) :=
  match span is_digit_or_dot (dropWhile is_space s) with
  | ([], _) => None
  | (run, rest) => Some (run, rest)
  end.

(** [\s*,] *)
Definition ws_comma (s : jsstring) : option jsstring :=
  match dropWhile is_space s with
  | c :: rest => if (c =? ch ",")%N then Some rest else None
  | [] => None
  end.

Definition captures : Type := jsstring * jsstring * jsstring.

(** Sequencing of the pieces of a pattern: the match fails as soon as one
    piece fails. *)
Notation "' p <- e ;; k" :=
  (match e with
   | Some p => k
   | None => None
   end)
  (at level 10, p pattern, e at level 100, k at level 200, only parsing).

(** [\(\s*([\d.]+)\s*,\s*([\d.]+)\s*,\s*([\d.]+)] *)
Definition paren_groups (s : jsstring) : option captures :=
  match s with
  | c :: s0 =>
      if (c =? ch "(")%N then
        '(g1, s1) <- ws_run s0 ;;
        's2 <- ws_comma s1 ;;
        '(g2, s3) <- ws_run s2 ;;
        's4 <- ws_comma s3 ;;
        '(g3, _) <- ws_run s4 ;;
        Some (g1, g2, g3)
      else None
  | [] => None
  end.

(** [a?] followed by the rest of the pattern. *)
Definition opt_a_groups (s : jsstring) : option captures :=
  match s with
  | c :: s' =>
      if ci "A" c then
        match paren_groups s' with
        | Some m => Some m
        | None => paren_groups s
        end
      else paren_groups s
  | [] => None
  end.

(** The whole pattern at the start of [s]. *)
Definition match_here (s : jsstring) : option captures :=
  match s with
  | c1 :: c2 :: c3 :: s' =>
      if ci "R" c1 && ci "G" c2 && ci "B" c3 then opt_a_groups s' else None
  | _ => None
  end.

(** [s.match(rgbRegex)]: the first position where the pattern matches. *)
Fixpoint regex_match (s : jsstring) : option captures :=
  match match_here s with
  | Some m => Some m
  | None =>
      match s with
      | [] => None
      | _ :: s' => regex_match s'
      end
  end.

End ColorRegex.

Import ColorRegex.

(* ================================================================== *)
(** * Colour parsing *)

Record RGBColor : Type := mkRGB { r : number; g : number; b : number }.

(** [parseCssColor(colorStr)] *)
Definition parseCssColor (colorStr : jsstring) : option RGBColor :=
  match colorStr with
  | [] => None
  | _ =>
      match regex_match colorStr with
      | None => None
      | Some (m1, m2, m3) =>
          Some {| r := parseFloat m1; g := parseFloat m2; b := parseFloat m3 |}
      end
  end.

(* ================================================================== *)
(** * The rendered document *)

Module Dom.

(** The fields of a computed style that the analysis reads. *)
Record CSSStyleDeclaration : Type := mkStyle {
  fontSize : jsstring;
  color : jsstring;
  backgroundColor : jsstring
}.

(** An element.  [nodeId] stands for the identity of the node, which
    [!==] compares; [localName] is the lower-case name of an HTML element. *)
#[warnings="-register-all"]
Inductive Element : Type := mkElement {
  nodeId : nat;
  localName : jsstring;
  attributes : list (jsstring * jsstring);
  scrollWidth : Z;
  clientWidth : Z;
  parentElement : option Element
}.

(** [a === b] on nodes. *)
Definition same_node (a b : Element) : bool :=
  Nat.eqb (nodeId a) (nodeId b).

(** [el.tagName]: the upper-case name, for an HTML element. *)
Definition tagName (el : Element) : jsstring := toUpperCase (localName el).

(** [el.getAttribute(name)]: [None] stands for [null]. *)
Definition getAttribute (el : Element) (name : jsstring) : option jsstring :=
  match find (fun kv => JsString.eqb (fst kv) name) (attributes el) with
  | Some kv => Some (snd kv)
  | None => None
  end.

(** The elements of the document in tree order, and its root element. *)
Record Document : Type := mkDocument {
  elements : list Element;
  documentElement : Element
}.

(** [doc.getElementsByTagName(name)] *)
Definition getElementsByTagName (doc : Document) (name : jsstring)
  : list Element :=
  filter (fun el => JsString.eqb (localName el) name) (elements doc).

(** [doc.querySelectorAll(sel)] for a selector that is a list of element
    names: the elements with one of these names, in document order. *)
Definition querySelectorAll (doc : Document) (names : list jsstring)
  : list Element :=
  filter (fun el => existsb (JsString.eqb (localName el)) names)
         (elements doc).

(** The frame the document is rendered in: its document and the computed
    style of its window. *)
Record Frame : Type := mkFrame {
  contentDocument : Document;
  getComputedStyle : Element -> CSSStyleDeclaration
}.

End Dom.

Import Dom.

(* ================================================================== *)
(** * The analysis engine *)

Inductive Severity : Type := critical | warning | ok.

Record Issue : Type := mkIssue { severity : Severity; text : jsstring }.

Record AnalysisResult : Type := mkResult {
  finalScore : number;
  issues : list Issue;
  summary : list jsstring
}.

(** [a || ""] for an attribute value that may be [null]. *)
Definition or_empty (a : option jsstring) : jsstring :=
  match a with
  | Some v => v
  | None => []
  end.

(** The truth value of a string: it is not empty. *)
Definition truthy (s : jsstring) : bool :=
  match s with
  | [] => false
  | _ => true
  end.

(** The computed value of a fully transparent background. *)
Definition transparent_black : jsstring := str "rgba(0, 0, 0, 0)".

(** The default background, white. *)
Definition default_background : jsstring := str "rgb(255, 255, 255)".

(** [addIssue(issues, severity, text)] *)
Definition addIssue (issues : list Issue) (sev : Severity) (txt : jsstring)
  : list Issue :=
  issues ++ [ {| severity := sev; text := txt |} ].

(** The loop of [getEffectiveBackground], entered with a non-null
    [current]; [root] is [frame.contentDocument.documentElement]. *)
Fixpoint background_walk (frame : Frame) (root current : Element) : jsstring :=
  if same_node current root then default_background
  else
    let style := getComputedStyle frame current in
    if truthy (backgroundColor style)
       && negb (JsString.eqb (backgroundColor style) transparent_black)
    then backgroundColor style
    else
      match parentElement current with
      | Some parent => background_walk frame root parent
      | None => default_background
      end.

(** [getEffectiveBackground(el, frame)] *)
Definition getEffectiveBackground (el : Element) (frame : Frame) : jsstring :=
  background_walk frame (documentElement (contentDocument frame)) el.

Section Engine.

(** The approximation of [base ** exponent] that [Math.pow] returns for a
    finite non-zero base and a finite non-zero exponent.  It is a rational:
    the overflow of [Math.pow] to [Infinity] on a huge base (from about
    [1e129] for the exponent 2.4) is not represented, so a statement that
    needs the result to be finite is made for colour channels from 0 to
    255. *)
Variable pow_approx : Qc -> Qc -> Qc.

Definition is_integer (q : Qc) : bool := (Qden (this q) =? 1)%positive.
Definition is_odd_integer (q : Qc) : bool :=
  is_integer q && Z.odd (Qnum (this q)).
Definition Qcabs (q : Qc) : Qc := if Qcltb q 0 then (- q)%Qc else q.

(** [Math.pow(base, exponent)], after [Number::exponentiate]. *)
Definition Math_pow (base exponent : number) : number :=
  match exponent, base with
  | NaN, _ => NaN
  | Num e, _ =>
      if Qceqb e 0 then lit 1
      else
        match base with
        | NaN => NaN
        | PosInf => if Qcltb 0 e then PosInf else lit 0
        | NegInf =>
            if Qcltb 0 e then (if is_odd_integer e then NegInf else PosInf)
            else lit 0
        | Num x =>
            if Qceqb x 0 then (if Qcltb 0 e then lit 0 else PosInf)
            else if Qcltb x 0 && negb (is_integer e) then NaN
            else Num (pow_approx x e)
        end
  | PosInf, NaN | NegInf, NaN => NaN
  | PosInf, (PosInf | NegInf) => PosInf
  | NegInf, (PosInf | NegInf) => lit 0
  | PosInf, Num x =>
      if Qceqb x 0 then lit 0
      else if Qcltb 1 (Qcabs x) then PosInf
      else if Qceqb (Qcabs x) 1 then NaN
      else lit 0
  | NegInf, Num x =>
      if Qceqb x 0 then PosInf
      else if Qcltb 1 (Qcabs x) then lit 0
      else if Qceqb (Qcabs x) 1 then NaN
      else PosInf
  end.

(** The linearisation of one sRGB channel in [relativeLuminance]. *)
Definition linearize (csrgb : number) : number :=
  if le csrgb (lit 0.03928) then div csrgb (lit 12.92)
  else Math_pow (div (add csrgb (lit 0.055)) (lit 1.055)) (lit 2.4).

(** [relativeLuminance(r, g, b)] *)
Definition relativeLuminance (r g b : number) : number :=
  let rsrgb := div r (lit 255) in
  let gsrgb := div g (lit 255) in
  let bsrgb := div b (lit 255) in
  let rLin := linearize rsrgb in
  let gLin := linearize gsrgb in
  let bLin := linearize bsrgb in
  add (add (mul (lit 0.2126) rLin) (mul (lit 0.7152) gLin))
      (mul (lit 0.0722) bLin).

(** [computeContrastRatio(fgColor, bgColor)] *)
Definition computeContrastRatio (fgColor bgColor : jsstring) : number :=
  match parseCssColor fgColor, parseCssColor bgColor with
  | Some fg, Some bg =>
      let lum1 := relativeLuminance (r fg) (g fg) (b fg) in
      let lum2 := relativeLuminance (r bg) (g bg) (b bg) in
      let lighter := Math_max lum1 lum2 in
      let darker := Math_min lum1 lum2 in
      div (add lighter (lit 0.05)) (add darker (lit 0.05))
  | _, _ => lit (-1)
  end.

(** The local variables of [analyzeDocument] that the five checks update. *)
Record Locals : Type := mkLocals {
  l_issues : list Issue;
  l_summary : list jsstring;
  totalScore : Z;
  metricsCount : nat
}.

Definition initial_locals : Locals :=
  {| l_issues := []; l_summary := []; totalScore := 0; metricsCount := 0 |}.

(** ** 1. Alt text check *)

(** The [forEach] over the images: [missingAlt]. *)
Definition count_missing_alt (imgElements : list Element) : nat :=
  fold_left
    (fun missingAlt img =>
       let alt := trim (or_empty (getAttribute img (str "alt"))) in
       if negb (truthy alt) then S missingAlt else missingAlt)
    imgElements 0%nat.

(** [altScore] *)
Definition alt_score (totalImgs missingAlt : nat) : Z :=
  if (0 <? totalImgs)%nat then
    let ratio := div (of_nat missingAlt) (of_nat totalImgs) in
    if gt ratio (lit 0.5) then 30
    else if gt ratio (lit 0.2) then 60
    else 90
  else 100.

Definition check_alt (doc : Document) (st : Locals) : Locals :=
  let imgElements := getElementsByTagName doc (str "img") in
  let totalImgs := List.length imgElements in
  let missingAlt := count_missing_alt imgElements in
  let altScore := alt_score totalImgs missingAlt in
  {| l_issues :=
       addIssue (l_issues st)
         (if (0 <? missingAlt)%nat then critical else ok)
         (if (0 <? missingAlt)%nat
          then str "Found " ++ decimal missingAlt
               ++ str " image(s) without descriptive alt text out of "
               ++ decimal totalImgs ++ str " images."
          else str "All images appear to have alt text.");
     l_summary :=
       l_summary st ++
       [ if (totalImgs =? 0)%nat
         then str "No images detected."
         else decimal missingAlt ++ str " of " ++ decimal totalImgs
              ++ str " images are missing alt text (affects screen reader users)." ];
     totalScore := totalScore st + altScore;
     metricsCount := S (metricsCount st) |}.

(** ** 2. Heading structure check *)

Definition heading_names : list jsstring :=
  map str ["h1"; "h2"; "h3"; "h4"; "h5"; "h6"]%string.

(** [parseInt(h.tagName.slice(1), 10)] *)
Definition heading_level (h : Element) : number :=
  parseInt (slice 1 (tagName h)).

(** One step of the [forEach] over the headings, on [(jumps, lastLevel)]. *)
Definition jump_step (acc : nat * option number) (h : Element)
  : nat * option number :=
  let (jumps, lastLevel) := acc in
  let level := heading_level h in
  (match lastLevel with
   | Some last => if gt (sub level last) (lit 1) then S jumps else jumps
   | None => jumps
   end,
   Some level).

(** [jumps] after the [forEach]. *)
Definition count_jumps (headingTags : list Element) : nat :=
  fst (fold_left jump_step headingTags (0%nat, None)).

(** [headingScore] *)
Definition heading_score (headingTags : list Element) : Z :=
  if (List.length headingTags =? 0)%nat then 50
  else if (0 <? count_jumps headingTags)%nat then 70
  else 100.

Definition check_heading (doc : Document) (st : Locals) : Locals :=
  let headingTags := querySelectorAll doc heading_names in
  let headingScore := heading_score headingTags in
  {| l_issues :=
       if (List.length headingTags =? 0)%nat then
         addIssue (l_issues st) warning
           (str "No heading tags (h1" ++ [8211%N]
            ++ str "h6) were found. Consider using headings to structure content.")
       else
         let jumps := count_jumps headingTags in
         if (0 <? jumps)%nat then
           addIssue (l_issues st) warning
             (str "Detected " ++ decimal jumps
              ++ str " jump(s) in heading levels (e.g., h1 " ++ [8594%N]
              ++ str " h3). Consistent heading hierarchy improves navigation.")
         else
           addIssue (l_issues st) ok
             (str "Heading levels appear to follow a consistent hierarchy.");
     l_summary :=
       l_summary st ++
       [ if (List.length headingTags =? 0)%nat
         then str "No headings used; consider adding h1" ++ [8211%N]
              ++ str "h3 to organize the page."
         else str "Found " ++ decimal (List.length headingTags)
              ++ str " heading(s); structure is mostly valid." ];
     totalScore := totalScore st + headingScore;
     metricsCount := S (metricsCount st) |}.

(** ** 3. Font size check *)

Definition text_names : list jsstring :=
  map str ["p"; "li"; "a"; "span"; "button"]%string.

(** [smallTextCount] after the [forEach]. *)
Definition count_small_text (frame : Frame) (textNodes : list Element) : nat :=
  fold_left
    (fun smallTextCount el =>
       let style := getComputedStyle frame el in
       let fontSizePx := parseFloat (fontSize style) in
       if negb (isNaN fontSizePx) && lt fontSizePx (lit 12)
       then S smallTextCount else smallTextCount)
    textNodes 0%nat.

(** [fontScore] *)
Definition font_score (nodes smallTextCount : nat) : Z :=
  if (0 <? smallTextCount)%nat then
    if gt (of_nat smallTextCount) (mul (of_nat nodes) (lit 0.3))
    then 60 else 80
  else 100.

Definition check_font (doc : Document) (frame : Frame) (st : Locals)
  : Locals :=
  let textNodes := querySelectorAll doc text_names in
  let smallTextCount := count_small_text frame textNodes in
  let fontScore := font_score (List.length textNodes) smallTextCount in
  {| l_issues :=
       if (0 <? smallTextCount)%nat then
         addIssue (l_issues st) warning
           (decimal smallTextCount
            ++ str " text element(s) appear to use very small font sizes (< 12px). Consider increasing for readability.")
       else
         addIssue (l_issues st) ok
           (str "Font sizes for common text elements appear reasonably readable.");
     l_summary :=
       l_summary st ++
       [ if (smallTextCount =? 0)%nat
         then str "Font sizes look readable for most standard text elements."
         else str "Some text uses very small font sizes, which may reduce readability." ];
     totalScore := totalScore st + fontScore;
     metricsCount := S (metricsCount st) |}.

(** ** 4. Colour contrast check *)

Definition contrast_names : list jsstring :=
  map str ["p"; "h1"; "h2"; "h3"; "h4"; "h5"; "h6"; "button"; "a"]%string.

(** [bg]: the background the contrast of an element is computed against. *)
Definition resolved_background (frame : Frame) (el : Element) : jsstring :=
  let style := getComputedStyle frame el in
  if JsString.eqb (backgroundColor style) transparent_black
  then getEffectiveBackground el frame
  else backgroundColor style.

(** [contrastRatio]: the contrast ratio computed for one element. *)
Definition element_contrast (frame : Frame) (el : Element) : number :=
  let style := getComputedStyle frame el in
  let fg := color style in
  let bg := resolved_background frame el in
  computeContrastRatio fg bg.

(** [lowContrastCount] after the [forEach]. *)
Definition count_low_contrast (frame : Frame) (contrastTargets : list Element)
  : nat :=
  fold_left
    (fun lowContrastCount el =>
       let contrastRatio := element_contrast frame el in
       if gt contrastRatio (lit 0) && lt contrastRatio (lit 4.5)
       then S lowContrastCount else lowContrastCount)
    contrastTargets 0%nat.

(** [contrastScore] *)
Definition contrast_score (targets lowContrastCount : nat) : Z :=
  if (0 <? lowContrastCount)%nat then
    if gt (of_nat lowContrastCount) (mul (of_nat targets) (lit 0.2))
    then 55 else 75
  else 100.

Definition check_contrast (doc : Document) (frame : Frame) (st : Locals)
  : Locals :=
  let contrastTargets := querySelectorAll doc contrast_names in
  let lowContrastCount := count_low_contrast frame contrastTargets in
  let contrastScore :=
    contrast_score (List.length contrastTargets) lowContrastCount in
  {| l_issues :=
       if (0 <? lowContrastCount)%nat then
         addIssue (l_issues st) critical
           (decimal lowContrastCount
            ++ str " text element(s) may have low color contrast (contrast ratio < 4.5). This can be hard to read for many users.")
       else
         addIssue (l_issues st) ok
           (str "No obvious low-contrast text detected in common elements.");
     l_summary :=
       l_summary st ++
       [ if (lowContrastCount =? 0)%nat
         then str "Text contrast appears sufficient for most common elements."
         else str "Some text elements may fail contrast guidelines; consider adjusting colors." ];
     totalScore := totalScore st + contrastScore;
     metricsCount := S (metricsCount st) |}.

(** ** 5. Responsiveness check *)

(** [hasHorizontalScroll] *)
Definition hasHorizontalScroll (doc : Document) : bool :=
  let docEl := documentElement doc in
  scrollWidth docEl >? clientWidth docEl + 5.

(** [responsiveScore] *)
Definition responsive_score (doc : Document) : Z :=
  if hasHorizontalScroll doc then 65 else 100.

Definition check_responsive (doc : Document) (st : Locals) : Locals :=
  let responsiveScore := responsive_score doc in
  {| l_issues :=
       if hasHorizontalScroll doc then
         addIssue (l_issues st) warning
           (str "The layout appears to cause horizontal scrolling at a mobile width (~375px). This may indicate poor responsiveness.")
       else
         addIssue (l_issues st) ok
           (str "No horizontal scrolling detected at a simulated mobile width. Layout seems reasonably responsive.");
     l_summary :=
       l_summary st ++
       [ if hasHorizontalScroll doc
         then str "Some elements overflow horizontally on mobile; review your responsive design."
         else str "Layout adapts reasonably well to a mobile viewport width." ];
     totalScore := totalScore st + responsiveScore;
     metricsCount := S (metricsCount st) |}.

(** ** The five sub-scores of a document *)

Definition sub_alt (doc : Document) : Z :=
  let imgElements := getElementsByTagName doc (str "img") in
  alt_score (List.length imgElements) (count_missing_alt imgElements).

Definition sub_heading (doc : Document) : Z :=
  heading_score (querySelectorAll doc heading_names).

Definition sub_font (doc : Document) (frame : Frame) : Z :=
  let textNodes := querySelectorAll doc text_names in
  font_score (List.length textNodes) (count_small_text frame textNodes).

Definition sub_contrast (doc : Document) (frame : Frame) : Z :=
  let contrastTargets := querySelectorAll doc contrast_names in
  contrast_score (List.length contrastTargets)
                 (count_low_contrast frame contrastTargets).

Definition sub_responsive (doc : Document) : Z := responsive_score doc.

Definition subScores (doc : Document) (frame : Frame) : list Z :=
  [sub_alt doc; sub_heading doc; sub_font doc frame;
   sub_contrast doc frame; sub_responsive doc].

(** ** The whole analysis *)

(** The locals after the five checks. *)
Definition final_locals (doc : Document) (frame : Frame) : Locals :=
  check_responsive doc
    (check_contrast doc frame
       (check_font doc frame (check_heading doc (check_alt doc initial_locals)))).

(** [analyzeDocument(doc, frame)] *)
Definition analyzeDocument (doc : Document) (frame : Frame) : AnalysisResult :=
  let st := check_alt doc initial_locals in
  let st := check_heading doc st in
  let st := check_font doc frame st in
  let st := check_contrast doc frame st in
  let st := check_responsive doc st in
  {| finalScore :=
       Math_round (div (of_Z (totalScore st)) (of_nat (metricsCount st)));
     issues := l_issues st;
     summary := l_summary st |}.

End Engine.

(* ================================================================== *)
(** * The page: event handlers and the rendering of a result

    The page is the part of the browser state that [script.js] reads and
    writes: the status line, the [srcdoc] of the preview frame, the result
    panel, the global [scoreChart] and the charts that were created and not
    destroyed.  An asynchronous step (reading a file, loading the frame) is
    an event; each handler is a function from the page to the page. *)

(** [x >= y] *)
Definition ge (x y : number) : bool := le y x.

(** The configuration object given to [new Chart]. *)
Record ChartConfig : Type := mkChartConfig {
  chartType : jsstring;
  chartLabels : list jsstring;
  chartData : list number;
  chartColors : list jsstring;
  chartBorderWidth : number;
  chartCutout : jsstring;
  chartLegendDisplay : bool
}.

(** One [li] of the issue list: its classes, the classes and the text of
    its badge, the classes and the text of its text span. *)
Record IssueItem : Type := mkIssueItem {
  itemClasses : list jsstring;
  badgeClasses : list jsstring;
  badgeText : jsstring;
  textClasses : list jsstring;
  issueText : jsstring
}.

Record Page : Type := mkPage {
  statusMessage : jsstring;
  srcdoc : jsstring;
  resultsHidden : bool;
  scoreValue : jsstring;
  scoreLabel : jsstring;
  summaryList : list jsstring;
  issuesList : list IssueItem;
  scoreChart : option nat;
  liveCharts : list (nat * ChartConfig);
  chartsCreated : nat
}.

(** A page on which nothing has been analysed: [scoreChart] is [null], as
    the script declares it, no chart exists, and the result panel is empty
    and hidden. *)
Definition initial_page : Page :=
  {| statusMessage := []; srcdoc := []; resultsHidden := true;
     scoreValue := []; scoreLabel := []; summaryList := []; issuesList := [];
     scoreChart := None; liveCharts := []; chartsCreated := 0 |}.

Definition set_status (msg : jsstring) (pg : Page) : Page :=
  {| statusMessage := msg; srcdoc := srcdoc pg;
     resultsHidden := resultsHidden pg;
     scoreValue := scoreValue pg; scoreLabel := scoreLabel pg;
     summaryList := summaryList pg; issuesList := issuesList pg;
     scoreChart := scoreChart pg; liveCharts := liveCharts pg;
     chartsCreated := chartsCreated pg |}.

(** [chart.destroy()]: the chart is no longer live. *)
Definition destroy_chart (id : nat) (charts : list (nat * ChartConfig))
  : list (nat * ChartConfig) :=
  filter (fun c => negb (Nat.eqb (fst c) id)) charts.

(** The configuration of the score chart. *)
Definition score_chart_config (score : number) : ChartConfig :=
  {| chartType := str "doughnut";
     chartLabels := [str "Score"; str "Remaining"];
     chartData := [score; sub (lit 100) score];
     chartColors := [str "#2563eb"; str "#dbeafe"];
     chartBorderWidth := lit 0;
     chartCutout := str "65%";
     chartLegendDisplay := false |}.

(** [renderScoreChart(score)] *)
Definition renderScoreChart (score : number) (pg : Page) : Page :=
  let live :=
    match scoreChart pg with
    | Some old => destroy_chart old (liveCharts pg)
    | None => liveCharts pg
    end in
  let id := chartsCreated pg in
  {| statusMessage := statusMessage pg; srcdoc := srcdoc pg;
     resultsHidden := resultsHidden pg;
     scoreValue := scoreValue pg; scoreLabel := scoreLabel pg;
     summaryList := summaryList pg; issuesList := issuesList pg;
     scoreChart := Some id;
     liveCharts := live ++ [(id, score_chart_config score)];
     chartsCreated := S id |}.

(** [label] in [renderResults] *)
Definition score_label (finalScore : number) : jsstring :=
  if ge finalScore (lit 85) then str "Excellent accessibility & usability"
  else if ge finalScore (lit 70) then str "Good, but with room to improve"
  else if ge finalScore (lit 50) then str "Fair, consider fixing key issues"
  else str "Needs improvement".

(** The [li] built for one issue. *)
Definition issue_item (issue : Issue) : IssueItem :=
  let (classes, txt) :=
    match severity issue with
    | critical => ([str "badge"; str "badge-critical"], str "CRITICAL")
    | warning => ([str "badge"; str "badge-warning"], str "WARN")
    | ok => ([str "badge"; str "badge-ok"], str "OK")
    end in
  {| itemClasses := [str "issue-item"];
     badgeClasses := classes;
     badgeText := txt;
     textClasses := [str "issue-text"];
     issueText := text issue |}.

Section PageHandlers.

(** [pow_approx] is the approximation of [Math.pow], as in the engine.
    [fraction_digits] is [Number.prototype.toString] on the finite numbers
    that are not integers below [10^21] in absolute value: their digits are
    those of the binary64 value, which the model does not represent. *)
Variable pow_approx : Qc -> Qc -> Qc.
Variable fraction_digits : Qc -> jsstring.

(** [x.toString()] *)
Definition Number_toString (x : number) : jsstring :=
  match x with
  | NaN => str "NaN"
  | PosInf => str "Infinity"
  | NegInf => str "-Infinity"
  | Num q =>
      let z := Qnum (this q) in
      if is_integer q && (Z.abs z <? 10 ^ 21) then
        if z <? 0 then ch "-" :: decimal (Z.to_nat (Z.abs z))
        else decimal (Z.to_nat z)
      else fraction_digits q
  end.

(** [renderResults(analysis)] *)
Definition renderResults (analysis : AnalysisResult) (pg : Page) : Page :=
  let summaryItems :=
    fold_left (fun list item => list ++ [item]) (summary analysis) [] in
  let issueItems :=
    fold_left (fun list issue => list ++ [issue_item issue])
              (issues analysis) [] in
  renderScoreChart (finalScore analysis)
    {| statusMessage := statusMessage pg; srcdoc := srcdoc pg;
       resultsHidden := false;
       scoreValue := Number_toString (finalScore analysis);
       scoreLabel := score_label (finalScore analysis);
       summaryList := summaryItems;
       issuesList := issueItems;
       scoreChart := scoreChart pg; liveCharts := liveCharts pg;
       chartsCreated := chartsCreated pg |}.

(** [runAnalysis(htmlString)], up to the point where the frame loads. *)
Definition runAnalysis (htmlString : jsstring) (pg : Page) : Page :=
  {| statusMessage := str "Analyzing..."; srcdoc := htmlString;
     resultsHidden := resultsHidden pg;
     scoreValue := scoreValue pg; scoreLabel := scoreLabel pg;
     summaryList := summaryList pg; issuesList := issuesList pg;
     scoreChart := scoreChart pg; liveCharts := liveCharts pg;
     chartsCreated := chartsCreated pg |}.

(** [previewFrame.onload]: [doc] is the document the frame gives access
    to, [None] when it gives none. *)
Definition frame_onload (doc : option Document) (frame : Frame) (pg : Page)
  : Page :=
  match doc with
  | None => set_status (str "Unable to load document for analysis.") pg
  | Some doc =>
      let analysis := analyzeDocument pow_approx doc frame in
      set_status (str "Analysis completed.") (renderResults analysis pg)
  end.

(** The files of the file input are of an arbitrary type: the handlers only
    test whether there is one and hand it to the reader. *)
Variable File : Type.

(** The click handler of the Analyze button.  [file] is
    [fileInput.files[0]] and [value] is [htmlInput.value]; the second
    component is the file whose reading was started, if any. *)
Definition analyze_click (file : option File) (value : jsstring) (pg : Page)
  : Page * option File :=
  let pg := set_status [] pg in
  let pastedHtml := trim value in
  match file with
  | None =>
      if negb (truthy pastedHtml)
      then (set_status
              (str "Please upload an HTML file or paste some HTML.") pg,
            None)
      else (runAnalysis pastedHtml pg, None)
  | Some f => (pg, Some f)
  end.

(** [reader.onload] and [reader.onerror] *)
Definition reader_onload (result : jsstring) (pg : Page) : Page :=
  runAnalysis result pg.

Definition reader_onerror (pg : Page) : Page :=
  set_status (str "Error reading file.") pg.

(** What can happen to the page. *)
Inductive Event : Type :=
| Click (file : option File) (value : jsstring)
| ReaderLoad (result : jsstring)
| ReaderError
| FrameLoad (doc : option Document) (frame : Frame).

Definition handle (pg : Page) (e : Event) : Page :=
  match e with
  | Click file value => fst (analyze_click file value pg)
  | ReaderLoad result => reader_onload result pg
  | ReaderError => reader_onerror pg
  | FrameLoad doc frame => frame_onload doc frame pg
  end.

(** The page after a sequence of events, from the initial page. *)
Definition page_after (events : list Event) : Page :=
  fold_left handle events initial_page.

End PageHandlers.

(* ================================================================== *)
(** * Specification-side notions *)

(** The mean of a list of integer scores, rounded to the nearest integer,
    a half rounding up. *)
Definition rounded_mean (scores : list Z) : Z :=
  Qfloor (inject_Z (fold_right Z.add 0%Z scores)
          / inject_Z (Z.of_nat (List.length scores)) + (1 # 2))%Q.

(** The severity each check reports, as a function of what it counted. *)
Definition alt_severity (missingAlt : nat) : Severity :=
  if (0 <? missingAlt)%nat then critical else ok.

Definition heading_severity (headingTags : list Element) : Severity :=
  if (List.length headingTags =? 0)%nat then warning
  else if (0 <? count_jumps headingTags)%nat then warning
  else ok.

Definition font_severity (smallTextCount : nat) : Severity :=
  if (0 <? smallTextCount)%nat then warning else ok.

Definition contrast_severity (lowContrastCount : nat) : Severity :=
  if (0 <? lowContrastCount)%nat then critical else ok.

Definition responsive_severity (doc : Document) : Severity :=
  if hasHorizontalScroll doc then warning else ok.

(** The severity of the [n]-th issue of a result, counted from [0]. *)
Definition issue_severity (res : AnalysisResult) (n : nat) : option Severity :=
  option_map severity (nth_error (issues res) n).

(** An image lacks alt text: its [alt] attribute is absent, or empty once
    trimmed. *)
Definition lacks_alt (img : Element) : bool :=
  match getAttribute img (str "alt") with
  | None => true
  | Some v => negb (truthy (trim v))
  end.

(** The level of a heading element: [n] for [hn]. *)
Definition heading_rank (h : Element) : Z :=
  if JsString.eqb (localName h) (str "h1") then 1
  else if JsString.eqb (localName h) (str "h2") then 2
  else if JsString.eqb (localName h) (str "h3") then 3
  else if JsString.eqb (localName h) (str "h4") then 4
  else if JsString.eqb (localName h) (str "h5") then 5
  else if JsString.eqb (localName h) (str "h6") then 6
  else 0.

(** The elements that the heading selector matches. *)
Definition is_heading (h : Element) : Prop := In (localName h) heading_names.

(** A sequence of heading levels in which no level exceeds the one before
    it by more than one. *)
Fixpoint gentle (levels : list Z) : bool :=
  match levels with
  | a :: ((b :: _) as rest) => (b <=? a + 1) && gentle rest
  | _ => true
  end.

(** The number of places in a sequence of heading levels where a level
    exceeds the one before it by more than one. *)
Fixpoint rank_jumps (levels : list Z) : nat :=
  match levels with
  | a :: ((b :: _) as rest) =>
      if b <=? a + 1 then rank_jumps rest else S (rank_jumps rest)
  | _ => 0%nat
  end.

(** The alpha channel of a colour written [rgba(r, g, b, a)]. *)
Definition alpha_channel (s : jsstring) : option number :=
  match s with
  | c1 :: c2 :: c3 :: c4 :: c5 :: s0 =>
      if ci "R" c1 && ci "G" c2 && ci "B" c3 && ci "A" c4
         && (c5 =? ch "(")%N
      then
        '(_, s1) <- ws_run s0 ;;
        's2 <- ws_comma s1 ;;
        '(_, s3) <- ws_run s2 ;;
        's4 <- ws_comma s3 ;;
        '(_, s5) <- ws_run s4 ;;
        's6 <- ws_comma s5 ;;
        '(a, _) <- ws_run s6 ;;
        Some (parseFloat a)
      else None
  | _ => None
  end.

(** A colour that is fully transparent: the keyword [transparent], or an
    [rgba] colour whose alpha channel is zero. *)
Definition fully_transparent (s : jsstring) : bool :=
  JsString.eqb s (str "transparent")
  || match alpha_channel s with
     | Some (Num a) => Qceqb a 0
     | _ => false
     end.

(** The effective background as the specification words it: the background
    of the first node of the ancestor chain, below the root, that is not
    fully transparent, and [rgb(255,255,255)] when there is none. *)
Fixpoint effectiveBackground_spec (frame : Frame) (root current : Element)
  : jsstring :=
  if same_node current root then str "rgb(255,255,255)"
  else
    let bg := backgroundColor (getComputedStyle frame current) in
    if negb (fully_transparent bg) then bg
    else
      match parentElement current with
      | Some parent => effectiveBackground_spec frame root parent
      | None => str "rgb(255,255,255)"
      end.

(** The nodes that [getEffectiveBackground] inspects: the element and its
    ancestors, up to the root excluded. *)
Fixpoint chain_below (root current : Element) : list Element :=
  if same_node current root then []
  else
    current ::
    match parentElement current with
    | Some parent => chain_below root parent
    | None => []
    end.

(** The test [getEffectiveBackground] applies to a background. *)
Definition usable_background (bg : jsstring) : bool :=
  truthy bg && negb (JsString.eqb bg transparent_black).

(** A number that is finite and not negative. *)
Definition finite_nonneg (x : number) : Prop :=
  exists q, x = Num q /\ (0 <= q)%Qc.

(** A number that is finite and positive. *)
Definition finite_pos (x : number) : Prop :=
  exists q, x = Num q /\ (0 < q)%Qc.

(** [(max(lum) + 0.05) / (min(lum) + 0.05)] on two luminances. *)
Definition ratio_of (lum1 lum2 : number) : number :=
  div (add (Math_max lum1 lum2) (lit 0.05))
      (add (Math_min lum1 lum2) (lit 0.05)).

(** A number that is [NaN], or finite and not negative. *)
Definition nan_or_nonneg (x : number) : Prop :=
  x = NaN \/ finite_nonneg x.

(** A number that is [NaN], or finite and positive. *)
Definition nan_or_pos (x : number) : Prop :=
  x = NaN \/ finite_pos x.

(** A colour channel in the range of the data model: a number from 0 to
    255.  On such channels nothing in [relativeLuminance] comes near the
    limits of binary64. *)
Definition in_channel_range (x : number) : Prop :=
  exists q, x = Num q /\ (0 <= q)%Qc /\ (q <= Q2Qc 255)%Qc.

(** A colour whose three channels are in that range. *)
Definition rgb_in_range (c : RGBColor) : Prop :=
  in_channel_range (r c) /\ in_channel_range (g c) /\ in_channel_range (b c).

(** The test of the contrast check on one element. *)
Definition is_low_contrast (pow_approx : Qc -> Qc -> Qc) (frame : Frame)
  (el : Element) : bool :=
  gt (element_contrast pow_approx frame el) (lit 0)
  && lt (element_contrast pow_approx frame el) (lit 4.5).

(** The test of the font size check on one element. *)
Definition is_small_text (frame : Frame) (el : Element) : bool :=
  negb (isNaN (parseFloat (fontSize (getComputedStyle frame el))))
  && lt (parseFloat (fontSize (getComputedStyle frame el))) (lit 12).

(** ** The texts [parseCssColor] is specified on *)

(** Optional white space. *)
Definition spaces (w : jsstring) : Prop := forallb is_space w = true.

(** A non-empty run of digits and dots: a colour channel as written. *)
Definition number_run (m : jsstring) : Prop :=
  m <> [] /\ forallb is_digit_or_dot m = true.

(** [rgb] or [rgba], in any letter case. *)
Definition keyword (k : jsstring) : Prop :=
  toUpperCase k = str "RGB" \/ toUpperCase k = str "RGBA".

(** [s] contains a text that the pattern matches: somewhere in [s], a
    keyword, an opening parenthesis and three channels separated by commas,
    with optional white space around the channels. *)
Definition contains_pattern (s : jsstring) : Prop :=
  exists pre k w0 m1 w1 w2 m2 w3 w4 m3 post,
    keyword k
    /\ (spaces w0 /\ spaces w1 /\ spaces w2 /\ spaces w3 /\ spaces w4)
    /\ (number_run m1 /\ number_run m2 /\ number_run m3)
    /\ s = pre ++ k ++ ch "(" :: w0 ++ m1 ++ w1 ++ ch "," :: w2 ++ m2 ++ w3
             ++ ch "," :: w4 ++ m3 ++ post.

(** The textual form [rgb(r,g,b)]. *)
Definition rgb_form (s : jsstring) : Prop :=
  exists w0 m1 w1 w2 m2 w3 w4 m3 w5,
    (spaces w0 /\ spaces w1 /\ spaces w2 /\ spaces w3 /\ spaces w4
     /\ spaces w5)
    /\ (number_run m1 /\ number_run m2 /\ number_run m3)
    /\ s = str "rgb" ++ ch "(" :: w0 ++ m1 ++ w1 ++ ch "," :: w2 ++ m2 ++ w3
             ++ ch "," :: w4 ++ m3 ++ w5 ++ [ch ")"].

(** The textual form [rgba(r,g,b,a)]. *)
Definition rgba_form (s : jsstring) : Prop :=
  exists w0 m1 w1 w2 m2 w3 w4 m3 w5 w6 m4 w7,
    (spaces w0 /\ spaces w1 /\ spaces w2 /\ spaces w3 /\ spaces w4
     /\ spaces w5 /\ spaces w6 /\ spaces w7)
    /\ (number_run m1 /\ number_run m2 /\ number_run m3 /\ number_run m4)
    /\ s = str "rgba" ++ ch "(" :: w0 ++ m1 ++ w1 ++ ch "," :: w2 ++ m2 ++ w3
             ++ ch "," :: w4 ++ m3 ++ w5 ++ ch "," :: w6 ++ m4 ++ w7
             ++ [ch ")"].

(** [s] does not start with a code unit satisfying [p]. *)
Definition starts_outside (p : code_unit -> bool) (s : jsstring) : Prop :=
  match s with
  | [] => True
  | c :: _ => p c = false
  end.

(** ** Elements the analysis looks at *)

(** The element names that one of the five checks selects. *)
Definition relevant_names : list jsstring :=
  str "img" :: heading_names ++ text_names ++ contrast_names.

Definition is_relevant (el : Element) : bool :=
  existsb (JsString.eqb (localName el)) relevant_names.

(** The elements of a document that some check selects, in document
    order.  They are the nodes themselves: each keeps its parent, and with
    it its ancestors. *)
Definition selected_elements (doc : Document) : list Element :=
  filter is_relevant (elements doc).

(** The computed colour [rgb(r, g, b)] as a browser writes it. *)
Definition css_rgb (r g b : nat) : jsstring :=
  str "rgb(" ++ decimal r ++ str ", " ++ decimal g ++ str ", " ++ decimal b
  ++ str ")".

(** What may follow a decimal integer without being read with it. *)
Definition ends_number (tail : jsstring) : Prop :=
  match tail with
  | [] => True
  | c :: _ =>
      is_digit c = false /\ c <> ch "." /\ c <> ch "e" /\ c <> ch "E"
  end.

(** ** The page *)

(** At most one chart is live, and it is the one [scoreChart] refers to;
    once there is one, the result panel is shown. *)
Definition one_chart (pg : Page) : Prop :=
  match scoreChart pg with
  | None => liveCharts pg = []
  | Some id =>
      (exists cfg, liveCharts pg = [(id, cfg)])
      /\ resultsHidden pg = false /\ (id < chartsCreated pg)%nat
  end.

(** The label shown for an integer score. *)
Definition label_of (score : Z) : jsstring :=
  if 85 <=? score then str "Excellent accessibility & usability"
  else if 70 <=? score then str "Good, but with room to improve"
  else str "Fair, consider fixing key issues".

(** The badge text of a severity. *)
Definition badge_of (sev : Severity) : jsstring :=
  match sev with
  | critical => str "CRITICAL"
  | warning => str "WARN"
  | ok => str "OK"
  end.

(* ================================================================== *)
(** * Example documents *)

Module Examples.

Definition black : jsstring := str "rgb(0, 0, 0)".
Definition white : jsstring := str "rgb(255, 255, 255)".

(** A root element [html] of client width [375] and the given scroll
    width, and a [body] below it. *)
Definition html (scroll : Z) : Element :=
  mkElement 0 (str "html") [] scroll 375 None.
Definition body (scroll : Z) : Element :=
  mkElement 1 (str "body") [] 0 0 (Some (html scroll)).

(** An element of [body] with the given identity, name and attributes. *)
Definition child (scroll : Z) (id : nat) (name : string)
  (attrs : list (jsstring * jsstring)) : Element :=
  mkElement id (str name) attrs 0 0 (Some (body scroll)).

(** The worst document: one image without [alt], no heading, one paragraph
    in 10px black on black, and a page 25px wider than its window. *)
Definition worst_img : Element := child 400 2 "img" [].
Definition worst_p : Element := child 400 3 "p" [].
Definition worst_doc : Document :=
  mkDocument [html 400; body 400; worst_img; worst_p] (html 400).
Definition worst_frame : Frame :=
  mkFrame worst_doc
    (fun el =>
       if Nat.eqb (nodeId el) 3 then mkStyle (str "10px") black black
       else mkStyle (str "16px") black transparent_black).

(** A document without any heading. *)
Definition plain_doc : Document := mkDocument [html 375; body 375] (html 375).

(** A paragraph with a transparent background, in a [div] whose background
    is a fully transparent red, in a black [body]. *)
Definition veil_div : Element := child 375 2 "div" [].
Definition veil_p : Element :=
  mkElement 3 (str "p") [] 0 0 (Some veil_div).
Definition veil_doc : Document :=
  mkDocument [html 375; body 375; veil_div; veil_p] (html 375).
Definition veil_frame : Frame :=
  mkFrame veil_doc
    (fun el =>
       if Nat.eqb (nodeId el) 2
       then mkStyle (str "16px") white (str "rgba(255, 0, 0, 0)")
       else if Nat.eqb (nodeId el) 1
       then mkStyle (str "16px") white black
       else mkStyle (str "16px") white transparent_black).

(** A document whose headings are h1, h2, h2, h3, h1, in this order. *)
Definition outline_doc : Document :=
  mkDocument
    [html 375; body 375; child 375 2 "h1" []; child 375 3 "h2" [];
     child 375 4 "p" []; child 375 5 "h2" []; child 375 6 "h3" [];
     child 375 7 "h1" []]
    (html 375).

(** A coarse stand-in for [Math.pow]: the square of the base, whatever the
    exponent.  It is [1] at [1] and never negative. *)
Definition coarse_pow (x e : Qc) : Qc := (x * x)%Qc.

(** Scenario A: ten images of which six lack alt text (three without the
    attribute, two with an empty one, one with a blank one), no heading,
    text in 16px black on a white body, and no horizontal overflow. *)
Definition scenario_elements : list Element :=
  [ html 375; body 375;
    child 375 2 "img" [(str "alt", str "logo")];
    child 375 3 "img" [(str "src", str "a.png")];
    child 375 4 "img" [];
    child 375 5 "img" [(str "alt", [])];
    child 375 6 "img" [(str "alt", str "chart of sales")];
    child 375 7 "img" [(str "alt", str "   ")];
    child 375 8 "img" [(str "alt", [])];
    child 375 9 "img" [(str "alt", str "team")];
    child 375 10 "img" [];
    child 375 11 "img" [(str "alt", str "map")];
    child 375 12 "p" [];
    child 375 13 "a" [];
    child 375 14 "button" [];
    child 375 15 "span" [] ].
Definition scenario_doc : Document := mkDocument scenario_elements (html 375).
Definition scenario_frame : Frame :=
  mkFrame scenario_doc
    (fun el =>
       if Nat.eqb (nodeId el) 1 || Nat.eqb (nodeId el) 14
       then mkStyle (str "16px") black white
       else mkStyle (str "16px") black transparent_black).

(** The same five elements in two orders: headings h1, h2, h3 and
    headings h1, h3, h2. *)
Definition ordered_doc : Document :=
  mkDocument
    [html 375; body 375; child 375 2 "h1" []; child 375 3 "h2" [];
     child 375 4 "h3" []]
    (html 375).
Definition shuffled_doc : Document :=
  mkDocument
    [html 375; body 375; child 375 2 "h1" []; child 375 4 "h3" [];
     child 375 3 "h2" []]
    (html 375).

(** A paragraph of white text with a transparent background, once inside a
    black [div] ([framed_doc]) and once directly in [body], the [div] taken
    out of the tree ([bare_doc]); [html] and [body] are transparent. *)
Definition framed_div : Element := child 375 2 "div" [].
Definition framed_p : Element :=
  mkElement 3 (str "p") [] 0 0 (Some framed_div).
Definition bare_p : Element := child 375 3 "p" [].
Definition framed_doc : Document :=
  mkDocument [html 375; body 375; framed_div; framed_p] (html 375).
Definition bare_doc : Document :=
  mkDocument [html 375; body 375; bare_p] (html 375).
Definition framed_style (el : Element) : CSSStyleDeclaration :=
  if Nat.eqb (nodeId el) 2 then mkStyle (str "16px") white black
  else mkStyle (str "16px") white transparent_black.
Definition framed_frame : Frame := mkFrame framed_doc framed_style.
Definition bare_frame : Frame := mkFrame bare_doc framed_style.

(** [bare_doc] with a rule after the paragraph: an element that no check
    selects and that is the ancestor of none. *)
Definition ruled_doc : Document :=
  mkDocument [html 375; body 375; bare_p; child 375 4 "hr" []] (html 375).
Definition ruled_frame : Frame := mkFrame ruled_doc framed_style.

(** A frame for the documents above that have no style of their own: 16px
    black text on transparent backgrounds. *)
Definition plain_frame (doc : Document) : Frame :=
  mkFrame doc (fun _ => mkStyle (str "16px") black transparent_black).

End Examples.

(* ================================================================== *)
(** * Facts about numbers *)

Lemma jsstring_eqb_eq (s t : jsstring) : JsString.eqb s t = true <-> s = t.
Proof.
  unfold JsString.eqb. destruct (list_eq_dec N.eq_dec s t); split; congruence.
Qed.

Lemma jsstring_eqb_refl (s : jsstring) : JsString.eqb s s = true.
Proof. now apply jsstring_eqb_eq. Qed.

Lemma jsstring_eqb_neq (s t : jsstring) : JsString.eqb s t = false <-> s <> t.
Proof.
  unfold JsString.eqb. destruct (list_eq_dec N.eq_dec s t); split; congruence.
Qed.

Section NumberFacts.

Local Open Scope Qc_scope.

Lemma Qcltb_lt (a b : Qc) : Qcltb a b = true <-> a < b.
Proof.
  unfold Qcltb. rewrite Qclt_alt.
  destruct (a ?= b); split; congruence.
Qed.

Lemma Qcltb_ge (a b : Qc) : Qcltb a b = false <-> b <= a.
Proof.
  split; intro H.
  - apply Qcnot_lt_le. intro L. apply Qcltb_lt in L. congruence.
  - destruct (Qcltb a b) eqn:E; trivial.
    apply Qcltb_lt in E. apply Qcle_not_lt in H. contradiction.
Qed.

Lemma Qcleb_le (a b : Qc) : Qcleb a b = true <-> a <= b.
Proof.
  unfold Qcleb. rewrite Qcle_alt.
  destruct (a ?= b); split; congruence.
Qed.

Lemma Qceqb_eq (a b : Qc) : Qceqb a b = true <-> a = b.
Proof.
  unfold Qceqb. rewrite Qceq_alt.
  destruct (a ?= b); split; congruence.
Qed.

Lemma Qceqb_neq (a b : Qc) : Qceqb a b = false <-> a <> b.
Proof.
  split; intro H.
  - intro E. apply Qceqb_eq in E. congruence.
  - destruct (Qceqb a b) eqn:E; trivial. apply Qceqb_eq in E. contradiction.
Qed.

(** The value of a quotient of canonical rationals. *)
Lemma this_Qcdiv (a b : Qc) : (this (a / b) == this a / this b)%Q.
Proof.
  unfold Qcdiv, Qcmult, Qcinv, Q2Qc, this.
  rewrite !Qred_correct. reflexivity.
Qed.

Lemma this_Q2Qc (q : Q) : (this (Q2Qc q) == q)%Q.
Proof. unfold Q2Qc, this. apply Qred_correct. Qed.

(** An integer between [x - 1] (excluded) and [x] is the floor of [x]. *)
Lemma Qfloor_unique (x : Q) (k : Z) :
  (inject_Z k <= x)%Q -> (x < inject_Z (k + 1))%Q -> Qfloor x = k.
Proof.
  intros Hlo Hhi.
  pose proof (Qfloor_le x) as Fl.
  pose proof (Qlt_floor x) as Fh.
  assert (A : (inject_Z (Qfloor x) < inject_Z (k + 1))%Q)
    by (eapply Qle_lt_trans; eauto).
  assert (B : (inject_Z k < inject_Z (Qfloor x + 1))%Q)
    by (eapply Qle_lt_trans; eauto).
  rewrite <- Zlt_Qlt in A, B. lia.
Qed.

(** Dividing a multiple of five by five and rounding gives the quotient. *)
Lemma round_fifth (k : Z) :
  round_half_up (Q2Qc (inject_Z (5 * k)) / Q2Qc (inject_Z 5)) = k.
Proof.
  unfold round_half_up. apply Qfloor_unique.
  - rewrite this_Qcdiv, !this_Q2Qc, inject_Z_mult.
    change (inject_Z 5) with 5%Q. generalize (inject_Z k). intro x.
    setoid_replace (5 * x / 5)%Q with x by field. lra.
  - rewrite this_Qcdiv, !this_Q2Qc, inject_Z_plus, inject_Z_mult.
    change (inject_Z 5) with 5%Q. change (inject_Z 1) with 1%Q.
    generalize (inject_Z k). intro x.
    setoid_replace (5 * x / 5)%Q with x by field. lra.
Qed.

End NumberFacts.

(* ================================================================== *)
(** * The result of an analysis *)

Section AnalysisFacts.

Variable pow_approx : Qc -> Qc -> Qc.

Local Abbreviation analyze := (analyzeDocument pow_approx).
Local Abbreviation contrast_of := (sub_contrast pow_approx).
Local Abbreviation scores_of := (subScores pow_approx).
Local Abbreviation locals_of := (final_locals pow_approx).

Lemma analyze_unfold doc frame :
  analyze doc frame =
  {| finalScore :=
       Math_round (div (of_Z (totalScore (locals_of doc frame)))
                       (JsNumber.of_nat (metricsCount (locals_of doc frame))));
     issues := l_issues (locals_of doc frame);
     summary := l_summary (locals_of doc frame) |}.
Proof. reflexivity. Qed.

Lemma final_totalScore doc frame :
  totalScore (locals_of doc frame) =
  sub_alt doc + sub_heading doc + sub_font doc frame
  + contrast_of doc frame + sub_responsive doc.
Proof. reflexivity. Qed.

Lemma final_metricsCount doc frame :
  metricsCount (locals_of doc frame) = 5%nat.
Proof. reflexivity. Qed.

Lemma final_summary_length doc frame :
  List.length (l_summary (locals_of doc frame)) = 5%nat.
Proof.
  unfold final_locals, check_responsive, check_contrast, check_font,
    check_heading, check_alt.
  cbn [l_summary initial_locals].
  rewrite !length_app. reflexivity.
Qed.

(** The issue list: one issue per check, in the order of the checks, with
    the severity each check decides. *)
Lemma final_issues doc frame :
  exists t1 t2 t3 t4 t5,
    l_issues (locals_of doc frame) =
    [ mkIssue (alt_severity
                 (count_missing_alt (getElementsByTagName doc (str "img")))) t1;
      mkIssue (heading_severity (querySelectorAll doc heading_names)) t2;
      mkIssue (font_severity
                 (count_small_text frame (querySelectorAll doc text_names))) t3;
      mkIssue (contrast_severity
                 (count_low_contrast pow_approx frame
                    (querySelectorAll doc contrast_names))) t4;
      mkIssue (responsive_severity doc) t5 ].
Proof.
  unfold final_locals, check_responsive, check_contrast, check_font,
    check_heading, check_alt, addIssue.
  cbn [l_issues initial_locals].
  unfold alt_severity, heading_severity, font_severity, contrast_severity,
    responsive_severity.
  destruct (hasHorizontalScroll doc);
    destruct (0 <? count_low_contrast _ _ _)%nat;
    destruct (0 <? count_small_text _ _)%nat;
    destruct (List.length (querySelectorAll doc heading_names) =? 0)%nat;
    try destruct (0 <? count_jumps _)%nat;
    cbn [app]; do 5 eexists; reflexivity.
Qed.

Lemma analyze_severities doc frame :
  issue_severity (analyze doc frame) 0 =
    Some (alt_severity
            (count_missing_alt (getElementsByTagName doc (str "img"))))
  /\ issue_severity (analyze doc frame) 1 =
    Some (heading_severity (querySelectorAll doc heading_names))
  /\ issue_severity (analyze doc frame) 2 =
    Some (font_severity
            (count_small_text frame (querySelectorAll doc text_names)))
  /\ issue_severity (analyze doc frame) 3 =
    Some (contrast_severity
            (count_low_contrast pow_approx frame
               (querySelectorAll doc contrast_names)))
  /\ issue_severity (analyze doc frame) 4 = Some (responsive_severity doc).
Proof.
  unfold issue_severity. rewrite analyze_unfold. cbn [issues].
  destruct (final_issues doc frame) as (t1 & t2 & t3 & t4 & t5 & ->).
  repeat split.
Qed.

Lemma of_Z_nonzero (z : Z) : z <> 0 -> Qceqb (Q2Qc (inject_Z z)) 0 = false.
Proof.
  intro Hz. apply Qceqb_neq. intro E.
  apply (f_equal this) in E.
  assert (Q : (inject_Z z == 0)%Q).
  { rewrite <- (this_Q2Qc (inject_Z z)). rewrite E. reflexivity. }
  unfold Qeq in Q. simpl in Q. lia.
Qed.

Lemma div_of_Z (a b : Z) :
  b <> 0 ->
  div (of_Z a) (of_Z b) = Num (Q2Qc (inject_Z a) / Q2Qc (inject_Z b))%Qc.
Proof.
  intro Hb. unfold div, of_Z. now rewrite of_Z_nonzero.
Qed.

Lemma final_score_unfold doc frame :
  finalScore (analyze doc frame) =
  of_Z (round_half_up
          (Q2Qc (inject_Z (sub_alt doc + sub_heading doc + sub_font doc frame
                           + contrast_of doc frame + sub_responsive doc))
           / Q2Qc (inject_Z 5))%Qc).
Proof.
  rewrite analyze_unfold. cbn [finalScore].
  rewrite final_totalScore, final_metricsCount.
  unfold JsNumber.of_nat. rewrite div_of_Z by discriminate. reflexivity.
Qed.

(** C1: for every document, the result of [analyzeDocument] has exactly five
    issues and exactly five summary lines, one per check whatever the check
    found, and its final score is the mean of the five sub-scores rounded
    to the nearest integer. *)
Theorem analyze_five_entries_rounded_mean :
  forall (doc : Document) (frame : Frame),
    List.length (issues (analyze doc frame)) = 5%nat
    /\ List.length (summary (analyze doc frame)) = 5%nat
    /\ List.length (scores_of doc frame) = 5%nat
    /\ finalScore (analyze doc frame)
       = of_Z (rounded_mean (scores_of doc frame)).
Proof.
  intros doc frame. split; [|split; [|split]].
  - rewrite analyze_unfold. cbn [issues].
    destruct (final_issues doc frame) as (t1 & t2 & t3 & t4 & t5 & ->).
    reflexivity.
  - rewrite analyze_unfold. cbn [summary]. apply final_summary_length.
  - reflexivity.
  - rewrite final_score_unfold. f_equal.
    unfold round_half_up, rounded_mean, subScores.
    cbn [fold_right List.length].
    apply Qfloor_comp.
    rewrite this_Qcdiv, !this_Q2Qc.
    replace (sub_alt doc + (sub_heading doc + (sub_font doc frame
             + (contrast_of doc frame + (sub_responsive doc + 0)))))
      with (sub_alt doc + sub_heading doc + sub_font doc frame
            + contrast_of doc frame + sub_responsive doc) by lia.
    reflexivity.
Qed.

(** ** The responsiveness check *)

Lemma hasHorizontalScroll_gt doc :
  hasHorizontalScroll doc = true
  <-> scrollWidth (documentElement doc) > clientWidth (documentElement doc) + 5.
Proof.
  unfold hasHorizontalScroll. cbv zeta. rewrite Z.gtb_gt. lia.
Qed.

(** C9: the responsiveness check gives sub-score 65 and a [warning] issue
    exactly when the scroll width of the root element exceeds its client
    width by more than 5 pixels (so also when it exceeds it by 20), and
    sub-score 100 with an [ok] issue otherwise. *)
Theorem responsive_check :
  forall (doc : Document) (frame : Frame),
    let root := documentElement doc in
    (sub_responsive doc = 65
     /\ issue_severity (analyze doc frame) 4 = Some warning
     <-> scrollWidth root > clientWidth root + 5)
    /\ (sub_responsive doc = 100
        /\ issue_severity (analyze doc frame) 4 = Some ok
        <-> scrollWidth root <= clientWidth root + 5)
    /\ (scrollWidth root = clientWidth root + 20 ->
        sub_responsive doc = 65
        /\ issue_severity (analyze doc frame) 4 = Some warning).
Proof.
  intros doc frame root.
  destruct (analyze_severities doc frame) as (_ & _ & _ & _ & ->).
  unfold sub_responsive, responsive_score, responsive_severity.
  pose proof (hasHorizontalScroll_gt doc) as H. fold root in H.
  destruct (hasHorizontalScroll doc).
  - assert (G : scrollWidth root > clientWidth root + 5) by now apply H.
    repeat split; intros; try lia; try tauto; try easy.
  - assert (G : ~ scrollWidth root > clientWidth root + 5)
      by (intro X; apply H in X; discriminate).
    repeat split; intros; try lia; try tauto; try easy.
Qed.

(** ** The alt-text check *)

Lemma lacks_alt_spec img :
  lacks_alt img
  = negb (truthy (trim (or_empty (getAttribute img (str "alt"))))).
Proof.
  unfold lacks_alt. now destruct (getAttribute img (str "alt")).
Qed.

Lemma count_missing_alt_from imgs n :
  fold_left
    (fun missingAlt img =>
       let alt := trim (or_empty (getAttribute img (str "alt"))) in
       if negb (truthy alt) then S missingAlt else missingAlt)
    imgs n
  = (n + List.length (filter lacks_alt imgs))%nat.
Proof.
  revert n. induction imgs as [|img imgs IH]; intro n; cbn [fold_left filter].
  - cbn. lia.
  - rewrite IH, lacks_alt_spec. cbv zeta.
    destruct (negb (truthy _)); cbn [List.length]; lia.
Qed.

Lemma count_missing_alt_filter imgs :
  count_missing_alt imgs = List.length (filter lacks_alt imgs).
Proof. unfold count_missing_alt. now rewrite count_missing_alt_from. Qed.

Lemma alt_score_ratio (total missing : nat) :
  total <> 0%nat ->
  alt_score total missing =
  let ratio := (Q2Qc (inject_Z (Z.of_nat missing))
                / Q2Qc (inject_Z (Z.of_nat total)))%Qc in
  if Qcltb (Q2Qc 0.5) ratio then 30
  else if Qcltb (Q2Qc 0.2) ratio then 60 else 90.
Proof.
  intro Ht. unfold alt_score.
  replace (0 <? total)%nat with true by (symmetry; apply Nat.ltb_lt; lia).
  unfold JsNumber.of_nat. rewrite div_of_Z by lia. reflexivity.
Qed.

(** C7: with no image the alt-text sub-score is 100 and its issue is [ok];
    otherwise, with [ratio] the number of images whose [alt] is absent or
    empty once trimmed divided by the number of images, the sub-score is 30
    when [ratio > 0.5], 60 when [0.2 < ratio <= 0.5] and 90 otherwise; the
    issue is [critical] exactly when some image lacks alt text. *)
Theorem alt_text_check :
  forall (doc : Document) (frame : Frame),
    let imgs := getElementsByTagName doc (str "img") in
    let total := List.length imgs in
    let missingAlt := List.length (filter lacks_alt imgs) in
    let ratio := (Q2Qc (inject_Z (Z.of_nat missingAlt))
                  / Q2Qc (inject_Z (Z.of_nat total)))%Qc in
    count_missing_alt imgs = missingAlt
    /\ (total = 0%nat ->
        sub_alt doc = 100 /\ issue_severity (analyze doc frame) 0 = Some ok)
    /\ (total <> 0%nat -> (Q2Qc 0.5 < ratio)%Qc -> sub_alt doc = 30)
    /\ (total <> 0%nat ->
        (Q2Qc 0.2 < ratio)%Qc /\ (ratio <= Q2Qc 0.5)%Qc -> sub_alt doc = 60)
    /\ (total <> 0%nat -> (ratio <= Q2Qc 0.2)%Qc -> sub_alt doc = 90)
    /\ (issue_severity (analyze doc frame) 0 = Some critical
        <-> (0 < missingAlt)%nat)
    /\ (issue_severity (analyze doc frame) 0 = Some ok
        <-> missingAlt = 0%nat).
Proof.
  intros doc frame imgs total missingAlt ratio.
  destruct (analyze_severities doc frame) as (-> & _).
  fold imgs. rewrite count_missing_alt_filter. fold missingAlt.
  assert (Sev : alt_severity missingAlt = critical /\ (0 < missingAlt)%nat
                \/ alt_severity missingAlt = ok /\ missingAlt = 0%nat).
  { unfold alt_severity. destruct (0 <? missingAlt)%nat eqn:E.
    - left. split; trivial. now apply Nat.ltb_lt.
    - right. split; trivial. apply Nat.ltb_ge in E. lia. }
  split; [reflexivity|].
  split.
  { intro H0. split.
    - unfold sub_alt. fold imgs. fold total. rewrite H0. reflexivity.
    - assert (M : missingAlt = 0%nat).
      { unfold missingAlt. unfold total in H0.
        apply length_zero_iff_nil in H0. now rewrite H0. }
      rewrite M. reflexivity. }
  assert (Sc : total <> 0%nat ->
               sub_alt doc = if Qcltb (Q2Qc 0.5) ratio then 30
                             else if Qcltb (Q2Qc 0.2) ratio then 60 else 90).
  { intro Ht. unfold sub_alt. cbv zeta. fold imgs. fold total.
    rewrite count_missing_alt_filter. fold missingAlt.
    now rewrite alt_score_ratio. }
  split; [|split; [|split; [|split]]].
  - intros Ht Hr. rewrite Sc by trivial.
    apply Qcltb_lt in Hr. now rewrite Hr.
  - intros Ht [Hlo Hhi]. rewrite Sc by trivial.
    apply Qcltb_ge in Hhi. apply Qcltb_lt in Hlo. now rewrite Hhi, Hlo.
  - intros Ht Hr. rewrite Sc by trivial.
    assert (Hhi : (ratio <= Q2Qc 0.5)%Qc).
    { eapply Qcle_trans; [exact Hr|]. now apply Qcleb_le. }
    apply Qcltb_ge in Hhi, Hr. now rewrite Hhi, Hr.
  - destruct Sev as [[-> P] | [-> P]]; split; intro; try lia; congruence.
  - destruct Sev as [[-> P] | [-> P]]; split; intro; try lia; congruence.
Qed.

(** ** The tiers of the sub-scores and the range of the final score *)

Lemma alt_score_tier total missing :
  In (alt_score total missing) [30; 60; 90; 100].
Proof.
  unfold alt_score.
  repeat match goal with
         | |- context [if ?c then _ else _] => destruct c
         end; cbn; auto.
Qed.

Lemma heading_score_tier tags : In (heading_score tags) [50; 70; 100].
Proof.
  unfold heading_score.
  repeat match goal with
         | |- context [if ?c then _ else _] => destruct c
         end; cbn; auto.
Qed.

Lemma font_score_tier nodes small : In (font_score nodes small) [60; 80; 100].
Proof.
  unfold font_score.
  repeat match goal with
         | |- context [if ?c then _ else _] => destruct c
         end; cbn; auto.
Qed.

Lemma contrast_score_tier targets low :
  In (contrast_score targets low) [55; 75; 100].
Proof.
  unfold contrast_score.
  repeat match goal with
         | |- context [if ?c then _ else _] => destruct c
         end; cbn; auto.
Qed.

Lemma responsive_score_tier doc : In (responsive_score doc) [65; 100].
Proof.
  unfold responsive_score. destruct (hasHorizontalScroll doc); cbn; auto.
Qed.

(** C10: every sub-score lies in its tier set, whose members are multiples
    of five, so the final score is the exact integer a fifth of their sum,
    between 52 and 100; and 52 is reached. *)
Theorem final_score_range :
  (forall (doc : Document) (frame : Frame),
      In (sub_alt doc) [30; 60; 90; 100]
      /\ In (sub_heading doc) [50; 70; 100]
      /\ In (sub_font doc frame) [60; 80; 100]
      /\ In (contrast_of doc frame) [55; 75; 100]
      /\ In (sub_responsive doc) [65; 100]
      /\ exists score : Z,
          finalScore (analyze doc frame) = of_Z score
          /\ 5 * score = sub_alt doc + sub_heading doc + sub_font doc frame
                         + contrast_of doc frame + sub_responsive doc
          /\ 52 <= score <= 100)
  /\ (exists (doc : Document) (frame : Frame),
         subScores pow_approx doc frame = [30; 50; 60; 55; 65]
         /\ finalScore (analyze doc frame) = of_Z 52).
Proof.
  split.
  - intros doc frame.
    pose proof (alt_score_tier
                  (List.length (getElementsByTagName doc (str "img")))
                  (count_missing_alt (getElementsByTagName doc (str "img"))))
      as Ha.
    pose proof (heading_score_tier (querySelectorAll doc heading_names)) as Hh.
    pose proof (font_score_tier
                  (List.length (querySelectorAll doc text_names))
                  (count_small_text frame (querySelectorAll doc text_names)))
      as Hf.
    pose proof (contrast_score_tier
                  (List.length (querySelectorAll doc contrast_names))
                  (count_low_contrast pow_approx frame
                     (querySelectorAll doc contrast_names))) as Hc.
    pose proof (responsive_score_tier doc) as Hr.
    change (In (sub_alt doc) [30; 60; 90; 100]) in Ha.
    change (In (sub_heading doc) [50; 70; 100]) in Hh.
    change (In (sub_font doc frame) [60; 80; 100]) in Hf.
    change (In (contrast_of doc frame) [55; 75; 100]) in Hc.
    change (In (sub_responsive doc) [65; 100]) in Hr.
    repeat (split; [assumption|]).
    rewrite final_score_unfold.
    set (total := sub_alt doc + sub_heading doc + sub_font doc frame
                  + contrast_of doc frame + sub_responsive doc).
    assert (D : exists k, total = 5 * k /\ 52 <= k <= 100).
    { exists (total / 5). cbn [In] in Ha, Hh, Hf, Hc, Hr.
      assert (total mod 5 = 0 /\ 260 <= total <= 500).
      { unfold total. split.
        - repeat match goal with H : _ \/ _ |- _ => destruct H as [<- | H] end;
            try contradiction; reflexivity.
        - lia. }
      pose proof (Z.div_mod total 5). lia. }
    destruct D as (k & -> & Hk).
    exists k. rewrite round_fifth. repeat split; lia.
  - exists Examples.worst_doc, Examples.worst_frame.
    assert (E : subScores pow_approx Examples.worst_doc Examples.worst_frame
                = [30; 50; 60; 55; 65]) by (vm_compute; reflexivity).
    split; [exact E|].
    rewrite final_score_unfold.
    match goal with
    | |- context [round_half_up (Q2Qc (inject_Z ?t) / _)] =>
        replace t with (5 * 52) by (vm_compute; reflexivity)
    end.
    now rewrite round_fifth.
Qed.

End AnalysisFacts.

(* ================================================================== *)
(** * The heading check *)

Section HeadingFacts.

Lemma querySelectorAll_In doc names el :
  In el (querySelectorAll doc names)
  <-> In el (elements doc) /\ In (localName el) names.
Proof.
  unfold querySelectorAll. rewrite filter_In, existsb_exists.
  split.
  - intros (Hin & x & Hx & E). apply jsstring_eqb_eq in E. now subst.
  - intros (Hin & Hn). split; trivial.
    exists (localName el). split; trivial. apply jsstring_eqb_refl.
Qed.

Lemma headings_are_headings doc :
  Forall is_heading (querySelectorAll doc heading_names).
Proof.
  apply Forall_forall. intros h Hh.
  now apply querySelectorAll_In in Hh.
Qed.

(** On a heading element, the level the code parses from the tag name is
    the level of the heading. *)
Lemma heading_level_rank h :
  is_heading h ->
  heading_level h = of_Z (heading_rank h) /\ 1 <= heading_rank h <= 6.
Proof.
  unfold is_heading, heading_names. cbn [map In].
  unfold heading_level, heading_rank, tagName.
  intros [E | [E | [E | [E | [E | [E | []]]]]]]; rewrite <- E;
    split; try (vm_compute; reflexivity); vm_compute; split; discriminate.
Qed.

(** The test of the loop, on two levels between 1 and 6. *)
Lemma jump_test (a b : Z) :
  1 <= a <= 6 -> 1 <= b <= 6 ->
  gt (sub (of_Z b) (of_Z a)) (lit 1) = negb (b <=? a + 1).
Proof.
  intros Ha Hb.
  assert (A : a = 1 \/ a = 2 \/ a = 3 \/ a = 4 \/ a = 5 \/ a = 6) by lia.
  assert (B : b = 1 \/ b = 2 \/ b = 3 \/ b = 4 \/ b = 5 \/ b = 6) by lia.
  destruct A as [-> | [-> | [-> | [-> | [-> | ->]]]]];
    destruct B as [-> | [-> | [-> | [-> | [-> | ->]]]]];
    vm_compute; reflexivity.
Qed.

Lemma rank_jumps_cons a b rest :
  rank_jumps (a :: b :: rest)
  = ((if (b <=? a + 1)%Z then 0 else 1) + rank_jumps (b :: rest))%nat.
Proof. cbn [rank_jumps]. now destruct (b <=? a + 1). Qed.

Lemma jumps_from hs :
  Forall is_heading hs ->
  forall (n : nat) (a : Z),
    1 <= a <= 6 ->
    fst (fold_left jump_step hs (n, Some (of_Z a)))
    = (n + rank_jumps (a :: map heading_rank hs))%nat.
Proof.
  induction 1 as [|h hs Hh Hhs IH]; intros n a Ha.
  - cbn. lia.
  - destruct (heading_level_rank h Hh) as (Lv & Rk).
    cbn [fold_left map]. unfold jump_step at 2. rewrite Lv.
    rewrite jump_test by assumption.
    rewrite rank_jumps_cons.
    destruct (heading_rank h <=? a + 1); cbn [negb];
      rewrite IH by assumption; lia.
Qed.

Lemma count_jumps_ranks hs :
  Forall is_heading hs ->
  count_jumps hs = rank_jumps (map heading_rank hs).
Proof.
  intros H. unfold count_jumps. destruct H as [|h hs Hh Hhs].
  - reflexivity.
  - destruct (heading_level_rank h Hh) as (Lv & Rk).
    cbn [fold_left map]. unfold jump_step at 2. rewrite Lv.
    now rewrite jumps_from.
Qed.

Lemma gentle_no_jump levels : gentle levels = true <-> rank_jumps levels = 0%nat.
Proof.
  induction levels as [|a [|b rest] IH]; cbn [gentle rank_jumps] in *;
    try tauto.
  destruct (b <=? a + 1); cbn [andb]; [exact IH|].
  split; intro; discriminate.
Qed.

(** The heading sub-score, case by case. *)
Lemma heading_score_cases doc :
  let hs := querySelectorAll doc heading_names in
  let levels := map heading_rank hs in
  (sub_heading doc = 50 <-> hs = [])
  /\ (sub_heading doc = 70 <-> hs <> [] /\ gentle levels = false)
  /\ (sub_heading doc = 100 <-> hs <> [] /\ gentle levels = true).
Proof.
  intros hs levels. unfold sub_heading, heading_score. fold hs.
  rewrite (count_jumps_ranks hs (headings_are_headings doc)). fold levels.
  pose proof (gentle_no_jump levels) as G.
  destruct hs as [|h hs'] eqn:E.
  - cbn [List.length Nat.eqb]. repeat split; intros; try easy; tauto.
  - cbn [List.length Nat.eqb].
    destruct (rank_jumps levels) as [|j] eqn:J; cbn [Nat.ltb Nat.leb].
    + assert (gentle levels = true) by now apply G.
      repeat split; intros; try easy; try tauto.
      destruct H0; congruence.
    + assert (gentle levels = false).
      { destruct (gentle levels); trivial.
        assert (S j = 0%nat) by now apply G. discriminate. }
      repeat split; intros; try easy; try tauto.
      destruct H0; congruence.
Qed.

(** C4, as amended: for every document with at least one heading in which
    no heading exceeds the level of the heading before it by more than one
    (a lower level, the same level or the next level never counts as a
    jump), the heading sub-score is 100. *)
Theorem heading_check :
  forall doc : Document,
    querySelectorAll doc heading_names <> [] ->
    gentle (map heading_rank (querySelectorAll doc heading_names)) = true ->
    sub_heading doc = 100.
Proof.
  intros doc Hne Hg.
  destruct (heading_score_cases doc) as (_ & _ & H). apply H. now split.
Qed.

Lemma heading_check_witness :
  querySelectorAll Examples.outline_doc heading_names <> []
  /\ gentle (map heading_rank
               (querySelectorAll Examples.outline_doc heading_names)) = true
  /\ sub_heading Examples.outline_doc = 100.
Proof.
  split; [|split].
  - vm_compute. discriminate.
  - vm_compute. reflexivity.
  - apply (heading_check Examples.outline_doc).
    + vm_compute. discriminate.
    + vm_compute. reflexivity.
Defined.

(** C4 as stated fails: a document without any heading has no heading that
    jumps, and its heading sub-score is 50. *)
Lemma heading_check_not_without_headings :
  gentle (map heading_rank
            (querySelectorAll Examples.plain_doc heading_names)) = true
  /\ sub_heading Examples.plain_doc = 50
  /\ sub_heading Examples.plain_doc <> 100.
Proof.
  split; [|split]; vm_compute; try reflexivity; discriminate.
Qed.

End HeadingFacts.

(* ================================================================== *)
(** * The effective background *)

Section BackgroundFacts.

(** Induction along the parent chain of an element. *)
Lemma Element_parent_ind (P : Element -> Prop) :
  (forall e, (forall p, parentElement e = Some p -> P p) -> P e) ->
  forall e, P e.
Proof.
  intro step. fix IH 1. intros [id name attrs sw cw par].
  apply step. cbn. intros p E.
  destruct par as [q|]; [|discriminate].
  injection E as <-. apply IH.
Qed.

Lemma background_walk_eq frame root current :
  background_walk frame root current =
  if same_node current root then default_background
  else
    if usable_background (backgroundColor (getComputedStyle frame current))
    then backgroundColor (getComputedStyle frame current)
    else
      match parentElement current with
      | Some parent => background_walk frame root parent
      | None => default_background
      end.
Proof. destruct current; reflexivity. Qed.

Lemma chain_below_eq root current :
  chain_below root current =
  if same_node current root then []
  else
    current ::
    match parentElement current with
    | Some parent => chain_below root parent
    | None => []
    end.
Proof. destruct current; reflexivity. Qed.

Lemma chain_below_not_root root :
  forall current a, In a (chain_below root current) -> same_node a root = false.
Proof.
  induction current as [e IH] using Element_parent_ind. intros a.
  rewrite chain_below_eq.
  destruct (same_node e root) eqn:E; [intros []|].
  intros [<- | Hin]; trivial.
  destruct (parentElement e) as [p|] eqn:Par; [|destruct Hin].
  now apply (IH p eq_refl).
Qed.

Lemma background_walk_find frame root :
  forall current,
    background_walk frame root current =
    match find usable_background
            (map (fun a => backgroundColor (getComputedStyle frame a))
                 (chain_below root current)) with
    | Some bg => bg
    | None => default_background
    end.
Proof.
  induction current as [e IH] using Element_parent_ind.
  rewrite background_walk_eq, chain_below_eq.
  destruct (same_node e root); [reflexivity|].
  cbn [map find].
  destruct (usable_background (backgroundColor (getComputedStyle frame e)));
    [reflexivity|].
  destruct (parentElement e) as [p|] eqn:Par; [|reflexivity].
  now apply IH.
Qed.

Lemma find_first {A : Type} (f : A -> bool) (pre : list A) (a : A)
  (post : list A) :
  (forall x, In x pre -> f x = false) -> f a = true ->
  find f (pre ++ a :: post) = Some a.
Proof.
  induction pre as [|x pre IH]; intros Hpre Ha; cbn [app find].
  - now rewrite Ha.
  - rewrite (Hpre x) by now left. apply IH; trivial.
    intros y Hy. apply Hpre. now right.
Qed.

Lemma find_none_all {A : Type} (f : A -> bool) (l : list A) :
  (forall x, In x l -> f x = false) -> find f l = None.
Proof.
  induction l as [|x l IH]; intro H; cbn [find]; trivial.
  rewrite (H x) by now left. apply IH. intros y Hy. apply H. now right.
Qed.

Lemma usable_background_spec bg :
  usable_background bg = true <-> bg <> [] /\ bg <> str "rgba(0, 0, 0, 0)".
Proof.
  unfold usable_background, transparent_black.
  rewrite andb_true_iff, negb_true_iff, jsstring_eqb_neq.
  destruct bg; cbn [truthy]; split; intros [A B]; split; congruence.
Qed.

(** The loop of [getEffectiveBackground] in closed form: it inspects the
    element itself and then its ancestors, stopping before the document root
    (or where there is no parent), and returns the first computed background
    that passes the test of the source, a non-empty string other than
    ["rgba(0, 0, 0, 0)"]; when there is none it returns
    ["rgb(255, 255, 255)"]. *)
Lemma effective_background_walk :
  forall (el : Element) (frame : Frame),
    let root := documentElement (contentDocument frame) in
    let bg_of := fun a => backgroundColor (getComputedStyle frame a) in
    let chain := chain_below root el in
    (forall a, In a chain -> same_node a root = false)
    /\ (forall bg, usable_background bg = true
                   <-> bg <> [] /\ bg <> str "rgba(0, 0, 0, 0)")
    /\ (forall pre a post,
           chain = pre ++ a :: post ->
           (forall x, In x pre -> usable_background (bg_of x) = false) ->
           usable_background (bg_of a) = true ->
           getEffectiveBackground el frame = bg_of a)
    /\ ((forall x, In x chain -> usable_background (bg_of x) = false) ->
        getEffectiveBackground el frame = str "rgb(255, 255, 255)").
Proof.
  intros el frame root bg_of chain.
  split; [apply chain_below_not_root|].
  split; [apply usable_background_spec|].
  unfold getEffectiveBackground. fold root.
  rewrite background_walk_find. fold bg_of. fold chain.
  split.
  - intros pre a post -> Hpre Ha.
    rewrite map_app. cbn [map].
    rewrite (find_first usable_background (map bg_of pre) (bg_of a));
      trivial.
    intros x Hx. apply in_map_iff in Hx. destruct Hx as (y & <- & Hy).
    now apply Hpre.
  - intro Hall. rewrite find_none_all; [reflexivity|].
    intros x Hx. apply in_map_iff in Hx. destruct Hx as (y & <- & Hy).
    now apply Hall.
Qed.

(** C5: the source announces [getEffectiveBackground] as looking for "a
    non-transparent background going up the DOM tree", and tests
    transparency by comparing the text with ["rgba(0, 0, 0, 0)"] alone.  A
    paragraph with a transparent background, inside a [div] whose background
    is the fully transparent red ["rgba(255, 0, 0, 0)"], inside a black
    [body], gets that transparent red as its effective background, although
    the first background on the way up that is not fully transparent is the
    black one of [body]. *)
Lemma effective_background_keeps_transparent_red :
  getEffectiveBackground Examples.veil_p Examples.veil_frame
  = str "rgba(255, 0, 0, 0)"
  /\ fully_transparent (str "rgba(255, 0, 0, 0)") = true
  /\ effectiveBackground_spec Examples.veil_frame
       (documentElement (contentDocument Examples.veil_frame)) Examples.veil_p
     = str "rgb(0, 0, 0)"
  /\ getEffectiveBackground Examples.veil_p Examples.veil_frame
     <> effectiveBackground_spec Examples.veil_frame
          (documentElement (contentDocument Examples.veil_frame))
          Examples.veil_p.
Proof.
  split; [|split; [|split]]; vm_compute; try reflexivity; discriminate.
Qed.

End BackgroundFacts.

(* ================================================================== *)
(** * The pattern of [parseCssColor] *)

Section PatternFacts.

Lemma digit_or_dot_range c :
  is_digit_or_dot c = true -> (46 <= c <= 57)%N.
Proof.
  unfold is_digit_or_dot, is_digit.
  rewrite orb_true_iff, andb_true_iff, !N.leb_le, N.eqb_eq.
  change (ch ".") with 46%N. lia.
Qed.

Lemma digit_or_dot_not_space c :
  is_digit_or_dot c = true -> is_space c = false.
Proof.
  intro H. apply digit_or_dot_range in H. unfold is_space.
  assert (E : forall k, (k < 46 \/ 57 < k)%N -> (c =? k)%N = false)
    by (intros k Hk; apply N.eqb_neq; lia).
  rewrite !E by lia.
  replace (8192 <=? c)%N with false by (symmetry; apply N.leb_gt; lia).
  reflexivity.
Qed.

Lemma space_not_digit_or_dot c :
  is_space c = true -> is_digit_or_dot c = false.
Proof.
  intro H. destruct (is_digit_or_dot c) eqn:E; trivial.
  apply digit_or_dot_not_space in E. congruence.
Qed.

Lemma span_spec p s :
  forall run rest,
    span p s = (run, rest) ->
    s = run ++ rest /\ forallb p run = true /\ starts_outside p rest.
Proof.
  induction s as [|c s IH]; intros run rest; cbn [span].
  - intros [= <- <-]. now repeat split.
  - destruct (p c) eqn:Pc.
    + destruct (span p s) as [run' rest'] eqn:E. intros [= <- <-].
      destruct (IH run' rest' eq_refl) as (-> & F & O).
      cbn [app forallb]. rewrite Pc, F. now repeat split.
    + intros [= <- <-]. cbn. now repeat split.
Qed.

Lemma span_app p run rest :
  forallb p run = true -> starts_outside p rest ->
  span p (run ++ rest) = (run, rest).
Proof.
  induction run as [|c run IH]; cbn [app forallb]; intros F O.
  - destruct rest as [|d rest]; cbn [span]; trivial.
    cbn in O. now rewrite O.
  - apply andb_true_iff in F. destruct F as [Pc F].
    cbn [span]. now rewrite Pc, IH.
Qed.

(** A run followed by anything: the captured run extends it. *)
Lemma span_app_longer p run rest :
  forallb p run = true ->
  exists more rest', span p (run ++ rest) = (run ++ more, rest').
Proof.
  induction run as [|c run IH]; cbn [app forallb]; intros F.
  - destruct (span p rest) as [more rest'] eqn:E. now exists more, rest'.
  - apply andb_true_iff in F. destruct F as [Pc F].
    destruct (IH F) as (more & rest' & E).
    exists more, rest'. cbn [span]. now rewrite Pc, E.
Qed.

Lemma dropWhile_spec p s :
  exists w, s = w ++ dropWhile p s /\ forallb p w = true.
Proof.
  induction s as [|c s (w & E & F)]; cbn [dropWhile].
  - now exists [].
  - destruct (p c) eqn:Pc.
    + exists (c :: w). cbn [app forallb]. rewrite Pc, F. now rewrite <- E.
    + now exists [].
Qed.

Lemma dropWhile_app p w rest :
  forallb p w = true -> starts_outside p rest ->
  dropWhile p (w ++ rest) = rest.
Proof.
  induction w as [|c w IH]; cbn [app forallb]; intros F O.
  - destruct rest as [|d rest]; cbn [dropWhile]; trivial.
    cbn in O. now rewrite O.
  - apply andb_true_iff in F. destruct F as [Pc F].
    cbn [dropWhile]. now rewrite Pc, IH.
Qed.

Lemma run_starts_outside_space m rest :
  number_run m -> starts_outside is_space (m ++ rest).
Proof.
  intros [Hne F]. destruct m as [|c m]; [contradiction|].
  cbn in *. apply andb_true_iff in F.
  now apply digit_or_dot_not_space.
Qed.

Lemma comma_starts_outside_run w rest :
  spaces w -> starts_outside is_digit_or_dot (w ++ ch "," :: rest).
Proof.
  intro F. destruct w as [|c w]; cbn.
  - reflexivity.
  - unfold spaces in F. cbn in F. apply andb_true_iff in F.
    now apply space_not_digit_or_dot.
Qed.

(** *** What [ws_run] and [ws_comma] accept *)

Lemma ws_run_inv s run rest :
  ws_run s = Some (run, rest) ->
  exists w, spaces w /\ number_run run /\ s = w ++ run ++ rest.
Proof.
  unfold ws_run.
  destruct (dropWhile_spec is_space s) as (w & E & F).
  destruct (span is_digit_or_dot (dropWhile is_space s)) as [g t] eqn:Sp.
  apply span_spec in Sp. destruct Sp as (Eg & Fg & _).
  destruct g as [|c g]; [discriminate|].
  intros [= <- <-]. exists w. repeat split; trivial.
  - discriminate.
  - now rewrite <- Eg.
Qed.

Lemma ws_run_app w m rest :
  spaces w -> number_run m -> starts_outside is_digit_or_dot rest ->
  ws_run (w ++ m ++ rest) = Some (m, rest).
Proof.
  intros Fw Hm O. unfold ws_run.
  rewrite dropWhile_app; trivial; [|now apply run_starts_outside_space].
  destruct Hm as [Hne Fm]. rewrite span_app; trivial.
  destruct m; [contradiction|reflexivity].
Qed.

Lemma ws_run_app_longer w m rest :
  spaces w -> number_run m ->
  exists g rest', ws_run (w ++ m ++ rest) = Some (g, rest').
Proof.
  intros Fw Hm. unfold ws_run.
  rewrite dropWhile_app; trivial; [|now apply run_starts_outside_space].
  destruct Hm as [Hne Fm].
  destruct (span_app_longer is_digit_or_dot m rest Fm) as (more & rest' & ->).
  destruct m as [|c m]; [contradiction|].
  now exists ((c :: m) ++ more), rest'.
Qed.

Lemma ws_comma_inv s rest :
  ws_comma s = Some rest ->
  exists w, spaces w /\ s = w ++ ch "," :: rest.
Proof.
  unfold ws_comma.
  destruct (dropWhile_spec is_space s) as (w & E & F).
  destruct (dropWhile is_space s) as [|c t]; [discriminate|].
  destruct (c =? ch ",")%N eqn:Ec; [|discriminate].
  apply N.eqb_eq in Ec. subst c.
  intros [= <-]. now exists w.
Qed.

Lemma ws_comma_app w rest :
  spaces w -> ws_comma (w ++ ch "," :: rest) = Some rest.
Proof.
  intro F. unfold ws_comma.
  now rewrite dropWhile_app.
Qed.

(** *** What the pattern accepts at a given position *)

Lemma paren_groups_inv s g1 g2 g3 :
  paren_groups s = Some (g1, g2, g3) ->
  exists w0 w1 w2 w3 w4 post,
    (spaces w0 /\ spaces w1 /\ spaces w2 /\ spaces w3 /\ spaces w4)
    /\ (number_run g1 /\ number_run g2 /\ number_run g3)
    /\ s = ch "(" :: w0 ++ g1 ++ w1 ++ ch "," :: w2 ++ g2 ++ w3
             ++ ch "," :: w4 ++ g3 ++ post.
Proof.
  unfold paren_groups.
  destruct s as [|c s0]; [discriminate|].
  destruct (c =? ch "(")%N eqn:Ec; [|discriminate].
  apply N.eqb_eq in Ec. subst c.
  destruct (ws_run s0) as [[a1 s1]|] eqn:R1; [|discriminate].
  destruct (ws_comma s1) as [s2|] eqn:C1; [|discriminate].
  destruct (ws_run s2) as [[a2 s3]|] eqn:R2; [|discriminate].
  destruct (ws_comma s3) as [s4|] eqn:C2; [|discriminate].
  destruct (ws_run s4) as [[a3 s5]|] eqn:R3; [|discriminate].
  intros [= <- <- <-].
  apply ws_run_inv in R1, R2, R3. apply ws_comma_inv in C1, C2.
  destruct R1 as (w0 & S0 & N1 & ->). destruct C1 as (w1 & S1 & ->).
  destruct R2 as (w2 & S2 & N2 & ->). destruct C2 as (w3 & S3 & ->).
  destruct R3 as (w4 & S4 & N3 & ->).
  exists w0, w1, w2, w3, w4, s5. repeat split; trivial; try apply N1;
    try apply N2; try apply N3.
Qed.

Lemma paren_groups_app w0 m1 w1 w2 m2 w3 w4 m3 post :
  spaces w0 -> spaces w1 -> spaces w2 -> spaces w3 -> spaces w4 ->
  number_run m1 -> number_run m2 -> number_run m3 ->
  exists g3,
    paren_groups (ch "(" :: w0 ++ m1 ++ w1 ++ ch "," :: w2 ++ m2 ++ w3
                  ++ ch "," :: w4 ++ m3 ++ post)
    = Some (m1, m2, g3).
Proof.
  intros S0 S1 S2 S3 S4 N1 N2 N3. unfold paren_groups.
  rewrite N.eqb_refl.
  rewrite ws_run_app; trivial; [|now apply comma_starts_outside_run].
  rewrite ws_comma_app; trivial.
  rewrite ws_run_app; trivial; [|now apply comma_starts_outside_run].
  rewrite ws_comma_app; trivial.
  destruct (ws_run_app_longer w4 m3 post S4 N3) as (g & rest' & ->).
  now exists g.
Qed.

Lemma keyword_cases k :
  keyword k <->
  (exists c1 c2 c3,
      k = [c1; c2; c3] /\ ci "R" c1 && ci "G" c2 && ci "B" c3 = true)
  \/ (exists c1 c2 c3 c4,
         k = [c1; c2; c3; c4]
         /\ ci "R" c1 && ci "G" c2 && ci "B" c3 = true /\ ci "A" c4 = true).
Proof.
  unfold keyword, toUpperCase, ci.
  change (str "RGB") with [ch "R"; ch "G"; ch "B"].
  change (str "RGBA") with [ch "R"; ch "G"; ch "B"; ch "A"].
  split.
  - intros [E | E].
    + left. destruct k as [|c1 [|c2 [|c3 [|c4 k]]]]; try discriminate E.
      injection E as E1 E2 E3. exists c1, c2, c3. split; trivial.
      now rewrite E1, E2, E3, !N.eqb_refl.
    + right. destruct k as [|c1 [|c2 [|c3 [|c4 [|c5 k]]]]];
        try discriminate E.
      injection E as E1 E2 E3 E4. exists c1, c2, c3, c4. split; trivial.
      now rewrite E1, E2, E3, E4, !N.eqb_refl.
  - intros [(c1 & c2 & c3 & -> & H) | (c1 & c2 & c3 & c4 & -> & H & H4)].
    + left. apply andb_true_iff in H. destruct H as [H H3].
      apply andb_true_iff in H. destruct H as [H1 H2].
      apply N.eqb_eq in H1, H2, H3. cbn [map]. congruence.
    + right. apply andb_true_iff in H. destruct H as [H H3].
      apply andb_true_iff in H. destruct H as [H1 H2].
      apply N.eqb_eq in H1, H2, H3, H4. cbn [map]. congruence.
Qed.

Lemma match_here_inv s g1 g2 g3 :
  match_here s = Some (g1, g2, g3) ->
  exists k rest, keyword k /\ s = k ++ rest
                 /\ paren_groups rest = Some (g1, g2, g3).
Proof.
  unfold match_here.
  destruct s as [|c1 [|c2 [|c3 s']]]; try discriminate.
  destruct (ci "R" c1 && ci "G" c2 && ci "B" c3) eqn:K; [|discriminate].
  unfold opt_a_groups. destruct s' as [|c s'']; [discriminate|].
  assert (K3 : keyword [c1; c2; c3])
    by (apply keyword_cases; left; now exists c1, c2, c3).
  destruct (ci "A" c) eqn:A.
  - destruct (paren_groups s'') as [m|] eqn:P.
    + intros [= ->]. exists [c1; c2; c3; c], s''. repeat split; trivial.
      apply keyword_cases. right. now exists c1, c2, c3, c.
    + intro P'. exists [c1; c2; c3], (c :: s''). now repeat split.
  - intro P'. exists [c1; c2; c3], (c :: s''). now repeat split.
Qed.

Lemma match_here_app k rest m :
  keyword k -> paren_groups rest = Some m ->
  match_here (k ++ rest) = Some m.
Proof.
  intros K P. apply keyword_cases in K.
  assert (R : exists t, rest = ch "(" :: t).
  { unfold paren_groups in P. destruct rest as [|c t]; [discriminate|].
    destruct (c =? ch "(")%N eqn:Ec; [|discriminate].
    apply N.eqb_eq in Ec. subst c. now exists t. }
  destruct R as (t & ->).
  destruct K as [(c1 & c2 & c3 & -> & H) | (c1 & c2 & c3 & c4 & -> & H & H4)];
    cbn [app]; unfold match_here; rewrite H; unfold opt_a_groups.
  - change (ci "A" (ch "(")) with false. cbv iota. exact P.
  - rewrite H4, P. reflexivity.
Qed.

(** *** The leftmost match *)

Lemma regex_match_eq s :
  regex_match s =
  match match_here s with
  | Some m => Some m
  | None => match s with [] => None | _ :: s' => regex_match s' end
  end.
Proof. destruct s; reflexivity. Qed.

Lemma regex_match_inv s m :
  regex_match s = Some m ->
  exists pre x, s = pre ++ x /\ match_here x = Some m.
Proof.
  induction s as [|c s IH]; rewrite regex_match_eq.
  - destruct (match_here []) eqn:E; [|discriminate].
    intros [= ->]. now exists [], [].
  - destruct (match_here (c :: s)) eqn:E.
    + intros [= ->]. now exists [], (c :: s).
    + intro H. destruct (IH H) as (pre & x & -> & Hx).
      now exists (c :: pre), x.
Qed.

Lemma regex_match_app pre x m :
  match_here x = Some m -> exists m', regex_match (pre ++ x) = Some m'.
Proof.
  intro Hx. induction pre as [|c pre (m' & IH)]; cbn [app];
    rewrite regex_match_eq.
  - rewrite Hx. now exists m.
  - destruct (match_here (c :: pre ++ x)) as [m''|].
    + now exists m''.
    + now exists m'.
Qed.

Lemma parseCssColor_some_iff s :
  parseCssColor s <> None <-> regex_match s <> None.
Proof.
  unfold parseCssColor. destruct s as [|c s].
  - cbn. tauto.
  - destruct (regex_match (c :: s)) as [[[m1 m2] m3]|]; split; congruence.
Qed.

(** [parseCssColor] succeeds exactly on the strings that contain a text the
    pattern matches. *)
Lemma parseCssColor_accepts s :
  parseCssColor s <> None <-> contains_pattern s.
Proof.
  rewrite parseCssColor_some_iff. split.
  - destruct (regex_match s) as [[[g1 g2] g3]|] eqn:E; [|congruence].
    intros _. apply regex_match_inv in E.
    destruct E as (pre & x & -> & Hx).
    apply match_here_inv in Hx. destruct Hx as (k & rest & K & -> & P).
    apply paren_groups_inv in P.
    destruct P as (w0 & w1 & w2 & w3 & w4 & post & S & N & ->).
    exists pre, k, w0, g1, w1, w2, g2, w3, w4, g3, post.
    split; [exact K|]. split; [exact S|]. split; [exact N|]. reflexivity.
  - intros (pre & k & w0 & m1 & w1 & w2 & m2 & w3 & w4 & m3 & post
            & K & (S0 & S1 & S2 & S3 & S4) & (N1 & N2 & N3) & ->).
    destruct (paren_groups_app w0 m1 w1 w2 m2 w3 w4 m3 post)
      as (g3 & P); trivial.
    pose proof (match_here_app k _ _ K P) as M.
    destruct (regex_match_app pre _ _ M) as (m' & ->). discriminate.
Qed.

(** The accepted channels are the three captured runs, read by
    [parseFloat]. *)
Lemma parseCssColor_channels s c :
  parseCssColor s = Some c ->
  exists m1 m2 m3,
    (number_run m1 /\ number_run m2 /\ number_run m3)
    /\ c = mkRGB (parseFloat m1) (parseFloat m2) (parseFloat m3).
Proof.
  unfold parseCssColor. destruct s as [|c0 s]; [discriminate|].
  destruct (regex_match (c0 :: s)) as [[[g1 g2] g3]|] eqn:E; [|discriminate].
  intros [= <-]. apply regex_match_inv in E.
  destruct E as (pre & x & _ & Hx).
  apply match_here_inv in Hx. destruct Hx as (k & rest & _ & _ & P).
  apply paren_groups_inv in P.
  destruct P as (w0 & w1 & w2 & w3 & w4 & post & _ & N & _).
  now exists g1, g2, g3.
Qed.

Lemma match_here_has_paren s m : match_here s = Some m -> In (ch "(") s.
Proof.
  destruct m as [[g1 g2] g3]. intro H. apply match_here_inv in H.
  destruct H as (k & rest & _ & -> & P). apply paren_groups_inv in P.
  destruct P as (w0 & w1 & w2 & w3 & w4 & post & _ & _ & ->).
  apply in_or_app. right. now left.
Qed.

Lemma regex_match_no_paren s : ~ In (ch "(") s -> regex_match s = None.
Proof.
  intro H. destruct (regex_match s) as [m|] eqn:E; trivial.
  apply regex_match_inv in E. destruct E as (pre & x & -> & Hx).
  apply match_here_has_paren in Hx. exfalso. apply H.
  apply in_or_app. now right.
Qed.

Lemma parseCssColor_no_paren s : ~ In (ch "(") s -> parseCssColor s = None.
Proof.
  intro H. destruct (parseCssColor s) eqn:E; trivial.
  assert (N : parseCssColor s <> None) by congruence.
  apply parseCssColor_some_iff in N. now rewrite regex_match_no_paren in N.
Qed.

Lemma regex_match_skip c s :
  ci "R" c = false -> regex_match (c :: s) = regex_match s.
Proof.
  intro H. rewrite regex_match_eq. unfold match_here.
  destruct s as [|c2 [|c3 s']]; trivial. now rewrite H.
Qed.

Lemma rgb_form_contains s : rgb_form s -> contains_pattern s.
Proof.
  intros (w0 & m1 & w1 & w2 & m2 & w3 & w4 & m3 & w5
          & (S0 & S1 & S2 & S3 & S4 & S5) & N & ->).
  exists [], (str "rgb"), w0, m1, w1, w2, m2, w3, w4, m3, (w5 ++ [ch ")"]).
  split; [now left|]. split; [tauto|]. split; [exact N|].
  reflexivity.
Qed.

Lemma rgba_form_contains s : rgba_form s -> contains_pattern s.
Proof.
  intros (w0 & m1 & w1 & w2 & m2 & w3 & w4 & m3 & w5 & w6 & m4 & w7
          & (S0 & S1 & S2 & S3 & S4 & S5 & S6 & S7) & (N1 & N2 & N3 & N4)
          & ->).
  exists [], (str "rgba"), w0, m1, w1, w2, m2, w3, w4, m3,
    (w5 ++ ch "," :: w6 ++ m4 ++ w7 ++ [ch ")"]).
  split; [now right|]. split; [tauto|].
  split; [tauto|]. reflexivity.
Qed.

Lemma last_app_cons {A : Type} (l : list A) (x : A) (l' : list A) (d : A) :
  last (l ++ x :: l') d = last (x :: l') d.
Proof.
  induction l as [|y l IH]; trivial.
  cbn [app]. rewrite <- IH. destruct (l ++ x :: l') eqn:E; trivial.
  destruct l; discriminate.
Qed.

Lemma last_app_last {A : Type} (l : list A) (x : A) (d : A) :
  last (l ++ [x]) d = x.
Proof. now rewrite last_app_cons. Qed.

Lemma rgb_form_ends s : rgb_form s -> last s 0%N = ch ")".
Proof.
  intros (w0 & m1 & w1 & w2 & m2 & w3 & w4 & m3 & w5 & _ & _ & ->).
  repeat (rewrite app_comm_cons || rewrite app_assoc). apply last_app_last.
Qed.

Lemma rgba_form_ends s : rgba_form s -> last s 0%N = ch ")".
Proof.
  intros (w0 & m1 & w1 & w2 & m2 & w3 & w4 & m3 & w5 & w6 & m4 & w7
          & _ & _ & ->).
  repeat (rewrite app_comm_cons || rewrite app_assoc). apply last_app_last.
Qed.

(** C3, as amended: [parseCssColor] succeeds exactly on the strings that
    contain, anywhere, [rgb] or [rgba] in any letter case followed by an
    opening parenthesis and three comma-separated runs of digits and dots
    with optional white space around them; nothing is required before that
    text or after the third run.  So it succeeds on every string of the form
    [rgb(r,g,b)] or [rgba(r,g,b,a)], and it returns none for every string
    without an opening parenthesis (named colours, hex strings, the
    [transparent] keyword).  A text that starts with [hsl(] or [hsla(] is
    read as what follows that opening parenthesis is read: it gives none
    when no further opening parenthesis follows, as in
    [hsl(120, 100%, 50%)], and it is accepted when what follows contains
    the pattern itself: [hsl(from rgb(10, 20, 30) h s l)] gives the
    channels 10, 20 and 30. *)
Theorem parseCssColor_domain :
  (forall s, parseCssColor s <> None <-> contains_pattern s)
  /\ (forall s, rgb_form s \/ rgba_form s -> parseCssColor s <> None)
  /\ (forall s, ~ In (ch "(") s -> parseCssColor s = None)
  /\ (forall rest,
         parseCssColor (str "hsl(" ++ rest) = parseCssColor rest
         /\ parseCssColor (str "hsla(" ++ rest) = parseCssColor rest)
  /\ (forall rest,
         ~ In (ch "(") rest ->
         parseCssColor (str "hsl(" ++ rest) = None
         /\ parseCssColor (str "hsla(" ++ rest) = None)
  /\ parseCssColor (str "hsl(from rgb(10, 20, 30) h s l)")
     = Some (mkRGB (of_Z 10) (of_Z 20) (of_Z 30))
  /\ parseCssColor (str "transparent") = None
  /\ parseCssColor (str "#ffffff") = None
  /\ parseCssColor (str "blue") = None
  /\ parseCssColor (str "hsl(120, 100%, 50%)") = None
  /\ parseCssColor (str "rgb(10, 20, 30)")
     = Some (mkRGB (of_Z 10) (of_Z 20) (of_Z 30))
  /\ parseCssColor (str "rgba(10,20,30,0.5)")
     = Some (mkRGB (of_Z 10) (of_Z 20) (of_Z 30)).
Proof.
  split; [exact parseCssColor_accepts|].
  split.
  { intros s [H | H]; apply parseCssColor_accepts.
    - now apply rgb_form_contains.
    - now apply rgba_form_contains. }
  split; [exact parseCssColor_no_paren|].
  assert (Skip : forall rest,
             parseCssColor (str "hsl(" ++ rest) = parseCssColor rest
             /\ parseCssColor (str "hsla(" ++ rest) = parseCssColor rest).
  { intro rest. destruct rest as [|c rest]; [split; reflexivity|].
    split.
    - change (str "hsl(" ++ c :: rest)
        with (ch "h" :: ch "s" :: ch "l" :: ch "(" :: c :: rest).
      unfold parseCssColor.
      now rewrite 4!regex_match_skip by reflexivity.
    - change (str "hsla(" ++ c :: rest)
        with (ch "h" :: ch "s" :: ch "l" :: ch "a" :: ch "(" :: c :: rest).
      unfold parseCssColor.
      now rewrite 5!regex_match_skip by reflexivity. }
  split; [exact Skip|].
  split.
  { intros rest H. destruct (Skip rest) as [-> ->].
    split; now apply parseCssColor_no_paren. }
  repeat split; vm_compute; reflexivity.
Qed.

(** The two textual forms start with the letter [r]. *)
Lemma rgb_form_starts s : rgb_form s -> hd 0%N s = ch "r".
Proof.
  now intros (w0 & m1 & w1 & w2 & m2 & w3 & w4 & m3 & w5 & _ & _ & ->).
Qed.

Lemma rgba_form_starts s : rgba_form s -> hd 0%N s = ch "r".
Proof.
  now intros (w0 & m1 & w1 & w2 & m2 & w3 & w4 & m3 & w5 & w6 & m4 & w7
              & _ & _ & ->).
Qed.

(** C3 as stated fails: a text with no closing parenthesis is in neither
    textual form, and [parseCssColor] accepts it; so it does an [hsl(...)]
    form that has an [rgb(...)] colour inside. *)
Lemma parseCssColor_accepts_unclosed :
  (parseCssColor (str "rgb(1,2,3") <> None
   /\ ~ rgb_form (str "rgb(1,2,3")
   /\ ~ rgba_form (str "rgb(1,2,3"))
  /\ (parseCssColor (str "hsl(from rgb(10, 20, 30) h s l)") <> None
      /\ ~ rgb_form (str "hsl(from rgb(10, 20, 30) h s l)")
      /\ ~ rgba_form (str "hsl(from rgb(10, 20, 30) h s l)")).
Proof.
  split; (split; [|split]).
  - vm_compute. discriminate.
  - intro H. apply rgb_form_ends in H. vm_compute in H. discriminate.
  - intro H. apply rgba_form_ends in H. vm_compute in H. discriminate.
  - vm_compute. discriminate.
  - intro H. apply rgb_form_starts in H. vm_compute in H. discriminate.
  - intro H. apply rgba_form_starts in H. vm_compute in H. discriminate.
Qed.

End PatternFacts.

(* ================================================================== *)
(** * Signs of the numbers involved in a contrast ratio *)

Section SignFacts.

Local Open Scope Qc_scope.

Lemma this_Qcplus (a b : Qc) : (this (a + b) == this a + this b)%Q.
Proof. unfold Qcplus, Q2Qc, this. apply Qred_correct. Qed.

Lemma this_Qcmult (a b : Qc) : (this (a * b) == this a * this b)%Q.
Proof. unfold Qcmult, Q2Qc, this. apply Qred_correct. Qed.

Lemma this_Qcinv (a : Qc) : (this (/ a) == / this a)%Q.
Proof. unfold Qcinv, Q2Qc, this. apply Qred_correct. Qed.

Lemma Qc_add_nonneg a b : 0 <= a -> 0 <= b -> 0 <= a + b.
Proof.
  unfold Qcle. rewrite this_Qcplus. change (this 0) with 0%Q.
  intros. lra.
Qed.

Lemma Qc_add_pos a b : 0 <= a -> 0 < b -> 0 < a + b.
Proof.
  unfold Qcle, Qclt. rewrite this_Qcplus. change (this 0) with 0%Q.
  intros. lra.
Qed.

Lemma Qc_mul_nonneg a b : 0 <= a -> 0 <= b -> 0 <= a * b.
Proof.
  unfold Qcle. rewrite this_Qcmult. change (this 0) with 0%Q.
  apply Qmult_le_0_compat.
Qed.

Lemma Qc_inv_pos a : 0 < a -> 0 < / a.
Proof.
  unfold Qclt. rewrite this_Qcinv. change (this 0) with 0%Q.
  apply Qinv_lt_0_compat.
Qed.

Lemma Qc_mul_pos a b : 0 < a -> 0 < b -> 0 < a * b.
Proof.
  unfold Qclt. rewrite this_Qcmult. change (this 0) with 0%Q.
  apply Qmult_lt_0_compat.
Qed.

Lemma Qc_div_nonneg a b : 0 <= a -> 0 < b -> 0 <= a / b.
Proof.
  intros Ha Hb. unfold Qcdiv. apply Qc_mul_nonneg; trivial.
  apply Qclt_le_weak. now apply Qc_inv_pos.
Qed.

Lemma Qc_div_pos a b : 0 < a -> 0 < b -> 0 < a / b.
Proof.
  intros Ha Hb. unfold Qcdiv. apply Qc_mul_pos; trivial.
  now apply Qc_inv_pos.
Qed.

Lemma Qc_pos_nonzero a : 0 < a -> Qceqb a 0 = false.
Proof.
  intro H. apply Qceqb_neq. intros ->. now apply (Qclt_not_eq 0 0).
Qed.

Lemma Qc_pos_not_neg a : 0 <= a -> Qcltb a 0 = false.
Proof. intro H. now apply Qcltb_ge. Qed.

Lemma Q2Qc_nonneg z : (0 <= z)%Z -> 0 <= Q2Qc (inject_Z z).
Proof.
  intro H. unfold Qcle. rewrite !this_Q2Qc.
  unfold Qle, inject_Z. cbn [Qnum Qden]. lia.
Qed.

Lemma pow10_pos e : 0 < pow10 e.
Proof.
  assert (P : forall p, 0 < Q2Qc (inject_Z (10 ^ Z.pos p))).
  { intro p. unfold Qclt. rewrite !this_Q2Qc.
    unfold Qlt, inject_Z. cbn [Qnum Qden].
    pose proof (Z.pow_pos_nonneg 10 (Z.pos p)). lia. }
  destruct e as [|p|p]; cbn [pow10].
  - reflexivity.
  - apply P.
  - apply Qc_inv_pos, P.
Qed.

(** ** Division and the order on [number] *)

Lemma div_finite a b :
  0 < b -> div (Num a) (Num b) = Num (a / b).
Proof. intro H. unfold div. now rewrite Qc_pos_nonzero. Qed.

Lemma finite_nonneg_div x b :
  finite_nonneg x -> 0 < b -> finite_nonneg (div x (Num b)).
Proof.
  intros (a & -> & Ha) Hb. rewrite div_finite by trivial.
  exists (a / b). split; trivial. now apply Qc_div_nonneg.
Qed.

(** ** Digits *)

Lemma digits_value_from ds :
  forallb is_digit ds = true ->
  forall acc, (0 <= acc)%Z ->
    (0 <= fold_left (fun a c => 10 * a + digit_value c) ds acc)%Z.
Proof.
  induction ds as [|c ds IH]; cbn [forallb fold_left]; intros F acc Hacc.
  - trivial.
  - apply andb_true_iff in F. destruct F as [Dc F].
    apply IH; trivial.
    unfold is_digit in Dc. apply andb_true_iff in Dc.
    destruct Dc as [Lo _]. apply N.leb_le in Lo.
    unfold digit_value. lia.
Qed.

Lemma digits_value_nonneg ds :
  forallb is_digit ds = true -> (0 <= digits_value ds)%Z.
Proof. intro F. unfold digits_value. now apply digits_value_from. Qed.

Lemma span_digits s :
  forallb is_digit (fst (span is_digit s)) = true.
Proof.
  destruct (span is_digit s) as [run rest] eqn:E.
  apply span_spec in E. now destruct E as (_ & F & _).
Qed.

End SignFacts.

(* ================================================================== *)
(** * The contrast ratio *)

Section ContrastFacts.

Local Open Scope Qc_scope.

Variable pow_approx : Qc -> Qc -> Qc.

Local Abbreviation pow := (Math_pow pow_approx).
Local Abbreviation lin := (linearize pow_approx).
Local Abbreviation luminance := (relativeLuminance pow_approx).
Local Abbreviation contrast := (computeContrastRatio pow_approx).
Local Abbreviation contrast_at := (element_contrast pow_approx).
Local Abbreviation low_count := (count_low_contrast pow_approx).
Local Abbreviation is_low := (is_low_contrast pow_approx).
Local Abbreviation analyze := (analyzeDocument pow_approx).

(** [Math.pow] does not return a negative number for a positive base. *)
Hypothesis pow_nonneg : forall x e : Qc, 0 < x -> 0 <= pow_approx x e.

(** [Math.pow(1, 2.4)] is [1]. *)
Hypothesis pow_one : pow_approx 1 (Q2Qc 2.4) = 1.

(** Closed equalities between numbers, by evaluation. *)
Ltac num_compute :=
  vm_compute; first [reflexivity | f_equal; apply Qc_is_canon; reflexivity].

(** ** The channels that [parseCssColor] reads *)

Lemma parse_decimal_nonneg s q : parse_decimal s = Some q -> 0 <= q.
Proof.
  unfold parse_decimal.
  destruct (span is_digit s) as [ip s1] eqn:E1.
  assert (F1 : forallb is_digit ip = true)
    by (apply span_spec in E1; tauto).
  match goal with
  | |- context [let (fp, s2) := ?t in _] =>
      assert (K : forallb is_digit (fst t) = true)
  end.
  { destruct s1 as [|c s1']; trivial.
    destruct (c =? ch ".")%N; trivial.
    pose proof (span_digits s1') as F2.
    destruct (span is_digit s1') as [fp' s2'].
    destruct ip, fp'; trivial. }
  match goal with
  | |- context [let (fp, s2) := ?t in _] => destruct t as [fp s2]
  end.
  cbn [fst] in K.
  assert (N : 0 <= Q2Qc (inject_Z (digits_value (ip ++ fp)))
                   * pow10 (read_exponent s2 - Z.of_nat (List.length fp))).
  { apply Qc_mul_nonneg.
    - apply Q2Qc_nonneg, digits_value_nonneg.
      rewrite forallb_app. now rewrite F1, K.
    - apply Qclt_le_weak, pow10_pos. }
  destruct ip, fp; intros [= <-]; exact N.
Qed.

Lemma parseFloat_run m : number_run m -> nan_or_nonneg (parseFloat m).
Proof.
  intros [Hne F]. destruct m as [|c m']; [contradiction|].
  cbn [forallb] in F. apply andb_true_iff in F. destruct F as [Dc _].
  pose proof (digit_or_dot_not_space c Dc) as Sp.
  apply digit_or_dot_range in Dc.
  unfold parseFloat, trimStart. cbn [dropWhile]. rewrite Sp.
  unfold read_sign.
  replace (c =? ch "-")%N with false
    by (symmetry; apply N.eqb_neq; change (ch "-") with 45%N; lia).
  replace (c =? ch "+")%N with false
    by (symmetry; apply N.eqb_neq; change (ch "+") with 43%N; lia).
  change (strip_prefix (str "Infinity") (c :: m'))
    with (if (73 =? c)%N then strip_prefix (str "nfinity") m' else None).
  replace (73 =? c)%N with false by (symmetry; apply N.eqb_neq; lia).
  destruct (parse_decimal (c :: m')) as [q|] eqn:E.
  - right. exists q. split; trivial. now apply parse_decimal_nonneg in E.
  - now left.
Qed.

Lemma parsed_channels s c :
  parseCssColor s = Some c ->
  nan_or_nonneg (r c) /\ nan_or_nonneg (g c) /\ nan_or_nonneg (b c).
Proof.
  intro H. apply parseCssColor_channels in H.
  destruct H as (m1 & m2 & m3 & (N1 & N2 & N3) & ->). cbn [r g b].
  repeat split; now apply parseFloat_run.
Qed.

(** ** Luminance *)

Lemma Math_pow_pos x e :
  0 < x -> e <> 0 -> pow (Num x) (Num e) = Num (pow_approx x e).
Proof.
  intros Hx He. unfold Math_pow.
  apply Qceqb_neq in He. rewrite He.
  rewrite (Qc_pos_nonzero x Hx).
  rewrite (Qc_pos_not_neg x (Qclt_le_weak _ _ Hx)). reflexivity.
Qed.

Lemma linearize_NaN : lin NaN = NaN.
Proof. reflexivity. Qed.

Lemma linearize_finite x :
  finite_nonneg x -> finite_nonneg (lin x).
Proof.
  intros (q & -> & Hq). unfold linearize, lit.
  cbn [le]. destruct (Qcleb q (Q2Qc 0.03928)) eqn:E.
  - rewrite div_finite by reflexivity.
    exists (q / Q2Qc 12.92). split; trivial.
    now apply Qc_div_nonneg.
  - cbn [add]. rewrite div_finite by reflexivity.
    assert (B : 0 < (q + Q2Qc 0.055) / Q2Qc 1.055).
    { apply Qc_div_pos; [|reflexivity]. now apply Qc_add_pos. }
    rewrite Math_pow_pos; trivial; [|discriminate].
    eexists. split; [reflexivity|]. now apply pow_nonneg.
Qed.

Lemma mul_finite c x :
  0 <= c -> finite_nonneg x -> finite_nonneg (mul (Num c) x).
Proof.
  intros Hc (q & -> & Hq). exists (c * q). split; trivial.
  now apply Qc_mul_nonneg.
Qed.

Lemma add_finite x y :
  finite_nonneg x -> finite_nonneg y -> finite_nonneg (add x y).
Proof.
  intros (p & -> & Hp) (q & -> & Hq). exists (p + q). split; trivial.
  now apply Qc_add_nonneg.
Qed.

Lemma luminance_finite r g b :
  finite_nonneg r -> finite_nonneg g -> finite_nonneg b ->
  finite_nonneg (luminance r g b).
Proof.
  intros Hr Hg Hb. unfold relativeLuminance. cbv zeta. unfold lit.
  repeat apply add_finite; apply mul_finite; try discriminate;
    apply linearize_finite; apply finite_nonneg_div; trivial; reflexivity.
Qed.

Lemma add_NaN_r x : add x NaN = NaN.
Proof. now destruct x. Qed.

Lemma mul_NaN_r x : mul x NaN = NaN.
Proof. now destruct x. Qed.

Lemma luminance_sign r g b :
  nan_or_nonneg r -> nan_or_nonneg g -> nan_or_nonneg b ->
  nan_or_nonneg (luminance r g b).
Proof.
  intros [-> | Hr]; [now left|].
  intros [-> | Hg].
  { intros _. left. unfold relativeLuminance. cbv zeta.
    change (div NaN (lit 255)) with NaN. rewrite linearize_NaN.
    now rewrite mul_NaN_r, add_NaN_r. }
  intros [-> | Hb].
  { left. unfold relativeLuminance. cbv zeta.
    change (div NaN (lit 255)) with NaN. rewrite linearize_NaN.
    now rewrite mul_NaN_r, add_NaN_r. }
  right. now apply luminance_finite.
Qed.

(** ** The ratio *)

Lemma Math_max_NaN_r x : Math_max x NaN = NaN.
Proof. now destruct x. Qed.

Lemma Math_min_NaN_r x : Math_min x NaN = NaN.
Proof. now destruct x. Qed.

Lemma ratio_of_sign lum1 lum2 :
  nan_or_nonneg lum1 -> nan_or_nonneg lum2 -> nan_or_pos (ratio_of lum1 lum2).
Proof.
  unfold ratio_of.
  intros [-> | (p & -> & Hp)]; [now left|].
  intros [-> | (q & -> & Hq)]; [now left|].
  right. unfold Math_max, Math_min, lit. cbn [lt].
  assert (C : 0 < Q2Qc 0.05) by reflexivity.
  destruct (Qcltb p q), (Qcltb q p); cbn [add];
    rewrite div_finite by (now apply Qc_add_pos);
    eexists; (split; [reflexivity|]);
    apply Qc_div_pos; now apply Qc_add_pos.
Qed.

Lemma ratio_of_same lum : finite_nonneg lum -> ratio_of lum lum = lit 1.
Proof.
  intros (q & -> & Hq). unfold ratio_of, Math_max, Math_min, lit. cbn [lt].
  replace (Qcltb q q) with false
    by (symmetry; apply Qcltb_ge, Qcle_refl).
  cbn [add].
  assert (P : 0 < q + Q2Qc 0.05) by (now apply Qc_add_pos).
  rewrite div_finite by trivial. f_equal.
  unfold Qcdiv. apply Qcmult_inv_r.
  intros E. rewrite E in P. now apply (Qclt_not_eq 0 0).
Qed.

Lemma contrast_parsed fg bg cf cb :
  parseCssColor fg = Some cf -> parseCssColor bg = Some cb ->
  contrast fg bg
  = ratio_of (luminance (r cf) (g cf) (b cf)) (luminance (r cb) (g cb) (b cb)).
Proof.
  intros Ef Eb. unfold computeContrastRatio. now rewrite Ef, Eb.
Qed.

Lemma contrast_sign fg bg cf cb :
  parseCssColor fg = Some cf -> parseCssColor bg = Some cb ->
  nan_or_pos (contrast fg bg).
Proof.
  intros Ef Eb. rewrite (contrast_parsed fg bg cf cb) by trivial.
  destruct (parsed_channels fg cf Ef) as (F1 & F2 & F3).
  destruct (parsed_channels bg cb Eb) as (B1 & B2 & B3).
  apply ratio_of_sign; now apply luminance_sign.
Qed.

(** ** The count of low-contrast elements *)

Lemma low_count_from frame targets n :
  fold_left
    (fun lowContrastCount el =>
       let contrastRatio := contrast_at frame el in
       if gt contrastRatio (lit 0) && lt contrastRatio (lit 4.5)
       then S lowContrastCount else lowContrastCount)
    targets n
  = (n + List.length (filter (is_low frame) targets))%nat.
Proof.
  revert n. induction targets as [|el targets IH]; intro n;
    cbn [fold_left filter].
  - cbn. lia.
  - rewrite IH. cbv zeta. unfold is_low_contrast at 2.
    destruct (gt _ _ && lt _ _); cbn [List.length]; lia.
Qed.

Lemma low_count_filter frame targets :
  low_count frame targets = List.length (filter (is_low frame) targets).
Proof. unfold count_low_contrast. now rewrite low_count_from. Qed.

Lemma nan_or_pos_not_sentinel x : nan_or_pos x -> x <> lit (-1).
Proof.
  intros [-> | (q & -> & Hq)]; [discriminate|].
  unfold lit. intros [= ->]. revert Hq. now vm_compute.
Qed.

(** C6: [computeContrastRatio] returns [-1] exactly when one of the two
    colour strings fails to parse; otherwise it returns
    [(max(lum) + 0.05) / (min(lum) + 0.05)] of the two relative luminances;
    and the contrast check counts exactly the elements whose ratio is
    positive and below 4.5, so an element whose ratio is not positive is
    left out of the count.  ([Math.pow] is assumed not to return a negative
    number for a positive base: [pow_nonneg].) *)
Theorem contrast_ratio_sentinel :
  (forall fg bg,
     contrast fg bg = lit (-1)
     <-> parseCssColor fg = None \/ parseCssColor bg = None)
  /\ (forall fg bg cf cb,
        parseCssColor fg = Some cf -> parseCssColor bg = Some cb ->
        contrast fg bg
        = ratio_of (luminance (r cf) (g cf) (b cf))
                   (luminance (r cb) (g cb) (b cb)))
  /\ (forall frame targets,
        low_count frame targets
        = List.length (filter (is_low frame) targets))
  /\ (forall frame el,
        gt (contrast_at frame el) (lit 0) = false -> is_low frame el = false)
  /\ (forall frame before el after,
        gt (contrast_at frame el) (lit 0) = false ->
        low_count frame (before ++ el :: after)
        = low_count frame (before ++ after)).
Proof.
  split; [|split; [|split; [|split]]].
  - intros fg bg. split.
    + intro H.
      destruct (parseCssColor fg) as [cf|] eqn:Ef; [|now left].
      destruct (parseCssColor bg) as [cb|] eqn:Eb; [|now right].
      exfalso. revert H. apply nan_or_pos_not_sentinel.
      now apply (contrast_sign fg bg cf cb).
    + unfold computeContrastRatio. intros [-> | ->]; trivial.
      now destruct (parseCssColor fg).
  - exact contrast_parsed.
  - exact low_count_filter.
  - intros frame el H. unfold is_low_contrast. now rewrite H.
  - intros frame before el after H. rewrite !low_count_filter.
    rewrite !filter_app. cbn [filter].
    unfold is_low_contrast at 2. now rewrite H.
Qed.

(** ** Black on white, and a colour on itself *)

Lemma linearize_zero : lin (lit 0) = lit 0.
Proof. num_compute. Qed.

Lemma linearize_one : lin (lit 1) = lit 1.
Proof.
  unfold linearize.
  replace (le (lit 1) (lit 0.03928)) with false by (vm_compute; reflexivity).
  replace (div (add (lit 1) (lit 0.055)) (lit 1.055)) with (lit 1)
    by (symmetry; num_compute).
  unfold lit. rewrite Math_pow_pos; [|reflexivity|discriminate].
  now rewrite pow_one.
Qed.

Lemma luminance_black : luminance (lit 0) (lit 0) (lit 0) = lit 0.
Proof.
  unfold relativeLuminance. cbv zeta.
  replace (div (lit 0) (lit 255)) with (lit 0) by (symmetry; num_compute).
  rewrite linearize_zero. num_compute.
Qed.

Lemma luminance_white : luminance (lit 255) (lit 255) (lit 255) = lit 1.
Proof.
  unfold relativeLuminance. cbv zeta.
  replace (div (lit 255) (lit 255)) with (lit 1) by (symmetry; num_compute).
  rewrite linearize_one. num_compute.
Qed.

Lemma contrast_black_on_white fg bg :
  parseCssColor fg = Some (mkRGB (lit 0) (lit 0) (lit 0)) ->
  parseCssColor bg = Some (mkRGB (lit 255) (lit 255) (lit 255)) ->
  contrast fg bg = lit 21.
Proof.
  intros Ef Eb. rewrite (contrast_parsed _ _ _ _ Ef Eb). cbn [r g b].
  rewrite luminance_black, luminance_white. num_compute.
Qed.

Lemma contrast_white_on_black fg bg :
  parseCssColor fg = Some (mkRGB (lit 255) (lit 255) (lit 255)) ->
  parseCssColor bg = Some (mkRGB (lit 0) (lit 0) (lit 0)) ->
  contrast fg bg = lit 21.
Proof.
  intros Ef Eb. rewrite (contrast_parsed _ _ _ _ Ef Eb). cbn [r g b].
  rewrite luminance_black, luminance_white. num_compute.
Qed.

Lemma contrast_white_on_white fg bg :
  parseCssColor fg = Some (mkRGB (lit 255) (lit 255) (lit 255)) ->
  parseCssColor bg = Some (mkRGB (lit 255) (lit 255) (lit 255)) ->
  contrast fg bg = lit 1.
Proof.
  intros Ef Eb. rewrite (contrast_parsed _ _ _ _ Ef Eb). cbn [r g b].
  rewrite luminance_white. num_compute.
Qed.

Lemma parse_black :
  parseCssColor (str "rgb(0,0,0)") = Some (mkRGB (lit 0) (lit 0) (lit 0))
  /\ parseCssColor (str "rgb(0, 0, 0)")
     = Some (mkRGB (lit 0) (lit 0) (lit 0)).
Proof. split; vm_compute; reflexivity. Qed.

Lemma parse_white :
  parseCssColor (str "rgb(255,255,255)")
  = Some (mkRGB (lit 255) (lit 255) (lit 255))
  /\ parseCssColor (str "rgb(255, 255, 255)")
     = Some (mkRGB (lit 255) (lit 255) (lit 255)).
Proof. split; vm_compute; reflexivity. Qed.

Lemma in_channel_range_finite x : in_channel_range x -> finite_nonneg x.
Proof. intros (q & -> & H0 & _). now exists q. Qed.

Lemma luminance_in_range col :
  rgb_in_range col -> finite_nonneg (luminance (r col) (g col) (b col)).
Proof.
  intros (Hr & Hg & Hb).
  apply luminance_finite; now apply in_channel_range_finite.
Qed.

(** C8, as amended: the contrast ratio of black on white is 21, and for
    every colour string that [parseCssColor] accepts with three channels
    from 0 to 255, the contrast ratio of the colour with itself is 1.  The
    range is the one of the data model; it keeps the channels that are read
    as [NaN] out, and the channels so large that [Math.pow] overflows.
    (Assumptions on [Math.pow]: [pow_one] for the first part, [pow_nonneg]
    for the second.) *)
Theorem contrast_extremes :
  contrast (str "rgb(0,0,0)") (str "rgb(255,255,255)") = lit 21
  /\ (forall (c : jsstring) (col : RGBColor),
        parseCssColor c = Some col ->
        rgb_in_range col ->
        contrast c c = lit 1).
Proof.
  split.
  - apply contrast_black_on_white; [apply parse_black|apply parse_white].
  - intros c col Ec Hcol.
    rewrite (contrast_parsed c c col col Ec Ec).
    apply ratio_of_same. now apply luminance_in_range.
Qed.

(** ** Scenario A *)

Lemma small_count_from frame nodes n :
  fold_left
    (fun smallTextCount el =>
       let style := getComputedStyle frame el in
       let fontSizePx := parseFloat (fontSize style) in
       if negb (isNaN fontSizePx) && lt fontSizePx (lit 12)
       then S smallTextCount else smallTextCount)
    nodes n
  = (n + List.length (filter (is_small_text frame) nodes))%nat.
Proof.
  revert n. induction nodes as [|el nodes IH]; intro n;
    cbn [fold_left filter].
  - cbn. lia.
  - rewrite IH. cbv zeta. unfold is_small_text at 2.
    destruct (negb _ && lt _ _); cbn [List.length]; lia.
Qed.

Lemma small_count_filter frame nodes :
  count_small_text frame nodes
  = List.length (filter (is_small_text frame) nodes).
Proof. unfold count_small_text. now rewrite small_count_from. Qed.

Lemma filter_none {A : Type} (f : A -> bool) (l : list A) :
  (forall x, In x l -> f x = false) -> filter f l = [].
Proof.
  induction l as [|x l IH]; intro H; cbn [filter]; trivial.
  rewrite (H x) by now left. apply IH. intros y Hy. apply H. now right.
Qed.

(** C2: a document with ten images of which six lack alt text, no heading,
    every font size 16px, black text on a white background throughout and no
    horizontal overflow has the sub-scores 30, 50, 100, 100 and 100, and
    the final score 76.  (The white channels go through [Math.pow]:
    [pow_one] is assumed.) *)
Theorem scenario_A :
  forall (doc : Document) (frame : Frame),
    List.length (getElementsByTagName doc (str "img")) = 10%nat ->
    List.length (filter lacks_alt (getElementsByTagName doc (str "img")))
    = 6%nat ->
    querySelectorAll doc heading_names = [] ->
    (forall el, In el (querySelectorAll doc text_names) ->
                fontSize (getComputedStyle frame el) = str "16px") ->
    (forall el, In el (querySelectorAll doc contrast_names) ->
                color (getComputedStyle frame el) = str "rgb(0, 0, 0)"
                /\ resolved_background frame el = str "rgb(255, 255, 255)") ->
    (scrollWidth (documentElement doc) <= clientWidth (documentElement doc))%Z ->
    subScores pow_approx doc frame = [30; 50; 100; 100; 100]%Z
    /\ finalScore (analyze doc frame) = of_Z 76.
Proof.
  intros doc frame Himg Hmiss Hhead Hfont Hcol Hscroll.
  assert (Sa : sub_alt doc = 30%Z).
  { unfold sub_alt. cbv zeta.
    now rewrite count_missing_alt_filter, Himg, Hmiss. }
  assert (Sh : sub_heading doc = 50%Z)
    by (unfold sub_heading; now rewrite Hhead).
  assert (Sf : sub_font doc frame = 100%Z).
  { unfold sub_font. cbv zeta. rewrite small_count_filter.
    rewrite filter_none; [reflexivity|].
    intros el Hel. unfold is_small_text. now rewrite (Hfont el Hel). }
  assert (Sc : sub_contrast pow_approx doc frame = 100%Z).
  { unfold sub_contrast. cbv zeta. rewrite low_count_filter.
    rewrite filter_none; [reflexivity|].
    intros el Hel. destruct (Hcol el Hel) as (Cf & Cb).
    unfold is_low_contrast, element_contrast. cbv zeta.
    rewrite Cf, Cb.
    rewrite contrast_black_on_white;
      [reflexivity|apply parse_black|apply parse_white]. }
  assert (Sr : sub_responsive doc = 100%Z).
  { unfold sub_responsive, responsive_score.
    destruct (hasHorizontalScroll doc) eqn:E; trivial.
    apply hasHorizontalScroll_gt in E. lia. }
  split.
  - unfold subScores. now rewrite Sa, Sh, Sf, Sc, Sr.
  - rewrite final_score_unfold, Sa, Sh, Sf, Sc, Sr.
    change (30 + 50 + 100 + 100 + 100)%Z with (5 * 76)%Z.
    now rewrite round_fifth.
Qed.

End ContrastFacts.

(* ================================================================== *)
(** * The statements above on concrete inputs *)

Lemma coarse_pow_nonneg (x e : Qc) :
  (0 < x)%Qc -> (0 <= Examples.coarse_pow x e)%Qc.
Proof.
  intro H. unfold Examples.coarse_pow.
  apply Qc_mul_nonneg; now apply Qclt_le_weak.
Qed.

Lemma coarse_pow_one : Examples.coarse_pow 1 (Q2Qc 2.4) = 1%Qc.
Proof. apply Qc_is_canon. reflexivity. Qed.

Lemma contrast_ratio_sentinel_witness :
  (computeContrastRatio Examples.coarse_pow (str "blue") Examples.black
   = lit (-1)
   <-> parseCssColor (str "blue") = None
       \/ parseCssColor Examples.black = None)
  /\ computeContrastRatio Examples.coarse_pow (str "blue") Examples.black
     = lit (-1).
Proof.
  pose proof (contrast_ratio_sentinel Examples.coarse_pow coarse_pow_nonneg)
    as (Sentinel & _).
  split.
  - apply Sentinel.
  - apply Sentinel. left. reflexivity.
Defined.

Lemma contrast_extremes_witness :
  computeContrastRatio Examples.coarse_pow
    (str "rgb(0,0,0)") (str "rgb(255,255,255)") = lit 21
  /\ computeContrastRatio Examples.coarse_pow
       (str "rgba(10,20,30,0.5)") (str "rgba(10,20,30,0.5)") = lit 1.
Proof.
  pose proof (contrast_extremes Examples.coarse_pow coarse_pow_nonneg
                coarse_pow_one) as (BlackWhite & Same).
  split.
  - exact BlackWhite.
  - apply (Same (str "rgba(10,20,30,0.5)")
                (mkRGB (of_Z 10) (of_Z 20) (of_Z 30))).
    + vm_compute. reflexivity.
    + split; [|split]; eexists; (split; [reflexivity|]);
        split; vm_compute; discriminate.
Defined.

Lemma scenario_A_witness :
  subScores Examples.coarse_pow Examples.scenario_doc Examples.scenario_frame
  = [30; 50; 100; 100; 100]
  /\ finalScore (analyzeDocument Examples.coarse_pow Examples.scenario_doc
                   Examples.scenario_frame)
     = of_Z 76.
Proof.
  apply (scenario_A Examples.coarse_pow coarse_pow_one).
  - vm_compute. reflexivity.
  - vm_compute. reflexivity.
  - vm_compute. reflexivity.
  - intros el H. apply jsstring_eqb_eq. revert el H. apply forallb_forall.
    vm_compute. reflexivity.
  - intros el H.
    assert (K : JsString.eqb
                  (color (getComputedStyle Examples.scenario_frame el))
                  (str "rgb(0, 0, 0)")
                && JsString.eqb
                     (resolved_background Examples.scenario_frame el)
                     (str "rgb(255, 255, 255)") = true).
    { revert el H. apply forallb_forall. vm_compute. reflexivity. }
    apply andb_true_iff in K. destruct K as [K1 K2].
    split; now apply jsstring_eqb_eq.
  - vm_compute. discriminate.
Defined.

(** C8 as stated fails: [parseCssColor] accepts a colour whose channels are
    lone dots; they are read as [NaN], and the contrast ratio of that colour
    with itself is [NaN], not 1. *)
Lemma contrast_of_dots_is_NaN :
  parseCssColor (str "rgb(.,.,.)") <> None
  /\ (forall pow_approx : Qc -> Qc -> Qc,
        computeContrastRatio pow_approx (str "rgb(.,.,.)") (str "rgb(.,.,.)")
        = NaN
        /\ computeContrastRatio pow_approx (str "rgb(.,.,.)")
             (str "rgb(.,.,.)") <> lit 1).
Proof.
  split.
  - vm_compute. discriminate.
  - intro pow_approx. split.
    + vm_compute. reflexivity.
    + vm_compute. discriminate.
Qed.

(* ================================================================== *)
(** * More on the five checks *)

Section CheckFacts.

Local Open Scope Qc_scope.

Variable pow_approx : Qc -> Qc -> Qc.

Local Abbreviation analyze := (analyzeDocument pow_approx).
Local Abbreviation contrast_of := (sub_contrast pow_approx).
Local Abbreviation low_count := (count_low_contrast pow_approx).
Local Abbreviation is_low := (is_low_contrast pow_approx).

(** A count exceeds a fraction of a length: the comparison of the source,
    on the rationals. *)
Lemma gt_fraction (count n : nat) (q : Q) :
  gt (JsNumber.of_nat count) (mul (JsNumber.of_nat n) (lit q)) = true
  <-> (inject_Z (Z.of_nat n) * q < inject_Z (Z.of_nat count))%Q.
Proof.
  unfold JsNumber.of_nat, of_Z, lit, gt. cbn [mul lt].
  rewrite Qcltb_lt. unfold Qclt.
  rewrite this_Qcmult, !this_Q2Qc. reflexivity.
Qed.

Lemma gt_three_tenths (count n : nat) :
  gt (JsNumber.of_nat count) (mul (JsNumber.of_nat n) (lit 0.3)) = true
  <-> (3 * n < 10 * count)%nat.
Proof.
  rewrite gt_fraction. unfold Qlt, Qmult, inject_Z. cbn [Qnum Qden]. lia.
Qed.

Lemma gt_two_tenths (count n : nat) :
  gt (JsNumber.of_nat count) (mul (JsNumber.of_nat n) (lit 0.2)) = true
  <-> (n < 5 * count)%nat.
Proof.
  rewrite gt_fraction. unfold Qlt, Qmult, inject_Z. cbn [Qnum Qden]. lia.
Qed.

(** The two tiered scores, by integer comparisons. *)
Lemma font_score_int (nodes small : nat) :
  font_score nodes small =
  if (small =? 0)%nat then 100%Z
  else if (3 * nodes <? 10 * small)%nat then 60%Z else 80%Z.
Proof.
  unfold font_score. destruct small as [|k]; [reflexivity|].
  change (0 <? S k)%nat with true. change (S k =? 0)%nat with false.
  cbv iota.
  destruct (gt _ _) eqn:G.
  - apply gt_three_tenths in G. apply Nat.ltb_lt in G. now rewrite G.
  - destruct (3 * nodes <? 10 * S k)%nat eqn:L; trivial.
    apply Nat.ltb_lt, gt_three_tenths in L. congruence.
Qed.

Lemma contrast_score_int (targets low : nat) :
  contrast_score targets low =
  if (low =? 0)%nat then 100%Z
  else if (targets <? 5 * low)%nat then 55%Z else 75%Z.
Proof.
  unfold contrast_score. destruct low as [|k]; [reflexivity|].
  change (0 <? S k)%nat with true. change (S k =? 0)%nat with false.
  cbv iota.
  destruct (gt _ _) eqn:G.
  - apply gt_two_tenths in G. apply Nat.ltb_lt in G. now rewrite G.
  - destruct (targets <? 5 * S k)%nat eqn:L; trivial.
    apply Nat.ltb_lt, gt_two_tenths in L. congruence.
Qed.

(** X1: the font size check counts the elements whose computed font size
    reads as a number below 12 (a size that does not read as a number is
    never counted); the sub-score is 100 when it counts none, 60 when it
    counts more than three tenths of the elements and 80 otherwise, and the
    issue is a [warning] exactly when it counts some. *)
Theorem font_size_check :
  forall (doc : Document) (frame : Frame),
    let nodes := querySelectorAll doc text_names in
    let small := List.length (filter (is_small_text frame) nodes) in
    count_small_text frame nodes = small
    /\ (forall el,
          parseFloat (fontSize (getComputedStyle frame el)) = NaN ->
          is_small_text frame el = false)
    /\ (sub_font doc frame = 100%Z <-> small = 0%nat)
    /\ (sub_font doc frame = 60%Z
        <-> (0 < small)%nat /\ (3 * List.length nodes < 10 * small)%nat)
    /\ (sub_font doc frame = 80%Z
        <-> (0 < small)%nat /\ (10 * small <= 3 * List.length nodes)%nat)
    /\ (issue_severity (analyze doc frame) 2 = Some warning
        <-> (0 < small)%nat)
    /\ (issue_severity (analyze doc frame) 2 = Some ok <-> small = 0%nat).
Proof.
  intros doc frame nodes small.
  destruct (analyze_severities pow_approx doc frame) as (_ & _ & -> & _).
  fold nodes. unfold sub_font. cbv zeta. fold nodes.
  rewrite small_count_filter. fold small. rewrite font_score_int.
  split; [reflexivity|]. split.
  { intros el E. unfold is_small_text. now rewrite E. }
  unfold font_severity.
  destruct small as [|k];
    [change (0 <? 0)%nat with false; change (0 =? 0)%nat with true
    |change (0 <? S k)%nat with true; change (S k =? 0)%nat with false];
    cbv iota.
  - repeat split; intros; try lia; try easy.
  - destruct (3 * List.length nodes <? 10 * S k)%nat eqn:L.
    + apply Nat.ltb_lt in L. repeat split; intros; try lia; try easy.
    + apply Nat.ltb_ge in L. repeat split; intros; try lia; try easy.
Qed.

(** X2: the contrast sub-score is 100 when no element is counted as low in
    contrast, 55 when more than a fifth of the inspected elements are, and
    75 otherwise; the issue is [critical] exactly when some element is
    counted. *)
Theorem contrast_score_check :
  forall (doc : Document) (frame : Frame),
    let targets := querySelectorAll doc contrast_names in
    let low := List.length (filter (is_low frame) targets) in
    low_count frame targets = low
    /\ (contrast_of doc frame = 100%Z <-> low = 0%nat)
    /\ (contrast_of doc frame = 55%Z
        <-> (0 < low)%nat /\ (List.length targets < 5 * low)%nat)
    /\ (contrast_of doc frame = 75%Z
        <-> (0 < low)%nat /\ (5 * low <= List.length targets)%nat)
    /\ (issue_severity (analyze doc frame) 3 = Some critical
        <-> (0 < low)%nat)
    /\ (issue_severity (analyze doc frame) 3 = Some ok <-> low = 0%nat).
Proof.
  intros doc frame targets low.
  destruct (analyze_severities pow_approx doc frame) as (_ & _ & _ & -> & _).
  fold targets. unfold sub_contrast. cbv zeta. fold targets.
  rewrite low_count_filter. fold low. rewrite contrast_score_int.
  split; [reflexivity|].
  unfold contrast_severity.
  destruct low as [|k];
    [change (0 <? 0)%nat with false; change (0 =? 0)%nat with true
    |change (0 <? S k)%nat with true; change (S k =? 0)%nat with false];
    cbv iota.
  - repeat split; intros; try lia; try easy.
  - destruct (List.length targets <? 5 * S k)%nat eqn:L.
    + apply Nat.ltb_lt in L. repeat split; intros; try lia; try easy.
    + apply Nat.ltb_ge in L. repeat split; intros; try lia; try easy.
Qed.

(** X3: the heading sub-score is 50 exactly when the document has no
    heading and 70 exactly when some heading exceeds the level of the one
    before it by more than one; the first heading is never a jump, so a
    single heading of any level gives 100; the issue is [ok] exactly when
    the sub-score is 100 and a [warning] otherwise. *)
Theorem heading_score_and_severity :
  forall (doc : Document) (frame : Frame),
    let hs := querySelectorAll doc heading_names in
    let levels := map heading_rank hs in
    count_jumps hs = rank_jumps levels
    /\ (sub_heading doc = 50%Z <-> hs = [])
    /\ (sub_heading doc = 70%Z <-> hs <> [] /\ gentle levels = false)
    /\ (List.length hs = 1%nat -> sub_heading doc = 100%Z)
    /\ (issue_severity (analyze doc frame) 1 = Some ok
        <-> sub_heading doc = 100%Z)
    /\ (issue_severity (analyze doc frame) 1 = Some warning
        <-> sub_heading doc <> 100%Z).
Proof.
  intros doc frame hs levels.
  destruct (analyze_severities pow_approx doc frame) as (_ & -> & _).
  fold hs.
  destruct (heading_score_cases doc) as (C50 & C70 & C100).
  fold hs in C50, C70, C100. fold levels in C70, C100.
  split; [apply count_jumps_ranks, headings_are_headings|].
  split; [exact C50|]. split; [exact C70|].
  split.
  { intro L. apply C100. split.
    - intros E. rewrite E in L. discriminate.
    - unfold levels. destruct hs as [|h [|h' t]]; try discriminate.
      reflexivity. }
  unfold heading_severity, sub_heading, heading_score. fold hs.
  destruct (List.length hs =? 0)%nat.
  - split; split; intro; try discriminate; try lia; try easy.
  - destruct (0 <? count_jumps hs)%nat;
      split; split; intro; try discriminate; try lia; try easy.
Qed.

(** ** The best and the emptiest documents *)

Lemma of_Z_inj (a b : Z) : of_Z a = of_Z b -> a = b.
Proof.
  unfold of_Z. intro E.
  assert (E' : Q2Qc (inject_Z a) = Q2Qc (inject_Z b)) by congruence.
  assert (Q : (inject_Z a == inject_Z b)%Q).
  { rewrite <- (this_Q2Qc (inject_Z a)), <- (this_Q2Qc (inject_Z b)).
    now rewrite E'. }
  unfold Qeq, inject_Z in Q. cbn [Qnum Qden] in Q. lia.
Qed.

(** The final score is a fifth of the sum of the sub-scores. *)
Lemma final_score_integer doc frame :
  exists score : Z,
    finalScore (analyze doc frame) = of_Z score
    /\ (5 * score = sub_alt doc + sub_heading doc + sub_font doc frame
                    + contrast_of doc frame + sub_responsive doc)%Z
    /\ (52 <= score <= 100)%Z.
Proof.
  pose proof (alt_score_tier
                (List.length (getElementsByTagName doc (str "img")))
                (count_missing_alt (getElementsByTagName doc (str "img"))))
    as Ha.
  pose proof (heading_score_tier (querySelectorAll doc heading_names)) as Hh.
  pose proof (font_score_tier
                (List.length (querySelectorAll doc text_names))
                (count_small_text frame (querySelectorAll doc text_names)))
    as Hf.
  pose proof (contrast_score_tier
                (List.length (querySelectorAll doc contrast_names))
                (low_count frame (querySelectorAll doc contrast_names)))
    as Hc.
  pose proof (responsive_score_tier doc) as Hr.
  change (In (sub_alt doc) [30; 60; 90; 100]%Z) in Ha.
  change (In (sub_heading doc) [50; 70; 100]%Z) in Hh.
  change (In (sub_font doc frame) [60; 80; 100]%Z) in Hf.
  change (In (contrast_of doc frame) [55; 75; 100]%Z) in Hc.
  change (In (sub_responsive doc) [65; 100]%Z) in Hr.
  rewrite final_score_unfold.
  set (total := (sub_alt doc + sub_heading doc + sub_font doc frame
                 + contrast_of doc frame + sub_responsive doc)%Z).
  assert (D : (total mod 5 = 0 /\ 260 <= total <= 500)%Z).
  { cbn [In] in Ha, Hh, Hf, Hc, Hr. unfold total. split.
    - repeat match goal with H : _ \/ _ |- _ => destruct H as [<- | H] end;
        try contradiction; reflexivity.
    - lia. }
  pose proof (Z.div_mod total 5) as DM.
  exists (total / 5)%Z.
  replace total with (5 * (total / 5))%Z at 1 by lia.
  rewrite round_fifth. repeat split; lia.
Qed.

Lemma alt_score_full total missing :
  alt_score total missing = 100%Z <-> total = 0%nat.
Proof.
  unfold alt_score. destruct total as [|t].
  - cbn. tauto.
  - change (0 <? S t)%nat with true. cbv iota zeta.
    destruct (gt _ _); [split; discriminate|].
    destruct (gt _ _); split; discriminate.
Qed.

(** X4: the alt-text sub-score is 100 only for a document without any
    image (with images it is at most 90, even when every image has alt
    text), so a document with an image scores at most 98; the final score
    is 100 exactly when there is no image and the four other sub-scores
    are 100. *)
Theorem perfect_score_needs_no_image :
  forall (doc : Document) (frame : Frame),
    let imgs := getElementsByTagName doc (str "img") in
    (sub_alt doc = 100%Z <-> imgs = [])
    /\ (imgs <> [] -> (sub_alt doc <= 90)%Z)
    /\ (imgs <> [] ->
        exists score : Z,
          finalScore (analyze doc frame) = of_Z score /\ (score <= 98)%Z)
    /\ (finalScore (analyze doc frame) = of_Z 100
        <-> imgs = [] /\ sub_heading doc = 100%Z
            /\ sub_font doc frame = 100%Z /\ contrast_of doc frame = 100%Z
            /\ sub_responsive doc = 100%Z).
Proof.
  intros doc frame imgs.
  assert (Full : sub_alt doc = 100%Z <-> imgs = []).
  { unfold sub_alt. cbv zeta. fold imgs. rewrite alt_score_full.
    apply length_zero_iff_nil. }
  pose proof (alt_score_tier (List.length imgs) (count_missing_alt imgs))
    as Ha.
  change (In (sub_alt doc) [30; 60; 90; 100]%Z) in Ha.
  pose proof (heading_score_tier (querySelectorAll doc heading_names)) as Hh.
  change (In (sub_heading doc) [50; 70; 100]%Z) in Hh.
  pose proof (font_score_tier
                (List.length (querySelectorAll doc text_names))
                (count_small_text frame (querySelectorAll doc text_names)))
    as Hf.
  change (In (sub_font doc frame) [60; 80; 100]%Z) in Hf.
  pose proof (contrast_score_tier
                (List.length (querySelectorAll doc contrast_names))
                (low_count frame (querySelectorAll doc contrast_names)))
    as Hc.
  change (In (contrast_of doc frame) [55; 75; 100]%Z) in Hc.
  pose proof (responsive_score_tier doc) as Hr.
  change (In (sub_responsive doc) [65; 100]%Z) in Hr.
  cbn [In] in Ha, Hh, Hf, Hc, Hr.
  destruct (final_score_integer doc frame) as (score & Es & Sum & Rg).
  assert (Low : imgs <> [] -> (sub_alt doc <= 90)%Z).
  { intro Hne. assert (sub_alt doc <> 100%Z) by (rewrite Full; exact Hne).
    lia. }
  split; [exact Full|]. split; [exact Low|]. split.
  - intro Hne. exists score. split; trivial. specialize (Low Hne). lia.
  - rewrite Es. split.
    + intro E. apply of_Z_inj in E. subst score.
      assert (sub_alt doc = 100%Z) by lia.
      rewrite <- Full. repeat split; trivial; lia.
    + intros (E0 & E1 & E2 & E3 & E4). apply Full in E0.
      f_equal. lia.
Qed.

Lemma querySelectorAll_none doc names :
  (forall el, In el (elements doc) -> ~ In (localName el) names) ->
  querySelectorAll doc names = [].
Proof.
  intro H. destruct (querySelectorAll doc names) as [|el l] eqn:E; trivial.
  assert (Hin : In el (querySelectorAll doc names)) by (rewrite E; now left).
  apply querySelectorAll_In in Hin. destruct Hin as (Hel & Hn).
  now destruct (H el Hel).
Qed.

Lemma getElementsByTagName_selector doc name :
  getElementsByTagName doc name = querySelectorAll doc [name].
Proof.
  unfold getElementsByTagName, querySelectorAll. apply filter_ext.
  intro el. cbn [existsb]. now rewrite orb_false_r.
Qed.

(** X5: a document in which no element is selected by any check (no image,
    heading, paragraph, list item, link, span or button) and whose root does
    not overflow gets the sub-scores 100, 50, 100, 100 and 100: the final
    score is 90, not 100, and the heading issue is a [warning] while the
    four others are [ok]. *)
Theorem no_selected_element :
  forall (doc : Document) (frame : Frame),
    (forall el, In el (elements doc) -> ~ In (localName el) relevant_names) ->
    (scrollWidth (documentElement doc)
     <= clientWidth (documentElement doc) + 5)%Z ->
    subScores pow_approx doc frame = [100; 50; 100; 100; 100]%Z
    /\ finalScore (analyze doc frame) = of_Z 90
    /\ map severity (issues (analyze doc frame)) = [ok; warning; ok; ok; ok].
Proof.
  intros doc frame Hnone Hw.
  assert (Qi : getElementsByTagName doc (str "img") = []).
  { rewrite getElementsByTagName_selector. apply querySelectorAll_none.
    intros el Hel [E | []]. apply (Hnone el Hel). left. exact E. }
  assert (Qh : querySelectorAll doc heading_names = []).
  { apply querySelectorAll_none. intros el Hel Hin. apply (Hnone el Hel).
    right. apply in_or_app. now left. }
  assert (Qt : querySelectorAll doc text_names = []).
  { apply querySelectorAll_none. intros el Hel Hin. apply (Hnone el Hel).
    right. apply in_or_app. right. apply in_or_app. now left. }
  assert (Qc : querySelectorAll doc contrast_names = []).
  { apply querySelectorAll_none. intros el Hel Hin. apply (Hnone el Hel).
    right. apply in_or_app. right. apply in_or_app. now right. }
  assert (Sc : hasHorizontalScroll doc = false).
  { destruct (hasHorizontalScroll doc) eqn:E; trivial.
    apply hasHorizontalScroll_gt in E. lia. }
  assert (Scores : subScores pow_approx doc frame
                   = [100; 50; 100; 100; 100]%Z).
  { unfold subScores, sub_alt, sub_heading, sub_font, sub_contrast,
      sub_responsive, responsive_score.
    cbv zeta. now rewrite Qi, Qh, Qt, Qc, Sc. }
  split; [exact Scores|]. split.
  - rewrite final_score_unfold.
    unfold subScores in Scores. injection Scores as -> -> -> -> ->.
    change (100 + 50 + 100 + 100 + 100)%Z with (5 * 90)%Z.
    now rewrite round_fifth.
  - rewrite analyze_unfold. cbn [issues].
    destruct (final_issues pow_approx doc frame)
      as (t1 & t2 & t3 & t4 & t5 & ->).
    cbn [map severity].
    unfold responsive_severity. rewrite Qi, Qh, Qt, Qc, Sc. reflexivity.
Qed.

(** ** Fixing more never lowers a score *)

Lemma Qlt_div_iff (a b c : Q) :
  (0 < c)%Q -> (a < b / c <-> a * c < b)%Q.
Proof.
  intro Hc. split; intro H.
  - apply (Qmult_lt_compat_r _ _ c) in H; trivial.
    setoid_replace (b / c * c)%Q with b in H; trivial.
    field. intro E. rewrite E in Hc. now apply (Qlt_irrefl 0).
  - now apply Qlt_shift_div_l.
Qed.

Lemma ratio_exceeds (q : Q) (missing total : nat) :
  total <> 0%nat ->
  Qcltb (Q2Qc q)
        (Q2Qc (inject_Z (Z.of_nat missing))
         / Q2Qc (inject_Z (Z.of_nat total))) = true
  <-> (q * inject_Z (Z.of_nat total) < inject_Z (Z.of_nat missing))%Q.
Proof.
  intro Ht. rewrite Qcltb_lt. unfold Qclt.
  rewrite this_Qcdiv, !this_Q2Qc. apply Qlt_div_iff.
  unfold Qlt, inject_Z. cbn [Qnum Qden]. lia.
Qed.

(** The alt-text score, by integer comparisons. *)
Lemma alt_score_int (total missing : nat) :
  alt_score total missing =
  if (total =? 0)%nat then 100%Z
  else if (total <? 2 * missing)%nat then 30%Z
  else if (total <? 5 * missing)%nat then 60%Z
  else 90%Z.
Proof.
  destruct (Nat.eqb_spec total 0) as [-> | Ht]; [reflexivity|].
  rewrite alt_score_ratio by trivial. cbv zeta.
  assert (H5 : Qcltb (Q2Qc 0.5)
                 (Q2Qc (inject_Z (Z.of_nat missing))
                  / Q2Qc (inject_Z (Z.of_nat total))) = true
               <-> (total < 2 * missing)%nat).
  { rewrite ratio_exceeds by trivial.
    unfold Qlt, Qmult, inject_Z. cbn [Qnum Qden]. lia. }
  assert (H2 : Qcltb (Q2Qc 0.2)
                 (Q2Qc (inject_Z (Z.of_nat missing))
                  / Q2Qc (inject_Z (Z.of_nat total))) = true
               <-> (total < 5 * missing)%nat).
  { rewrite ratio_exceeds by trivial.
    unfold Qlt, Qmult, inject_Z. cbn [Qnum Qden]. lia. }
  rewrite <- Nat.ltb_lt in H5, H2.
  destruct (Qcltb (Q2Qc 0.5) _), (total <? 2 * missing)%nat;
    try (destruct H5; discriminate (H eq_refl) || discriminate (H0 eq_refl));
    trivial;
  destruct (Qcltb (Q2Qc 0.2) _), (total <? 5 * missing)%nat; trivial;
    destruct H2 as [A B];
    first [discriminate (A eq_refl) | discriminate (B eq_refl)].
Qed.

(** X6: with the number of elements fixed, each of the three proportional
    scores can only go down when more elements fail: fewer images without
    alt text, fewer small texts or fewer low-contrast elements never lower
    the score of their check. *)
Theorem scores_are_monotone :
  forall total fewer more : nat,
    (fewer <= more)%nat ->
    (alt_score total more <= alt_score total fewer)%Z
    /\ (font_score total more <= font_score total fewer)%Z
    /\ (contrast_score total more <= contrast_score total fewer)%Z.
Proof.
  intros total fewer more H.
  rewrite !alt_score_int, !font_score_int, !contrast_score_int.
  repeat match goal with
         | |- context [(?a =? ?b)%nat] => destruct (Nat.eqb_spec a b)
         | |- context [(?a <? ?b)%nat] => destruct (Nat.ltb_spec a b)
         end; repeat split; lia.
Qed.

End CheckFacts.

(* ================================================================== *)
(** * More on contrast and on the effective background *)

Section ContrastOrderFacts.

Local Open Scope Qc_scope.

Variable pow_approx : Qc -> Qc -> Qc.

Local Abbreviation luminance := (relativeLuminance pow_approx).
Local Abbreviation contrast := (computeContrastRatio pow_approx).
Local Abbreviation contrast_at := (element_contrast pow_approx).
Local Abbreviation is_low := (is_low_contrast pow_approx).

Hypothesis pow_nonneg : forall x e : Qc, 0 < x -> 0 <= pow_approx x e.

Lemma Qcltb_asym a b : Qcltb a b = true -> Qcltb b a = false.
Proof.
  intro H. apply Qcltb_lt in H. apply Qcltb_ge. now apply Qclt_le_weak.
Qed.

Lemma Qcltb_neither a b : Qcltb a b = false -> Qcltb b a = false -> a = b.
Proof.
  intros H1 H2. apply Qcltb_ge in H1, H2. now apply Qcle_antisym.
Qed.

Lemma Math_max_comm x y : Math_max x y = Math_max y x.
Proof.
  destruct x as [| |p|], y as [| |q|]; try reflexivity.
  unfold Math_max. cbn [lt].
  destruct (Qcltb p q) eqn:A, (Qcltb q p) eqn:B; trivial.
  - apply Qcltb_asym in A. congruence.
  - f_equal. now apply Qcltb_neither.
Qed.

Lemma Math_min_comm x y : Math_min x y = Math_min y x.
Proof.
  destruct x as [| |p|], y as [| |q|]; try reflexivity.
  unfold Math_min. cbn [lt].
  destruct (Qcltb p q) eqn:A, (Qcltb q p) eqn:B; trivial.
  - apply Qcltb_asym in A. congruence.
  - f_equal. symmetry. now apply Qcltb_neither.
Qed.

(** X7: the contrast ratio does not depend on which of the two colours is
    the text and which is the background. *)
Theorem contrast_is_symmetric :
  forall fg bg : jsstring, contrast fg bg = contrast bg fg.
Proof.
  intros fg bg. unfold computeContrastRatio.
  destruct (parseCssColor fg) as [cf|], (parseCssColor bg) as [cb|];
    trivial.
  cbv zeta.
  now rewrite (Math_max_comm (luminance (r cf) (g cf) (b cf))),
              (Math_min_comm (luminance (r cf) (g cf) (b cf))).
Qed.

Lemma Qc_div_ge_one a b : 0 < b -> b <= a -> 1 <= a / b.
Proof.
  unfold Qclt, Qcle. rewrite this_Qcdiv.
  change (this 0) with 0%Q. change (this 1) with 1%Q.
  intros Hb Hab. apply Qle_shift_div_l; trivial.
  now rewrite Qmult_1_l.
Qed.

Lemma ratio_of_finite_at_least_one lum1 lum2 :
  finite_nonneg lum1 -> finite_nonneg lum2 ->
  exists q, ratio_of lum1 lum2 = Num q /\ 1 <= q.
Proof.
  unfold ratio_of.
  intros (p & -> & Hp) (q & -> & Hq).
  unfold Math_max, Math_min, lit. cbn [lt].
  assert (C : 0 < Q2Qc 0.05) by reflexivity.
  assert (Mono : forall u v, u <= v -> u + Q2Qc 0.05 <= v + Q2Qc 0.05).
  { intros u v H. apply Qcplus_le_compat; trivial. apply Qcle_refl. }
  destruct (Qcltb p q) eqn:A, (Qcltb q p) eqn:B; cbn [add];
    rewrite div_finite by (now apply Qc_add_pos);
    eexists; (split; [reflexivity|]);
    apply Qc_div_ge_one; try (now apply Qc_add_pos); apply Mono.
  - apply Qcltb_asym in A. congruence.
  - apply Qclt_le_weak. now apply Qcltb_lt.
  - apply Qclt_le_weak. now apply Qcltb_lt.
  - apply Qcle_refl.
Qed.

Lemma ratio_of_at_least_one lum1 lum2 :
  nan_or_nonneg lum1 -> nan_or_nonneg lum2 ->
  ratio_of lum1 lum2 = NaN
  \/ exists q, ratio_of lum1 lum2 = Num q /\ 1 <= q.
Proof.
  intros [-> | F1]; [now left|].
  intros [-> | F2]; [left; unfold ratio_of; now destruct lum1|].
  right. now apply ratio_of_finite_at_least_one.
Qed.

Lemma contrast_in_range_at_least_one fg bg cf cb :
  parseCssColor fg = Some cf -> parseCssColor bg = Some cb ->
  rgb_in_range cf -> rgb_in_range cb ->
  exists q, contrast fg bg = Num q /\ 1 <= q.
Proof.
  intros Ef Eb Rf Rb.
  rewrite (contrast_parsed pow_approx fg bg cf cb) by trivial.
  apply ratio_of_finite_at_least_one;
    now apply luminance_in_range.
Qed.

Lemma contrast_at_least_one fg bg cf cb :
  parseCssColor fg = Some cf -> parseCssColor bg = Some cb ->
  contrast fg bg = NaN \/ exists q, contrast fg bg = Num q /\ 1 <= q.
Proof.
  intros Ef Eb. rewrite (contrast_parsed pow_approx fg bg cf cb) by trivial.
  destruct (parsed_channels fg cf Ef) as (F1 & F2 & F3).
  destruct (parsed_channels bg cb Eb) as (B1 & B2 & B3).
  apply ratio_of_at_least_one; now apply luminance_sign.
Qed.

(** X8: the contrast ratio of two colours that parse with channels from 0
    to 255 is a number, at least 1; whatever the channels, the ratio of two
    colours that parse is never a number below 1.  So an element is counted
    as low in contrast exactly when both of its colours parse and its ratio
    is a number from 1 up to, but not including, 4.5. *)
Theorem low_contrast_range :
  (forall fg bg cf cb,
      parseCssColor fg = Some cf -> parseCssColor bg = Some cb ->
      rgb_in_range cf -> rgb_in_range cb ->
      exists q, contrast fg bg = Num q /\ 1 <= q)
  /\ (forall fg bg cf cb,
        parseCssColor fg = Some cf -> parseCssColor bg = Some cb ->
        forall q, contrast fg bg = Num q -> 1 <= q)
  /\ (forall frame el,
        is_low frame el = true
        <-> exists q,
            contrast_at frame el = Num q /\ 1 <= q /\ q < Q2Qc 4.5
            /\ parseCssColor (color (getComputedStyle frame el)) <> None
            /\ parseCssColor (resolved_background frame el) <> None).
Proof.
  split; [exact contrast_in_range_at_least_one|].
  split.
  { intros fg bg cf cb Ef Eb q E.
    destruct (contrast_at_least_one fg bg cf cb Ef Eb)
      as [N | (q' & E' & Hq)]; congruence. }
  intros frame el. unfold is_low_contrast.
  split.
  - intro H. apply andb_true_iff in H. destruct H as [Hpos Hlow].
    unfold element_contrast in *. cbv zeta in *.
    set (fg := color (getComputedStyle frame el)) in *.
    set (bg := resolved_background frame el) in *.
    destruct (parseCssColor fg) as [cf|] eqn:Ef.
    2:{ unfold computeContrastRatio in Hpos. rewrite Ef in Hpos.
        discriminate. }
    destruct (parseCssColor bg) as [cb|] eqn:Eb.
    2:{ unfold computeContrastRatio in Hpos. rewrite Ef, Eb in Hpos.
        discriminate. }
    destruct (contrast_at_least_one fg bg cf cb Ef Eb)
      as [E | (q & E & Hq)]; rewrite E in *; [discriminate|].
    exists q. repeat split; trivial; try discriminate.
    unfold lit in Hlow. cbn [lt] in Hlow. now apply Qcltb_lt.
  - intros (q & E & H1 & H45 & _). rewrite E. unfold gt, lit. cbn [lt].
    apply andb_true_iff. split; apply Qcltb_lt; trivial.
    eapply Qclt_le_trans; [|exact H1]. reflexivity.
Qed.

(** ** The effective background is never a transparent one *)

Lemma find_usable l bg :
  find usable_background l = Some bg -> usable_background bg = true.
Proof. intro H. now apply find_some in H. Qed.

Lemma effective_background_usable el frame :
  usable_background (getEffectiveBackground el frame) = true.
Proof.
  unfold getEffectiveBackground. rewrite background_walk_find.
  destruct (find usable_background _) as [bg|] eqn:E.
  - now apply find_usable in E.
  - reflexivity.
Qed.

(** X9: [getEffectiveBackground] never returns the empty string nor
    ["rgba(0, 0, 0, 0)"], so the background a contrast is computed against
    is never ["rgba(0, 0, 0, 0)"]; called on the document root itself it
    returns the default white. *)
Theorem effective_background_is_never_transparent :
  forall (el : Element) (frame : Frame),
    getEffectiveBackground el frame <> []
    /\ getEffectiveBackground el frame <> str "rgba(0, 0, 0, 0)"
    /\ resolved_background frame el <> str "rgba(0, 0, 0, 0)"
    /\ (same_node el (documentElement (contentDocument frame)) = true ->
        getEffectiveBackground el frame = str "rgb(255, 255, 255)").
Proof.
  intros el frame.
  pose proof (effective_background_usable el frame) as U.
  apply usable_background_spec in U. destruct U as [U1 U2].
  split; [exact U1|]. split; [exact U2|]. split.
  - unfold resolved_background. cbv zeta.
    destruct (JsString.eqb _ transparent_black) eqn:E; [exact U2|].
    now apply jsstring_eqb_neq in E.
  - intro R. unfold getEffectiveBackground.
    rewrite background_walk_eq. now rewrite R.
Qed.

End ContrastOrderFacts.

(* ================================================================== *)
(** * Reading back what a browser writes *)

Section ReadingFacts.

Lemma str_cons (a : ascii) (t : string) :
  str (String a t) = N_of_ascii a :: str t.
Proof. reflexivity. Qed.

Lemma uint_digits (d : Decimal.uint) :
  forallb is_digit (str (NilEmpty.string_of_uint d)) = true.
Proof.
  induction d; cbn [NilEmpty.string_of_uint]; trivial;
    rewrite str_cons; cbn [forallb]; now rewrite IHd.
Qed.

Lemma uint_value (d : Decimal.uint) :
  forall a : nat,
    fold_left (fun acc c => 10 * acc + digit_value c)
              (str (NilEmpty.string_of_uint d)) (Z.of_nat a)
    = Z.of_nat (Nat.of_uint_acc d a).
Proof.
  induction d; intro a; cbn [NilEmpty.string_of_uint Nat.of_uint_acc];
    trivial;
    rewrite str_cons; cbn [fold_left]; rewrite <- IHd; f_equal;
    rewrite Nat.tail_mul_spec;
    match goal with
    | |- context [digit_value ?c] =>
        let v := eval vm_compute in (digit_value c) in
        change (digit_value c) with v
    end; lia.
Qed.

Lemma decimal_nonempty n : decimal n <> [].
Proof.
  unfold decimal, NilZero.string_of_uint.
  destruct (Nat.to_uint n); discriminate.
Qed.

Lemma decimal_digits n : forallb is_digit (decimal n) = true.
Proof.
  unfold decimal, NilZero.string_of_uint.
  destruct (Nat.to_uint n) eqn:E; try reflexivity; rewrite <- E;
    apply uint_digits.
Qed.

Lemma decimal_value n : digits_value (decimal n) = Z.of_nat n.
Proof.
  unfold decimal, NilZero.string_of_uint, digits_value.
  pose proof (DecimalNat.Unsigned.of_to n) as R. unfold Nat.of_uint in R.
  destruct (Nat.to_uint n) eqn:E;
    try (rewrite <- E in *; change 0 with (Z.of_nat 0);
         rewrite uint_value; now rewrite R).
  cbn in R. now subst n.
Qed.

Lemma decimal_run n : number_run (decimal n).
Proof.
  split; [apply decimal_nonempty|].
  pose proof (decimal_digits n) as D. rewrite forallb_forall in *.
  intros c Hc. unfold is_digit_or_dot. now rewrite (D c Hc).
Qed.

Lemma parseFloat_decimal n tail :
  ends_number tail -> parseFloat (decimal n ++ tail) = JsNumber.of_nat n.
Proof.
  intro T.
  pose proof (decimal_nonempty n) as Ne. pose proof (decimal_digits n) as D.
  assert (V := decimal_value n).
  destruct (decimal n) as [|c m] eqn:E; [contradiction|].
  assert (Dc : is_digit c = true)
    by (cbn [forallb] in D; now apply andb_true_iff in D).
  assert (Rg : (48 <= c <= 57)%N).
  { unfold is_digit in Dc. apply andb_true_iff in Dc.
    rewrite !N.leb_le in Dc. lia. }
  assert (Sp : is_space c = false).
  { apply digit_or_dot_not_space. unfold is_digit_or_dot. now rewrite Dc. }
  unfold parseFloat, trimStart. cbn [app dropWhile]. rewrite Sp.
  unfold read_sign.
  replace (c =? ch "-")%N with false
    by (symmetry; apply N.eqb_neq; change (ch "-") with 45%N; lia).
  replace (c =? ch "+")%N with false
    by (symmetry; apply N.eqb_neq; change (ch "+") with 43%N; lia).
  change (strip_prefix (str "Infinity") (c :: m ++ tail))
    with (if (73 =? c)%N then strip_prefix (str "nfinity") (m ++ tail)
          else None).
  replace (73 =? c)%N with false by (symmetry; apply N.eqb_neq; lia).
  unfold parse_decimal.
  change (c :: m ++ tail) with ((c :: m) ++ tail).
  assert (O : starts_outside is_digit tail).
  { destruct tail as [|t tail']; [exact I|]. cbn. apply T. }
  rewrite (span_app is_digit (c :: m) tail D O).
  assert (F : (match tail with
               | [] => (@nil code_unit, tail)
               | c0 :: s1' =>
                   if (c0 =? ch ".")%N
                   then
                     let (fp, s2) := span is_digit s1' in
                     match c :: m, fp with
                     | [], [] => ([], tail)
                     | _, _ => (fp, s2)
                     end
                   else ([], tail)
               end) = ([], tail)).
  { destruct tail as [|t tail']; trivial. cbn in T.
    destruct T as (_ & Tdot & _).
    destruct (t =? ch ".")%N eqn:Q; trivial.
    apply N.eqb_eq in Q. contradiction. }
  rewrite F. cbn [List.length Z.of_nat]. rewrite app_nil_r, V.
  assert (X : read_exponent tail = 0%Z).
  { unfold read_exponent. destruct tail as [|t tail']; trivial.
    cbn in T. destruct T as (_ & _ & Te & TE).
    destruct (t =? ch "e")%N eqn:Q1;
      [apply N.eqb_eq in Q1; contradiction|].
    destruct (t =? ch "E")%N eqn:Q2;
      [apply N.eqb_eq in Q2; contradiction|].
    reflexivity. }
  rewrite X. cbn [Z.sub Z.opp Z.add pow10 signed].
  unfold JsNumber.of_nat, of_Z. f_equal. apply Qcmult_1_r.
Qed.

(** The pattern at the start of a string, with nothing of the third run
    left in what follows: the three runs are the captures. *)
Lemma parse_pattern_exact k w0 m1 w1 w2 m2 w3 w4 m3 tail :
  keyword k ->
  spaces w0 -> spaces w1 -> spaces w2 -> spaces w3 -> spaces w4 ->
  number_run m1 -> number_run m2 -> number_run m3 ->
  starts_outside is_digit_or_dot tail ->
  parseCssColor
    (k ++ ch "(" :: w0 ++ m1 ++ w1 ++ ch "," :: w2 ++ m2 ++ w3
       ++ ch "," :: w4 ++ m3 ++ tail)
  = Some (mkRGB (parseFloat m1) (parseFloat m2) (parseFloat m3)).
Proof.
  intros K S0 S1 S2 S3 S4 N1 N2 N3 O.
  assert (P : paren_groups
                (ch "(" :: w0 ++ m1 ++ w1 ++ ch "," :: w2 ++ m2 ++ w3
                   ++ ch "," :: w4 ++ m3 ++ tail)
              = Some (m1, m2, m3)).
  { unfold paren_groups. rewrite N.eqb_refl.
    rewrite ws_run_app; trivial; [|now apply comma_starts_outside_run].
    rewrite ws_comma_app; trivial.
    rewrite ws_run_app; trivial; [|now apply comma_starts_outside_run].
    rewrite ws_comma_app; trivial.
    now rewrite ws_run_app. }
  pose proof (match_here_app k _ _ K P) as M.
  unfold parseCssColor. rewrite regex_match_eq, M.
  apply keyword_cases in K.
  destruct K as [(c1 & c2 & c3 & -> & _) | (c1 & c2 & c3 & c4 & -> & _)];
    reflexivity.
Qed.

(** X10: on a text that starts with [rgb] or [rgba] (in any letter case), an
    opening parenthesis and three channels separated by commas,
    [parseCssColor] returns the three channels as [parseFloat] reads them,
    whatever follows the third channel: the alpha channel and the closing
    parenthesis are not looked at. *)
Theorem parse_returns_three_channels :
  forall k w0 m1 w1 w2 m2 w3 w4 m3 tail,
    keyword k ->
    spaces w0 /\ spaces w1 /\ spaces w2 /\ spaces w3 /\ spaces w4 ->
    number_run m1 /\ number_run m2 /\ number_run m3 ->
    starts_outside is_digit_or_dot tail ->
    parseCssColor
      (k ++ ch "(" :: w0 ++ m1 ++ w1 ++ ch "," :: w2 ++ m2 ++ w3
         ++ ch "," :: w4 ++ m3 ++ tail)
    = Some (mkRGB (parseFloat m1) (parseFloat m2) (parseFloat m3)).
Proof.
  intros k w0 m1 w1 w2 m2 w3 w4 m3 tail K (S0 & S1 & S2 & S3 & S4)
    (N1 & N2 & N3) O.
  now apply parse_pattern_exact.
Qed.

Lemma parseFloat_decimal_alone n : parseFloat (decimal n) = JsNumber.of_nat n.
Proof.
  rewrite <- (app_nil_r (decimal n)). now apply parseFloat_decimal.
Qed.

Lemma of_nat_in_range (n : nat) :
  (n <= 255)%nat -> in_channel_range (JsNumber.of_nat n).
Proof.
  intro H. eexists. split; [reflexivity|].
  unfold Qcle. rewrite !this_Q2Qc.
  change (this 0%Qc) with 0%Q.
  unfold Qle, inject_Z. cbn [Qnum Qden]. lia.
Qed.

Lemma lt_of_nat (n m : nat) :
  lt (JsNumber.of_nat n) (JsNumber.of_nat m) = true <-> (n < m)%nat.
Proof.
  unfold JsNumber.of_nat, of_Z. cbn [lt]. rewrite Qcltb_lt. unfold Qclt.
  rewrite !this_Q2Qc. unfold Qlt, inject_Z. cbn [Qnum Qden]. lia.
Qed.

(** X11: what a browser writes is read back exactly: the computed colour
    [rgb(r, g, b)] with whole-number channels from 0 to 255 parses to the
    channels [r], [g] and [b], which are in the range of the data model;
    and an element whose computed font size is [n px], for a whole number
    [n], is counted as small text exactly when [n < 12]. *)
Theorem computed_values_read_back :
  (forall r g b : nat,
      (r <= 255)%nat -> (g <= 255)%nat -> (b <= 255)%nat ->
      parseCssColor (css_rgb r g b)
      = Some (mkRGB (JsNumber.of_nat r) (JsNumber.of_nat g)
                    (JsNumber.of_nat b))
      /\ rgb_in_range (mkRGB (JsNumber.of_nat r) (JsNumber.of_nat g)
                             (JsNumber.of_nat b)))
  /\ (forall (frame : Frame) (el : Element) (n : nat),
        fontSize (getComputedStyle frame el) = decimal n ++ str "px" ->
        (is_small_text frame el = true <-> (n < 12)%nat)).
Proof.
  split.
  - intros r g b Hr Hg Hb. split; [|now repeat split; apply of_nat_in_range].
    unfold css_rgb.
    rewrite <- (parseFloat_decimal_alone r), <- (parseFloat_decimal_alone g),
      <- (parseFloat_decimal_alone b).
    change (str "rgb(" ++ decimal r ++ str ", " ++ decimal g ++ str ", "
              ++ decimal b ++ str ")")
      with (str "rgb" ++ ch "(" :: [] ++ decimal r ++ [] ++ ch ","
              :: [ch " "] ++ decimal g ++ [] ++ ch "," :: [ch " "]
              ++ decimal b ++ str ")").
    apply parse_pattern_exact;
      try reflexivity; try apply decimal_run.
    now left.
  - intros frame el n E. unfold is_small_text. rewrite E.
    rewrite parseFloat_decimal.
    + change (isNaN (JsNumber.of_nat n)) with false. cbn [negb andb].
      change (lit 12) with (JsNumber.of_nat 12). apply lt_of_nat.
    + cbn. repeat split; discriminate.
Qed.

End ReadingFacts.

(* ================================================================== *)
(** * What the analysis depends on *)

Section DependenceFacts.

Variable pow_approx : Qc -> Qc -> Qc.

Local Abbreviation analyze := (analyzeDocument pow_approx).
Local Abbreviation contrast_of := (sub_contrast pow_approx).

(** [Math.pow(1, 2.4)] is [1]. *)
Hypothesis pow_one : pow_approx 1 (Q2Qc 2.4) = 1%Qc.

Lemma filter_filter_implied {A : Type} (f g : A -> bool) (l : list A) :
  (forall x, f x = true -> g x = true) ->
  filter f (filter g l) = filter f l.
Proof.
  intro H. induction l as [|x l IH]; cbn [filter]; trivial.
  destruct (g x) eqn:G; cbn [filter].
  - now rewrite IH.
  - rewrite IH. destruct (f x) eqn:F; trivial.
    apply H in F. congruence.
Qed.

Lemma selected_query doc names :
  incl names relevant_names ->
  querySelectorAll doc names
  = filter (fun el => existsb (JsString.eqb (localName el)) names)
           (selected_elements doc).
Proof.
  intro Hn. unfold querySelectorAll, selected_elements. symmetry.
  apply filter_filter_implied. intros el H. unfold is_relevant.
  apply existsb_exists in H. destruct H as (n & Hin & E).
  apply existsb_exists. exists n. split; trivial. now apply Hn.
Qed.

Lemma same_query doc doc' names :
  incl names relevant_names ->
  selected_elements doc = selected_elements doc' ->
  querySelectorAll doc names = querySelectorAll doc' names.
Proof. intros Hn E. rewrite !selected_query by trivial. now rewrite E. Qed.

Lemma same_images doc doc' :
  selected_elements doc = selected_elements doc' ->
  getElementsByTagName doc (str "img") = getElementsByTagName doc' (str "img").
Proof.
  rewrite !getElementsByTagName_selector. apply same_query.
  intros n [<- | []]. now left.
Qed.

Lemma same_headings doc doc' :
  selected_elements doc = selected_elements doc' ->
  querySelectorAll doc heading_names = querySelectorAll doc' heading_names.
Proof.
  apply same_query. intros n H. right. apply in_or_app. now left.
Qed.

Lemma same_texts doc doc' :
  selected_elements doc = selected_elements doc' ->
  querySelectorAll doc text_names = querySelectorAll doc' text_names.
Proof.
  apply same_query. intros n H. right. apply in_or_app. right.
  apply in_or_app. now left.
Qed.

Lemma same_targets doc doc' :
  selected_elements doc = selected_elements doc' ->
  querySelectorAll doc contrast_names = querySelectorAll doc' contrast_names.
Proof.
  apply same_query. intros n H. right. apply in_or_app. right.
  apply in_or_app. now right.
Qed.

(** The frame is read through the root of its document and the computed
    styles. *)
Lemma count_small_text_ext frame frame' nodes :
  (forall el, getComputedStyle frame el = getComputedStyle frame' el) ->
  count_small_text frame nodes = count_small_text frame' nodes.
Proof.
  intro St. rewrite !small_count_filter. f_equal. apply filter_ext.
  intro el. unfold is_small_text. now rewrite St.
Qed.

Lemma effective_background_ext frame frame' el :
  documentElement (contentDocument frame)
  = documentElement (contentDocument frame') ->
  (forall el, getComputedStyle frame el = getComputedStyle frame' el) ->
  getEffectiveBackground el frame = getEffectiveBackground el frame'.
Proof.
  intros R St. unfold getEffectiveBackground.
  rewrite R, !background_walk_find.
  replace (map (fun a => backgroundColor (getComputedStyle frame a))
               (chain_below (documentElement (contentDocument frame')) el))
    with (map (fun a => backgroundColor (getComputedStyle frame' a))
              (chain_below (documentElement (contentDocument frame')) el));
    trivial.
  apply map_ext. intro a. now rewrite St.
Qed.

Lemma count_low_contrast_ext frame frame' targets :
  documentElement (contentDocument frame)
  = documentElement (contentDocument frame') ->
  (forall el, getComputedStyle frame el = getComputedStyle frame' el) ->
  count_low_contrast pow_approx frame targets
  = count_low_contrast pow_approx frame' targets.
Proof.
  intros R St. rewrite !low_count_filter. f_equal. apply filter_ext.
  intro el. unfold is_low_contrast, element_contrast, resolved_background.
  cbv zeta.
  now rewrite (effective_background_ext frame frame' el R St), St.
Qed.

(** The paragraph in the black [div], and the paragraph with the [div]
    taken out of the tree. *)
Lemma framed_p_contrast :
  element_contrast pow_approx Examples.framed_frame Examples.framed_p
  = lit 21.
Proof.
  unfold element_contrast. cbv zeta.
  apply (contrast_white_on_black pow_approx pow_one);
    vm_compute; reflexivity.
Qed.

Lemma bare_p_contrast :
  element_contrast pow_approx Examples.bare_frame Examples.bare_p = lit 1.
Proof.
  unfold element_contrast. cbv zeta.
  apply (contrast_white_on_white pow_approx pow_one);
    vm_compute; reflexivity.
Qed.

Lemma framed_contrast_score :
  contrast_of Examples.framed_doc Examples.framed_frame = 100%Z.
Proof.
  unfold sub_contrast. cbv zeta. rewrite low_count_filter.
  replace (querySelectorAll Examples.framed_doc contrast_names)
    with [Examples.framed_p] by (vm_compute; reflexivity).
  cbn [filter]. unfold is_low_contrast. rewrite framed_p_contrast.
  vm_compute. reflexivity.
Qed.

Lemma bare_contrast_score :
  contrast_of Examples.bare_doc Examples.bare_frame = 55%Z.
Proof.
  unfold sub_contrast. cbv zeta. rewrite low_count_filter.
  replace (querySelectorAll Examples.bare_doc contrast_names)
    with [Examples.bare_p] by (vm_compute; reflexivity).
  cbn [filter]. unfold is_low_contrast. rewrite bare_p_contrast.
  vm_compute. reflexivity.
Qed.

(** X12: the analysis reads a document through its root and through the
    elements its five queries select ([img], [h1] to [h6], [p], [li], [a],
    [span] and [button]), in document order, each with its own ancestors
    and computed styles: two documents that agree on the root, on these
    elements and on the styles get the same result (score, issues and
    summary).  An element that no query selects still counts as an
    ancestor: with a paragraph of white text in a black [div], taking the
    [div] out of the tree, so that the paragraph sits in a transparent
    [body], changes the contrast sub-score from 100 to 55.  ([pow_one] is
    assumed for the white channels.) *)
Theorem analysis_reads_selected_elements :
  (forall (doc doc' : Document) (frame frame' : Frame),
      documentElement doc = documentElement doc' ->
      selected_elements doc = selected_elements doc' ->
      documentElement (contentDocument frame)
      = documentElement (contentDocument frame') ->
      (forall el, getComputedStyle frame el = getComputedStyle frame' el) ->
      analyze doc frame = analyze doc' frame')
  /\ (selected_elements Examples.framed_doc = [Examples.framed_p]
      /\ parentElement Examples.framed_p = Some Examples.framed_div
      /\ contrast_of Examples.framed_doc Examples.framed_frame = 100%Z)
  /\ (selected_elements Examples.bare_doc = [Examples.bare_p]
      /\ parentElement Examples.bare_p = Some (Examples.body 375)
      /\ contrast_of Examples.bare_doc Examples.bare_frame = 55%Z).
Proof.
  split; [|split].
  - intros doc doc' frame frame' Rd E Rf St.
    unfold analyzeDocument, check_responsive, check_contrast, check_font,
      check_heading, check_alt, hasHorizontalScroll, responsive_score,
      hasHorizontalScroll.
    cbv zeta.
    rewrite (same_images doc doc' E), (same_headings doc doc' E),
      (same_texts doc doc' E), (same_targets doc doc' E), Rd.
    rewrite (count_small_text_ext frame frame' _ St),
      (count_low_contrast_ext frame frame' _ Rf St).
    reflexivity.
  - split; [vm_compute; reflexivity|]. split; [reflexivity|].
    exact framed_contrast_score.
  - split; [vm_compute; reflexivity|]. split; [reflexivity|].
    exact bare_contrast_score.
Qed.

(** ** The order of the elements *)

Lemma Permutation_filter_length {A : Type} (f : A -> bool) (l l' : list A) :
  Permutation.Permutation l l' ->
  List.length (filter f l) = List.length (filter f l').
Proof.
  induction 1 as [|x l l' P IH|x y l|l l' l'' P1 IH1 P2 IH2];
    cbn [filter]; trivial.
  - destruct (f x); cbn [List.length]; now rewrite IH.
  - destruct (f x), (f y); reflexivity.
  - now rewrite IH1.
Qed.

Lemma Permutation_filter {A : Type} (f : A -> bool) (l l' : list A) :
  Permutation.Permutation l l' ->
  Permutation.Permutation (filter f l) (filter f l').
Proof.
  induction 1 as [|x l l' P IH|x y l|l l' l'' P1 IH1 P2 IH2];
    cbn [filter].
  - constructor.
  - destruct (f x); [now constructor|trivial].
  - destruct (f x), (f y);
      try apply Permutation.Permutation_refl; apply Permutation.perm_swap.
  - eapply Permutation.perm_trans; eauto.
Qed.

(** X13: the alt-text, font size, contrast and responsiveness sub-scores
    do not depend on the order of the elements of the document; the heading
    sub-score does: the headings h1, h2, h3 give 100 and the same headings
    in the order h1, h3, h2 give 70. *)
Theorem only_headings_depend_on_order :
  (forall (doc doc' : Document) (frame : Frame),
      Permutation.Permutation (elements doc) (elements doc') ->
      documentElement doc = documentElement doc' ->
      sub_alt doc = sub_alt doc'
      /\ sub_font doc frame = sub_font doc' frame
      /\ contrast_of doc frame = contrast_of doc' frame
      /\ sub_responsive doc = sub_responsive doc')
  /\ (Permutation.Permutation (elements Examples.ordered_doc)
                              (elements Examples.shuffled_doc)
      /\ sub_heading Examples.ordered_doc = 100%Z
      /\ sub_heading Examples.shuffled_doc = 70%Z).
Proof.
  split.
  - intros doc doc' frame P R.
    assert (Q : forall names,
               Permutation.Permutation (querySelectorAll doc names)
                                       (querySelectorAll doc' names))
      by (intro names; now apply Permutation_filter).
    split; [|split; [|split]].
    + unfold sub_alt. cbv zeta.
      rewrite !count_missing_alt_filter, !getElementsByTagName_selector.
      now rewrite (Permutation.Permutation_length (Q [str "img"])),
        (Permutation_filter_length lacks_alt _ _ (Q [str "img"])).
    + unfold sub_font. cbv zeta. rewrite !small_count_filter.
      now rewrite (Permutation.Permutation_length (Q text_names)),
        (Permutation_filter_length (is_small_text frame) _ _ (Q text_names)).
    + unfold sub_contrast. cbv zeta. rewrite !low_count_filter.
      now rewrite (Permutation.Permutation_length (Q contrast_names)),
        (Permutation_filter_length (is_low_contrast pow_approx frame) _ _
           (Q contrast_names)).
    + unfold sub_responsive, responsive_score, hasHorizontalScroll.
      cbv zeta. now rewrite R.
  - split; [|split; vm_compute; reflexivity].
    cbn [elements Examples.ordered_doc Examples.shuffled_doc].
    do 3 apply Permutation.perm_skip. apply Permutation.perm_swap.
Qed.

End DependenceFacts.

(* ================================================================== *)
(** * The page *)

Section PageFacts.

Local Open Scope Qc_scope.

Variable pow_approx : Qc -> Qc -> Qc.
Variable fraction_digits : Qc -> jsstring.
Variable File : Type.

Local Abbreviation analyze := (analyzeDocument pow_approx).
Local Abbreviation render := (renderResults fraction_digits).
Local Abbreviation on_load := (frame_onload pow_approx fraction_digits).
Local Abbreviation click := (@analyze_click File).
Local Abbreviation after := (page_after pow_approx fraction_digits File).
Local Abbreviation handle_event := (handle pow_approx fraction_digits File).

(** ** Integer scores as numbers *)

Lemma this_of_Z (z : Z) : this (Q2Qc (inject_Z z)) = inject_Z z.
Proof.
  unfold Q2Qc. cbn [this]. apply Qred_identity.
  unfold inject_Z. cbn [Qnum Qden]. apply Z.gcd_1_r.
Qed.

Lemma Number_toString_of_Z (z : Z) :
  (0 <= z < 10 ^ 21)%Z ->
  Number_toString fraction_digits (of_Z z) = decimal (Z.to_nat z).
Proof.
  intro H. unfold Number_toString, of_Z, is_integer.
  rewrite this_of_Z. unfold inject_Z. cbn [Qnum Qden].
  change (1 =? 1)%positive with true. cbn [andb].
  replace (Z.abs z <? 10 ^ 21)%Z with true
    by (symmetry; apply Z.ltb_lt; lia).
  replace (z <? 0)%Z with false by (symmetry; apply Z.ltb_ge; lia).
  reflexivity.
Qed.

Lemma ge_of_Z (z k : Z) : ge (of_Z z) (of_Z k) = (k <=? z)%Z.
Proof.
  unfold ge, of_Z. cbn [le].
  destruct (k <=? z)%Z eqn:E.
  - apply Qcleb_le. unfold Qcle. rewrite !this_of_Z.
    rewrite <- Zle_Qle. now apply Z.leb_le.
  - destruct (Qcleb _ _) eqn:Q; trivial.
    apply Qcleb_le in Q. unfold Qcle in Q. rewrite !this_of_Z in Q.
    rewrite <- Zle_Qle in Q. apply Z.leb_le in Q. congruence.
Qed.

Lemma of_Z_sub (a b : Z) : sub (of_Z a) (of_Z b) = of_Z (a - b).
Proof.
  unfold sub, neg, add, of_Z. f_equal. apply Qc_is_canon.
  rewrite this_Qcplus. unfold Qcopp.
  rewrite !this_Q2Qc. unfold Z.sub.
  rewrite inject_Z_plus, inject_Z_opp. reflexivity.
Qed.

Lemma score_label_of_Z (z : Z) :
  (50 <= z)%Z -> score_label (of_Z z) = label_of z.
Proof.
  intro H. unfold score_label, label_of.
  change (lit 85) with (of_Z 85). change (lit 70) with (of_Z 70).
  change (lit 50) with (of_Z 50).
  rewrite !ge_of_Z.
  replace (50 <=? z)%Z with true by (symmetry; apply Z.leb_le; lia).
  reflexivity.
Qed.

Lemma append_each {A B : Type} (f : A -> B) (xs : list A) (acc : list B) :
  fold_left (fun list x => list ++ [f x]) xs acc = acc ++ map f xs.
Proof.
  revert acc. induction xs as [|x xs IH]; intro acc; cbn [fold_left map].
  - now rewrite app_nil_r.
  - rewrite IH, <- app_assoc. reflexivity.
Qed.

(** ** The chart *)

Lemma renderScoreChart_one_chart score pg :
  (match scoreChart pg with
   | None => liveCharts pg = []
   | Some id => exists cfg, liveCharts pg = [(id, cfg)]
   end) ->
  resultsHidden pg = false ->
  one_chart (renderScoreChart score pg).
Proof.
  intros H Hid. unfold one_chart, renderScoreChart.
  cbn [scoreChart liveCharts resultsHidden chartsCreated].
  split; [|split; [exact Hid|lia]].
  destruct (scoreChart pg) as [old|].
  - destruct H as (cfg & ->). unfold destroy_chart. cbn [filter fst].
    rewrite Nat.eqb_refl. cbn [negb app]. eauto.
  - rewrite H. cbn [app]. eauto.
Qed.

Lemma one_chart_live pg :
  one_chart pg ->
  match scoreChart pg with
  | None => liveCharts pg = []
  | Some id => exists cfg, liveCharts pg = [(id, cfg)]
  end.
Proof. unfold one_chart. destruct (scoreChart pg); tauto. Qed.

Lemma handle_one_chart pg e : one_chart pg -> one_chart (handle_event pg e).
Proof.
  intro H. destruct e as [file value| result | | doc frame]; cbn [handle].
  - unfold analyze_click. destruct file as [f|]; [exact H|].
    destruct (negb _); exact H.
  - exact H.
  - exact H.
  - unfold frame_onload. destruct doc as [doc|]; [|exact H].
    unfold set_status, one_chart.
    cbn [scoreChart liveCharts resultsHidden chartsCreated].
    apply (renderScoreChart_one_chart
             (finalScore (analyze doc frame))); [|reflexivity].
    cbn [scoreChart liveCharts]. now apply one_chart_live.
Qed.


(** ** What a completed analysis shows *)

Lemma label_of_cases (score : Z) :
  label_of score <> str "Needs improvement".
Proof.
  unfold label_of. destruct (85 <=? score)%Z; [discriminate|].
  destruct (70 <=? score)%Z; discriminate.
Qed.

(** X15: when the frame has loaded a document, the page shows the final
    score of its analysis as a whole number between 52 and 100, the label
    Excellent from 85, Good from 70 and Fair below (never "Needs
    improvement", which needs a score under 50), and the chart of the page
    has the two segments [score] and [100 - score]. *)
Theorem completed_analysis_readout :
  forall (doc : Document) (frame : Frame) (pg : Page),
    exists score : Z,
      (52 <= score <= 100)%Z
      /\ finalScore (analyze doc frame) = of_Z score
      /\ statusMessage (on_load (Some doc) frame pg)
         = str "Analysis completed."
      /\ resultsHidden (on_load (Some doc) frame pg) = false
      /\ scoreValue (on_load (Some doc) frame pg) = decimal (Z.to_nat score)
      /\ scoreLabel (on_load (Some doc) frame pg) = label_of score
      /\ scoreLabel (on_load (Some doc) frame pg)
         <> str "Needs improvement"
      /\ exists id cfg,
          scoreChart (on_load (Some doc) frame pg) = Some id
          /\ In (id, cfg) (liveCharts (on_load (Some doc) frame pg))
          /\ chartData cfg = [of_Z score; of_Z (100 - score)].
Proof.
  intros doc frame pg.
  destruct (final_score_integer pow_approx doc frame)
    as (score & Es & _ & Rg).
  exists score. split; [exact Rg|]. split; [exact Es|].
  unfold frame_onload, set_status, renderResults, renderScoreChart.
  cbn [statusMessage resultsHidden scoreValue scoreLabel scoreChart
       liveCharts chartsCreated].
  rewrite Es.
  split; [reflexivity|]. split; [reflexivity|].
  split; [apply Number_toString_of_Z; lia|].
  split; [apply score_label_of_Z; lia|].
  split; [rewrite score_label_of_Z by lia; apply label_of_cases|].
  exists (chartsCreated pg), (score_chart_config (of_Z score)).
  split; [reflexivity|]. split.
  - apply in_or_app. right. now left.
  - unfold score_chart_config. cbn [chartData].
    change (lit 100) with (of_Z 100). now rewrite of_Z_sub.
Qed.

(** X16: rendering replaces what the panel showed: after a frame load with
    a document, the summary list holds exactly the five summary lines of
    its analysis and the issue list one item per issue, in order, with the
    text of the issue and the badge CRITICAL, WARN or OK of its severity,
    whatever the lists held before; a frame load without a document only
    changes the status line. *)
Theorem panel_shows_latest_analysis :
  forall (doc : Document) (frame : Frame) (pg : Page),
    summaryList (on_load (Some doc) frame pg) = summary (analyze doc frame)
    /\ issuesList (on_load (Some doc) frame pg)
       = map issue_item (issues (analyze doc frame))
    /\ map issueText (issuesList (on_load (Some doc) frame pg))
       = map text (issues (analyze doc frame))
    /\ map badgeText (issuesList (on_load (Some doc) frame pg))
       = map (fun i => badge_of (severity i)) (issues (analyze doc frame))
    /\ List.length (summaryList (on_load (Some doc) frame pg)) = 5%nat
    /\ List.length (issuesList (on_load (Some doc) frame pg)) = 5%nat
    /\ on_load None frame pg
       = set_status (str "Unable to load document for analysis.") pg.
Proof.
  intros doc frame pg.
  unfold frame_onload, set_status, renderResults, renderScoreChart.
  cbn [summaryList issuesList].
  rewrite (append_each (fun x => x)), (append_each issue_item).
  cbn [app]. rewrite map_id.
  assert (L : List.length (issues (analyze doc frame)) = 5%nat).
  { rewrite analyze_unfold. cbn [issues].
    destruct (final_issues pow_approx doc frame)
      as (t1 & t2 & t3 & t4 & t5 & ->).
    reflexivity. }
  assert (Ls : List.length (summary (analyze doc frame)) = 5%nat).
  { rewrite analyze_unfold. cbn [summary]. apply final_summary_length. }
  split; [reflexivity|]. split; [reflexivity|].
  split.
  { rewrite map_map. apply map_ext. intro i. unfold issue_item.
    now destruct (severity i). }
  split.
  { rewrite map_map. apply map_ext. intro i. unfold issue_item, badge_of.
    now destruct (severity i). }
  split; [exact Ls|]. split; [|reflexivity].
  now rewrite length_map.
Qed.

(** ** The click on the Analyze button *)

Lemma dropWhile_head p s c rest :
  dropWhile p s = c :: rest -> p c = false.
Proof.
  induction s as [|d s IH]; cbn [dropWhile]; [discriminate|].
  destruct (p d) eqn:E; trivial. now intros [= <- <-].
Qed.

Lemma dropWhile_nil p s : dropWhile p s = [] <-> forallb p s = true.
Proof.
  induction s as [|d s IH]; cbn [dropWhile forallb]; [tauto|].
  destruct (p d); cbn [andb]; [exact IH|]. split; discriminate.
Qed.

Lemma trim_empty value : trim value = [] <-> forallb is_space value = true.
Proof.
  unfold trim, trimEnd, trimStart. split.
  - intro H.
    assert (R : dropWhile is_space (rev (dropWhile is_space value)) = []).
    { destruct (dropWhile is_space (rev (dropWhile is_space value)));
        trivial.
      cbn [rev] in H. now apply app_eq_nil in H. }
    apply dropWhile_nil in R.
    destruct (dropWhile is_space value) as [|c rest] eqn:D.
    + now apply dropWhile_nil.
    + apply dropWhile_head in D.
      rewrite forallb_forall in R.
      rewrite (R c) in D; [discriminate|].
      apply -> in_rev. now left.
  - intro H. apply dropWhile_nil in H. now rewrite H.
Qed.

(** X17: a click with a file selected starts reading that file and ignores
    the pasted text; with no file and a text area that is empty or holds
    only white space, it shows the prompt and starts nothing; with no file
    and some text, it starts the analysis of the trimmed text.  The result
    panel and the chart are not touched by a click. *)
Theorem click_decision :
  forall (file : option File) (value : jsstring) (pg : Page),
    (forall f, file = Some f ->
               click file value pg = (set_status [] pg, Some f))
    /\ (file = None -> forallb is_space value = true ->
        click file value pg
        = (set_status (str "Please upload an HTML file or paste some HTML.")
                      pg,
           None))
    /\ (file = None -> forallb is_space value = false ->
        trim value <> []
        /\ click file value pg
           = (runAnalysis (trim value) pg, None)
        /\ srcdoc (fst (click file value pg)) = trim value
        /\ statusMessage (fst (click file value pg)) = str "Analyzing...").
Proof.
  intros file value pg. split; [|split].
  - intros f ->. reflexivity.
  - intros -> H. apply trim_empty in H. unfold analyze_click. cbv zeta.
    rewrite H. reflexivity.
  - intros -> H.
    assert (Ne : trim value <> []).
    { intro E. apply trim_empty in E. congruence. }
    split; [exact Ne|].
    unfold analyze_click. cbv zeta.
    destruct (trim value) as [|c t]; [contradiction|].
    repeat split.
Qed.

End PageFacts.

(* ================================================================== *)
(** * The further statements on concrete inputs *)

Lemma no_selected_element_witness :
  subScores Examples.coarse_pow Examples.plain_doc
    (Examples.plain_frame Examples.plain_doc)
  = [100; 50; 100; 100; 100]
  /\ finalScore (analyzeDocument Examples.coarse_pow Examples.plain_doc
                   (Examples.plain_frame Examples.plain_doc))
     = of_Z 90
  /\ map severity
       (issues (analyzeDocument Examples.coarse_pow Examples.plain_doc
                  (Examples.plain_frame Examples.plain_doc)))
     = [ok; warning; ok; ok; ok].
Proof.
  apply (no_selected_element Examples.coarse_pow Examples.plain_doc).
  - intros el H. cbn in H. destruct H as [<- | [<- | []]];
      intro K; vm_compute in K; intuition discriminate.
  - vm_compute. discriminate.
Defined.

Lemma scores_are_monotone_witness :
  alt_score 10 6 <= alt_score 10 2
  /\ font_score 10 6 <= font_score 10 2
  /\ contrast_score 10 6 <= contrast_score 10 2.
Proof.
  apply (scores_are_monotone 10 2 6). lia.
Defined.

Lemma low_contrast_range_witness :
  exists q : Qc,
    computeContrastRatio Examples.coarse_pow
      (str "rgb(119, 119, 119)") Examples.white = Num q
    /\ (1 <= q)%Qc.
Proof.
  apply (proj1 (low_contrast_range Examples.coarse_pow coarse_pow_nonneg)
           (str "rgb(119, 119, 119)") Examples.white
           (mkRGB (of_Z 119) (of_Z 119) (of_Z 119))
           (mkRGB (of_Z 255) (of_Z 255) (of_Z 255))).
  - vm_compute. reflexivity.
  - vm_compute. reflexivity.
  - split; [|split]; eexists; (split; [reflexivity|]);
      split; vm_compute; discriminate.
  - split; [|split]; eexists; (split; [reflexivity|]);
      split; vm_compute; discriminate.
Defined.

Lemma parse_returns_three_channels_witness :
  parseCssColor (str "RGBA( 10 ,20, 30.5 , 0.5)")
  = Some (mkRGB (parseFloat (str "10")) (parseFloat (str "20"))
                (parseFloat (str "30.5"))).
Proof.
  apply (parse_returns_three_channels
           (str "RGBA") (str " ") (str "10") (str " ") [] (str "20") []
           (str " ") (str "30.5") (str " , 0.5)")).
  - right. reflexivity.
  - repeat split.
  - repeat split; discriminate.
  - reflexivity.
Defined.

Lemma computed_values_read_back_witness :
  parseCssColor (css_rgb 10 20 30)
  = Some (mkRGB (JsNumber.of_nat 10) (JsNumber.of_nat 20)
                (JsNumber.of_nat 30))
  /\ rgb_in_range (mkRGB (JsNumber.of_nat 10) (JsNumber.of_nat 20)
                         (JsNumber.of_nat 30)).
Proof.
  apply (proj1 computed_values_read_back 10 20 30)%nat; lia.
Defined.

Lemma analysis_reads_selected_elements_witness :
  analyzeDocument Examples.coarse_pow Examples.ruled_doc Examples.ruled_frame
  = analyzeDocument Examples.coarse_pow Examples.bare_doc Examples.bare_frame
  /\ sub_contrast Examples.coarse_pow Examples.framed_doc
       Examples.framed_frame = 100
  /\ sub_contrast Examples.coarse_pow Examples.bare_doc Examples.bare_frame
     = 55.
Proof.
  destruct (analysis_reads_selected_elements Examples.coarse_pow
              coarse_pow_one) as (Same & (_ & _ & Framed) & (_ & _ & Bare)).
  split; [|split; assumption].
  apply Same.
  - reflexivity.
  - vm_compute. reflexivity.
  - reflexivity.
  - intro el. reflexivity.
Defined.

